(** * Boros vault monitor: the vault lifecycle tracker and its snapshot store

    A shallow embedding of [src/stateManager.ts] (class [StateManager]) and
    [src/vaultMonitor.ts] (class [VaultMonitor]: the monitor loop, start-up
    and backfill, the live-vaults command), over the types of [types.ts],
    with the properties the specification states about them.

    Conventions of the embedding.
    - A JavaScript [bigint] is a [Z]; bigint division truncates ([Z.quot]).
    - A JavaScript [number] holding a block height or a millisecond time
      stamp is a [Z]; [CONFIG.FILLED_THRESHOLD_PERCENT], which really is a
      fraction, is a binary64 [float].
    - A JavaScript object used as a map ([Record<string, VaultState>]) is an
      association list in insertion order, which is the order [Object.entries]
      and [Object.values] enumerate address keys in.
    - [x || d] on a value that may be [undefined] is written out per type
      ([or_num], [or_str], [or_bool]), with JavaScript's falsy values.
    - A string is its UTF-8 text.
    - The state file is written in place ([fs.writeFileSync]): a write
      either succeeds, or is refused before the file is opened, or fails
      after the file was truncated ([DiskWrite]).
    - What the tracker does while the command handler awaits is a function
      on the world, applied at the handler's awaits. *)

From Stdlib Require Import ZArith List String Ascii Bool Lia.
From Stdlib Require Import QArith Qround Sorted Permutation RelationClasses.
From Stdlib Require Import Decimal DecimalString DecimalZ DecimalPos.
From Stdlib Require DecimalN DecimalFacts Uint63.
From Stdlib Require Import PrimFloat FloatOps SpecFloat.
Import ListNotations.

Open Scope Z_scope.

(* ------------------------------------------------------------------ *)
(** ** JavaScript primitives the program relies on *)

Module JS.

(** The result of evaluating an expression that may throw. *)
Inductive outcome (A : Type) : Type :=
| Ok (a : A)
| Thrown.
Arguments Ok {A} a.
Arguments Thrown {A}.

(** [String.prototype.toLowerCase] on ASCII text (contract addresses are
    hexadecimal): the letters A-Z are mapped to a-z, every other character
    is kept. *)
Definition lower_char (c : ascii) : ascii :=
  let n := nat_of_ascii c in
  if (Nat.leb 65 n && Nat.leb n 90)%bool then ascii_of_nat (n + 32) else c.

Fixpoint toLowerCase (s : string) : string :=
  match s with
  | EmptyString => EmptyString
  | String c r => String (lower_char c) (toLowerCase r)
  end.

(** [bigint.toString()]: the decimal numeral, with a leading minus sign
    for a negative value. *)
Definition BigInt_toString (n : Z) : string :=
  NilZero.string_of_int (Z.to_int n).

(** The bytes of a string. *)
Definition utf8 (bytes : list nat) : string :=
  fold_right (fun b s => String (ascii_of_nat b) s) EmptyString bytes.

(** [StrWhiteSpaceChar], the white space and the line terminators of
    ECMAScript: TAB, LF, VT, FF, CR, SP, U+00A0, U+1680, U+2000 to U+200A,
    U+2028, U+2029, U+202F, U+205F, U+3000 and U+FEFF. *)
Definition StrWhiteSpaceChar : list string :=
  map utf8
    [ [9]; [10]; [11]; [12]; [13]; [32];
      [194; 160];
      [225; 154; 128];
      [226; 128; 128]; [226; 128; 129]; [226; 128; 130]; [226; 128; 131];
      [226; 128; 132]; [226; 128; 133]; [226; 128; 134]; [226; 128; 135];
      [226; 128; 136]; [226; 128; 137]; [226; 128; 138];
      [226; 128; 168]; [226; 128; 169];
      [226; 128; 175];
      [226; 129; 159];
      [227; 128; 128];
      [239; 187; 191] ]%nat.

(** [s] without its prefix [p], when it has that prefix. *)
Fixpoint dropPrefix (p s : string) : option string :=
  match p, s with
  | EmptyString, _ => Some s
  | String a p', String b s' => if Ascii.eqb a b then dropPrefix p' s' else None
  | String _ _, EmptyString => None
  end.

Fixpoint dropOneOf (ps : list string) (s : string) : option string :=
  match ps with
  | [] => None
  | p :: r =>
      match dropPrefix p s with
      | Some t => Some t
      | None => dropOneOf r s
      end
  end.

Fixpoint trimStart_n (n : nat) (s : string) : string :=
  match n with
  | O => s
  | S k =>
      match dropOneOf StrWhiteSpaceChar s with
      | Some t => trimStart_n k t
      | None => s
      end
  end.

(** [s] without the white space it starts with. *)
Definition trimStart (s : string) : string := trimStart_n (String.length s) s.

(** [s] without the white space it ends with: the text is cut where all
    the rest is white space. *)
Fixpoint trimEnd (s : string) : string :=
  match s with
  | EmptyString => EmptyString
  | String c r =>
      match trimStart s with
      | EmptyString => EmptyString
      | _ => String c (trimEnd r)
      end
  end.

Definition trim (s : string) : string := trimEnd (trimStart s).

(** The value of a hexadecimal digit. *)
Definition digitOf (c : ascii) : option Z :=
  let n := Z.of_nat (nat_of_ascii c) in
  if ((48 <=? n) && (n <=? 57))%bool then Some (n - 48)
  else if ((97 <=? n) && (n <=? 102))%bool then Some (n - 87)
  else if ((65 <=? n) && (n <=? 70))%bool then Some (n - 55)
  else None.

Fixpoint digitsIn (base : Z) (s : string) (acc : Z) : option Z :=
  match s with
  | EmptyString => Some acc
  | String c r =>
      match digitOf c with
      | Some d => if d <? base then digitsIn base r (acc * base + d) else None
      | None => None
      end
  end.

(** A numeral of at least one digit in the given base. *)
Definition numeralIn (base : Z) (s : string) : option Z :=
  match s with
  | EmptyString => None
  | _ => digitsIn base s 0
  end.

(** The base and the digits of [0x...], [0o...] and [0b...]. *)
Definition nonDecimalPrefix (t : string) : option (Z * string) :=
  match t with
  | String c0 (String c1 r) =>
      if Ascii.eqb c0 "0" then
        if (Ascii.eqb c1 "x" || Ascii.eqb c1 "X")%bool then Some (16, r)
        else if (Ascii.eqb c1 "o" || Ascii.eqb c1 "O")%bool then Some (8, r)
        else if (Ascii.eqb c1 "b" || Ascii.eqb c1 "B")%bool then Some (2, r)
        else None
      else None
  | _ => None
  end.

(** [BigInt(s)] for a string ([StringToBigInt]): the white space around
    the numeral is dropped; nothing left is [0n]; a numeral is decimal with an
    optional sign, or binary, octal or hexadecimal after [0b], [0o] or [0x]
    (either case, no sign); anything else is a SyntaxError ([None]). *)
Definition BigInt_of_string (s : string) : option Z :=
  match trim s with
  | EmptyString => Some 0
  | String c r as t =>
      if Ascii.eqb c "+" then option_map Z.of_uint (NilZero.uint_of_string r)
      else
        match nonDecimalPrefix t with
        | Some (base, digits) => numeralIn base digits
        | None => option_map Z.of_int (NilZero.int_of_string t)
        end
  end.

(** A decimal digit or the minus sign. *)
Definition isDecimalChar (c : ascii) : bool :=
  let n := nat_of_ascii c in
  ((n =? 45) || ((48 <=? n) && (n <=? 57)))%nat%bool.

(** Text made of decimal digits and minus signs. *)
Fixpoint allDecimal (s : string) : bool :=
  match s with
  | EmptyString => true
  | String c r => (isDecimalChar c && allDecimal r)%bool
  end.

(** [BigInt(Math.floor(x))] for a binary64 [x]: the largest integer below
    or equal to [x]; a RangeError ([None]) when [x] is NaN or infinite. *)
Definition BigInt_floor (x : float) : option Z :=
  match Prim2SF x with
  | S754_zero _ => Some 0
  | S754_finite s m e =>
      let sm := if s then Z.neg m else Z.pos m in
      Some (if 0 <=? e then sm * 2 ^ e else sm / 2 ^ (- e))
  | S754_infinity _ => None
  | S754_nan => None
  end.

(** [x || d], by the type of [x]; [None] is [undefined]. *)
Definition or_num (x : option Z) (d : Z) : Z :=
  match x with
  | Some n => if n =? 0 then d else n
  | None => d
  end.

Definition or_str (x : option string) (d : string) : string :=
  match x with
  | Some EmptyString => d
  | Some s => s
  | None => d
  end.

Definition or_bool (x : option bool) (d : bool) : bool :=
  match x with
  | Some true => true
  | _ => d
  end.

(** [x || undefined] on an optional string: the empty string is falsy. *)
Definition or_undefined (x : option string) : option string :=
  match x with
  | Some EmptyString => None
  | other => other
  end.

(** Truthiness of an optional string ([!x] is its negation). *)
Definition truthy (x : option string) : bool :=
  match x with
  | Some EmptyString => false
  | Some _ => true
  | None => false
  end.

(** A plain object whose keys are not array indices: [o[k]] and [o[k] = v].
    Assigning an existing key keeps its position; a new key goes last. *)
Section Obj.
Context {V : Type}.

Fixpoint obj_get (k : string) (o : list (string * V)) : option V :=
  match o with
  | [] => None
  | (k', v) :: r => if String.eqb k k' then Some v else obj_get k r
  end.

Fixpoint obj_set (k : string) (v : V) (o : list (string * V)) : list (string * V) :=
  match o with
  | [] => [(k, v)]
  | (k', v') :: r =>
      if String.eqb k k' then (k', v) :: r else (k', v') :: obj_set k v r
  end.
End Obj.

End JS.
Import JS.

(* ------------------------------------------------------------------ *)
(** ** Data model ([types.ts], [config.ts]) *)

Record VaultState : Type := mkVaultState {
  address : string;
  name : string;
  symbol : string;
  totalSupplyCap : Z;
  lastKnownTotalSupply : Z;
  isFilled : bool;
  maturity : Z;
  marketAddress : string;
  lastCheckedBlock : Z;
  createdAt : Z;
  depositTokenSymbol : option string;
  depositTokenDecimals : option Z;
  selfAcc : option string
}.

Record MonitorState : Type := mkMonitorState {
  lastProcessedBlock : Z;
  vaults : list (string * VaultState)
}.

(** [Partial<VaultState>], the argument of [updateVault]: a member is left
    out ([None]) or given.  The three optional members can be given as
    [undefined] ([Some None]); a required member, when given, has a value of
    its type. *)
Record VaultPatch : Type := mkPartial {
  p_address : option string;
  p_name : option string;
  p_symbol : option string;
  p_totalSupplyCap : option Z;
  p_lastKnownTotalSupply : option Z;
  p_isFilled : option bool;
  p_maturity : option Z;
  p_marketAddress : option string;
  p_lastCheckedBlock : option Z;
  p_createdAt : option Z;
  p_depositTokenSymbol : option (option string);
  p_depositTokenDecimals : option (option Z);
  p_selfAcc : option (option string)
}.

(** The object literals the tracker writes give at most these five
    members: cap, supply, fill flag, checked block and token symbol. *)
Abbreviation mkVaultPatch cap supply filled block sym :=
  (mkPartial None None None cap supply filled None None block None
     (option_map Some sym) None None).

(** [x] overridden by a member of a patch. *)
Definition override {A : Type} (x : A) (given : option A) : A :=
  match given with
  | Some y => y
  | None => x
  end.

(** [{ ...vault, ...updates }] *)
Definition spread (v : VaultState) (u : VaultPatch) : VaultState :=
  {| address := override (address v) (p_address u);
     name := override (name v) (p_name u);
     symbol := override (symbol v) (p_symbol u);
     totalSupplyCap := override (totalSupplyCap v) (p_totalSupplyCap u);
     lastKnownTotalSupply := override (lastKnownTotalSupply v) (p_lastKnownTotalSupply u);
     isFilled := override (isFilled v) (p_isFilled u);
     maturity := override (maturity v) (p_maturity u);
     marketAddress := override (marketAddress v) (p_marketAddress u);
     lastCheckedBlock := override (lastCheckedBlock v) (p_lastCheckedBlock u);
     createdAt := override (createdAt v) (p_createdAt u);
     depositTokenSymbol := override (depositTokenSymbol v) (p_depositTokenSymbol u);
     depositTokenDecimals := override (depositTokenDecimals v) (p_depositTokenDecimals u);
     selfAcc := override (selfAcc v) (p_selfAcc u) |}.

(** The part of [CONFIG] the tracker reads. [START_BLOCK] is [undefined]
    ([None]) when the environment variable is unset. *)
Record Config : Type := mkConfig {
  FILLED_THRESHOLD_PERCENT : float;
  START_BLOCK : option Z
}.

(** [parseFloat(s)], which [config.ts] applies to the environment variable
    [FILLED_THRESHOLD_PERCENT], for a decimal numeral [s] of the value
    [digits / 10 ^ scale] with [digits] below [2 ^ 53] and [scale] at most
    22: the binary64 nearest to that value.  Both operands of the division
    are binary64 numbers, and an IEEE division is rounded to nearest. *)
Definition parseFloat_decimal (digits : Z) (scale : nat) : float :=
  (of_uint63 (Uint63.of_Z digits) / of_uint63 (Uint63.of_Z (10 ^ Z.of_nat scale)))%float.

(* ------------------------------------------------------------------ *)
(** ** The persisted snapshot file *)

(** What [JSON.parse] yields on a state file: every member the loader
    guards with [||] may be missing.  [address], [name] and [symbol] are
    read unguarded and are taken to be strings.  A member that is present
    holds a value of the JSON type [saveState] writes it with: the three big
    integers are strings, which [BigInt] parses. *)
Record JsonVault : Type := mkJsonVault {
  j_address : string;
  j_name : string;
  j_symbol : string;
  j_totalSupplyCap : option string;
  j_lastKnownTotalSupply : option string;
  j_isFilled : option bool;
  j_maturity : option string;
  j_marketAddress : option string;
  j_lastCheckedBlock : option Z;
  j_createdAt : option Z;
  j_depositTokenSymbol : option string
}.

Record JsonState : Type := mkJsonState {
  j_lastProcessedBlock : option Z;
  j_vaults : option (list (string * JsonVault))
}.

(** The state file: absent; present but [readFileSync] or [JSON.parse]
    throws on it; or holding a document. *)
Inductive File : Type :=
| NoFile
| Unreadable
| Json (parsed : JsonState).

(** What the file system does with one [fs.writeFileSync], which opens the
    file with truncation and then writes the text (no temporary file is
    used): the text is written; or the call throws before the file is
    touched; or it throws after the file was truncated, which leaves an empty
    or cut text. *)
Inductive DiskWrite : Type :=
| Written
| Refused
| Torn.

(* ------------------------------------------------------------------ *)
(** ** [StateManager] *)

Module StateManager.

(** The fallback of [loadState], after its [try] block. *)
Definition defaultState (cfg : Config) : MonitorState :=
  {| lastProcessedBlock := or_num (START_BLOCK cfg) 0; vaults := [] |}.

(** One vault of the [for] loop of [loadState]; [None] when a [BigInt]
    conversion throws. [now] is [Date.now()].  The object literal has eleven
    members: [depositTokenDecimals] and [selfAcc] are not read. *)
Definition loadVault (now : Z) (v : JsonVault) : option VaultState :=
  match j_totalSupplyCap v with
  | None => None (* BigInt(undefined): TypeError *)
  | Some capStr =>
      match BigInt_of_string capStr,
            BigInt_of_string (or_str (j_lastKnownTotalSupply v) "0"),
            BigInt_of_string (or_str (j_maturity v) "0") with
      | Some cap, Some supply, Some mat =>
          Some {| address := j_address v;
                  name := j_name v;
                  symbol := j_symbol v;
                  totalSupplyCap := cap;
                  lastKnownTotalSupply := supply;
                  isFilled := or_bool (j_isFilled v) false;
                  maturity := mat;
                  marketAddress := or_str (j_marketAddress v) "";
                  lastCheckedBlock := or_num (j_lastCheckedBlock v) 0;
                  createdAt := or_num (j_createdAt v) now;
                  depositTokenSymbol := or_undefined (j_depositTokenSymbol v);
                  depositTokenDecimals := None;
                  selfAcc := None |}
      | _, _, _ => None
      end
  end.

(** The [for] loop of [loadState] over [Object.entries(parsed.vaults || {})],
    filling [state.vaults]. *)
Fixpoint loadVaults (now : Z) (entries : list (string * JsonVault))
    (acc : list (string * VaultState)) : option (list (string * VaultState)) :=
  match entries with
  | [] => Some acc
  | (addr, v) :: rest =>
      match loadVault now v with
      | Some vs => loadVaults now rest (obj_set addr vs acc)
      | None => None
      end
  end.

Definition loadState (cfg : Config) (now : Z) (file : File) : MonitorState :=
  match file with
  | Json parsed =>
      let entries := match j_vaults parsed with Some o => o | None => [] end in
      match loadVaults now entries [] with
      | Some vs =>
          {| lastProcessedBlock := or_num (j_lastProcessedBlock parsed) 0;
             vaults := vs |}
      | None => defaultState cfg (* caught, logged *)
      end
  | NoFile => defaultState cfg
  | Unreadable => defaultState cfg (* caught, logged *)
  end.

(** One vault of the [for] loop of [saveState], as [JSON.stringify] writes
    it: an [undefined] [depositTokenSymbol] is left out of the text.  The
    object literal has eleven members: [depositTokenDecimals] and [selfAcc]
    are not written. *)
Definition saveVault (vault : VaultState) : JsonVault :=
  {| j_address := address vault;
     j_name := name vault;
     j_symbol := symbol vault;
     j_totalSupplyCap := Some (BigInt_toString (totalSupplyCap vault));
     j_lastKnownTotalSupply := Some (BigInt_toString (lastKnownTotalSupply vault));
     j_isFilled := Some (isFilled vault);
     j_maturity := Some (BigInt_toString (maturity vault));
     j_marketAddress := Some (marketAddress vault);
     j_lastCheckedBlock := Some (lastCheckedBlock vault);
     j_createdAt := Some (createdAt vault);
     j_depositTokenSymbol := depositTokenSymbol vault |}.

Fixpoint saveVaults (entries : list (string * VaultState))
    (acc : list (string * JsonVault)) : list (string * JsonVault) :=
  match entries with
  | [] => acc
  | (addr, vault) :: rest => saveVaults rest (obj_set addr (saveVault vault) acc)
  end.

Definition serializable (state : MonitorState) : JsonState :=
  {| j_lastProcessedBlock := Some (lastProcessedBlock state);
     j_vaults := Some (saveVaults (vaults state) []) |}.

(** [saveState]: the file after the call.  When [fs.writeFileSync] throws,
    the error is caught and logged; a cut text is never a JSON document (the
    closing brace is its last character), so [JSON.parse] throws on it. *)
Definition saveState (write : DiskWrite) (file : File) (state : MonitorState) : File :=
  match write with
  | Written => Json (serializable state)
  | Refused => file
  | Torn => Unreadable
  end.

(** What a record written by [saveVault] is read back as by [loadVault]:
    the two members whose guard does not return the stored value, and the two
    members that are neither written nor read. *)
Definition reloaded (now : Z) (v : VaultState) : VaultState :=
  {| address := address v;
     name := name v;
     symbol := symbol v;
     totalSupplyCap := totalSupplyCap v;
     lastKnownTotalSupply := lastKnownTotalSupply v;
     isFilled := isFilled v;
     maturity := maturity v;
     marketAddress := marketAddress v;
     lastCheckedBlock := lastCheckedBlock v;
     createdAt := or_num (Some (createdAt v)) now;
     depositTokenSymbol := or_undefined (depositTokenSymbol v);
     depositTokenDecimals := None;
     selfAcc := None |}.

(** A [BigInt] conversion of [loadState] throws on this stored vault. *)
Definition bigIntThrows (v : JsonVault) : Prop :=
  j_totalSupplyCap v = None
  \/ (exists s, j_totalSupplyCap v = Some s /\ BigInt_of_string s = None)
  \/ BigInt_of_string (or_str (j_lastKnownTotalSupply v) "0") = None
  \/ BigInt_of_string (or_str (j_maturity v) "0") = None.

(** Reading or parsing the state file raises an error inside the [try]
    block of [loadState]. *)
Inductive loadRaises : File -> Prop :=
| raises_unreadable : loadRaises Unreadable
| raises_in_vault (parsed : JsonState) (entries : list (string * JsonVault))
    (addr : string) (v : JsonVault) :
    j_vaults parsed = Some entries ->
    In (addr, v) entries ->
    bigIntThrows v ->
    loadRaises (Json parsed).

Section Methods.
Variable cfg : Config.
Variable now : Z.
Variable write : DiskWrite.

Definition addVault (vault : VaultState) (file : File) : File :=
  let state := loadState cfg now file in
  saveState write file
    {| lastProcessedBlock := lastProcessedBlock state;
       vaults := obj_set (toLowerCase (address vault)) vault (vaults state) |}.

Definition updateVault (addr0 : string) (updates : VaultPatch) (file : File) : File :=
  let state := loadState cfg now file in
  let addr := toLowerCase addr0 in
  match obj_get addr (vaults state) with
  | Some old =>
      saveState write file
        {| lastProcessedBlock := lastProcessedBlock state;
           vaults := obj_set addr (spread old updates) (vaults state) |}
  | None => file
  end.

Definition getVault (addr0 : string) (file : File) : option VaultState :=
  obj_get (toLowerCase addr0) (vaults (loadState cfg now file)).

Definition getAllVaults (file : File) : list VaultState :=
  map snd (vaults (loadState cfg now file)).
End Methods.

End StateManager.

(* ------------------------------------------------------------------ *)
(** ** The chain reader and the tracker's mutable state *)

(** An entry of a [queryFilter] result: a decoded [ethers.EventLog] with
    its block number and arguments, or a plain [Log] without arguments. *)
Inductive LogEntry (A : Type) : Type :=
| EventLog (blockNumber : Z) (args : A)
| PlainLog.
Arguments EventLog {A} blockNumber args.
Arguments PlainLog {A}.

(** What the outside world answers during one pass of the monitor loop or
    one command.  A read that returns [None] is an RPC call that rejects;
    [disk_write] is what becomes of a write of the state file;
    [sendMessage_ok] tells whether Telegram delivers a reply with the given
    text ([bot.sendMessage] rejects otherwise). *)
Record Chain : Type := mkChain {
  getBlockNumber : option Z;
  AMMCreated_logs : Z -> Z -> option (list (LogEntry string));
  TotalSupplyCapUpdated_logs : string -> Z -> Z -> option (list (LogEntry (list Z)));
  amm_name : string -> option string;
  amm_symbol : string -> option string;
  amm_totalSupplyCap : string -> option Z;
  amm_totalSupply : string -> option Z;
  amm_MATURITY : string -> option Z;
  amm_MARKET : string -> option string;
  market_getLatestFTime : string -> option Z;
  market_descriptor_tokenId : string -> option string;
  hub_tokenIdToAddress : string -> option string;
  erc20_symbol : string -> option string;
  Date_now : Z;
  disk_write : DiskWrite;
  sendMessage_ok : string -> bool
}.

(** The four calls of the [Notifier] interface; [TelegramNotifier] catches
    its own delivery errors, so a call never throws. *)
Inductive Notification : Type :=
| NewVault (vault : VaultState) (filled : bool)
| CapRaised (vault : VaultState) (oldCap newCap currentSupply : Z)
| VaultFilled (vault : VaultState)
| VaultAvailable (vault : VaultState) (currentSupply : Z).

(** An event-log query sent to the chain. *)
Inductive LogQuery : Type :=
| QueryAMMCreated (fromBlock toBlock : Z)
| QueryCapUpdated (amm : string) (fromBlock toBlock : Z).

(** The state file, the private fields of [VaultMonitor], and what has
    been sent so far (oldest first): notifications, log queries, and the
    replies to the live-vaults command. *)
Record World : Type := mkWorld {
  stateFile : File;
  cachedLiveVaultsMessage : option string;
  cachedLiveVaultsTimestamp : Z;
  lastStatusCheckBlock : Z;
  notifications : list Notification;
  logQueries : list LogQuery;
  replies : list string
}.

Definition with_stateFile (f : File) (w : World) : World :=
  mkWorld f (cachedLiveVaultsMessage w) (cachedLiveVaultsTimestamp w)
    (lastStatusCheckBlock w) (notifications w) (logQueries w) (replies w).

Definition with_cache (m : option string) (t : Z) (w : World) : World :=
  mkWorld (stateFile w) m t (lastStatusCheckBlock w) (notifications w)
    (logQueries w) (replies w).

Definition with_lastStatusCheckBlock (b : Z) (w : World) : World :=
  mkWorld (stateFile w) (cachedLiveVaultsMessage w) (cachedLiveVaultsTimestamp w)
    b (notifications w) (logQueries w) (replies w).

Definition with_notification (n : Notification) (w : World) : World :=
  mkWorld (stateFile w) (cachedLiveVaultsMessage w) (cachedLiveVaultsTimestamp w)
    (lastStatusCheckBlock w) (notifications w ++ [n]) (logQueries w) (replies w).

Definition with_logQuery (q : LogQuery) (w : World) : World :=
  mkWorld (stateFile w) (cachedLiveVaultsMessage w) (cachedLiveVaultsTimestamp w)
    (lastStatusCheckBlock w) (notifications w) (logQueries w ++ [q]) (replies w).

Definition with_reply (r : string) (w : World) : World :=
  mkWorld (stateFile w) (cachedLiveVaultsMessage w) (cachedLiveVaultsTimestamp w)
    (lastStatusCheckBlock w) (notifications w) (logQueries w) (replies w ++ [r]).

(** Computations of the tracker: they change the world and may throw; what
    was done before a throw stays done. *)
Definition M (A : Type) : Type := World -> outcome A * World.

Definition ret {A : Type} (a : A) : M A := fun w => (Ok a, w).

Definition bind {A B : Type} (m : M A) (k : A -> M B) : M B :=
  fun w =>
    match m w with
    | (Ok a, w') => k a w'
    | (Thrown, w') => (Thrown, w')
    end.

Notation "x <- m ;; k" := (bind m (fun x => k))
  (at level 61, m at next level, right associativity).
Notation "m ;;; k" := (bind m (fun _ => k))
  (at level 61, right associativity).

(** [await] of an RPC read. *)
Definition call {A : Type} (r : option A) : M A :=
  fun w => match r with Some a => (Ok a, w) | None => (Thrown, w) end.

(** A pure expression that may throw. *)
Definition lift {A : Type} (r : outcome A) : M A := fun w => (r, w).

Definition modify (f : World -> World) : M unit := fun w => (Ok tt, f w).

Definition gets {A : Type} (f : World -> A) : M A := fun w => (Ok (f w), w).

(** [try { m } catch (error) { console.error(...) }] *)
Definition try_catch (m : M unit) : M unit :=
  fun w =>
    match m w with
    | (Ok _, w') => (Ok tt, w')
    | (Thrown, w') => (Ok tt, w')
    end.

(** [try { m } catch (error) { handler }] *)
Definition try_catch_with (m handler : M unit) : M unit :=
  fun w =>
    match m w with
    | (Ok _, w') => (Ok tt, w')
    | (Thrown, w') => handler w'
    end.

(** [for (const x of l) { body }]: a [continue] ends the body. *)
Fixpoint forEach {A : Type} (l : list A) (body : A -> M unit) : M unit :=
  match l with
  | [] => ret tt
  | x :: r => body x ;;; forEach r body
  end.

(** How the body of a loop ends: by falling through (or [continue]), or by
    a [return] that leaves the enclosing function. *)
Inductive Completion : Type :=
| Normal
| Return.

(** Binding of read-only code, which only may throw. *)
Definition obind {A B : Type} (r : outcome A) (k : A -> outcome B) : outcome B :=
  match r with
  | Ok a => k a
  | Thrown => Thrown
  end.

Definition ocall {A : Type} (r : option A) : outcome A :=
  match r with
  | Some a => Ok a
  | None => Thrown
  end.

Notation "x <-? m ;; k" := (obind m (fun x => k))
  (at level 61, m at next level, right associativity).

(** An entry of the live-vaults list:
    [VaultState & { depositCurrency: string; utilization: number }].
    [utilization] is [Number(basisPoints) / 100], kept as the fraction. *)
Record LiveVault : Type := mkLiveVault {
  vaultOf : VaultState;
  depositCurrency : string;
  utilization : Q
}.

(** [liveVaults.sort((a, b) => a.utilization - b.utilization)]: a stable
    sort; [a] stays before [b] unless the comparator is positive. *)
Fixpoint insertByUtilization (a : LiveVault) (l : list LiveVault) : list LiveVault :=
  match l with
  | [] => [a]
  | b :: r =>
      if Qle_bool (utilization a) (utilization b) then a :: b :: r
      else b :: insertByUtilization a r
  end.

Definition sortByUtilization (l : list LiveVault) : list LiveVault :=
  fold_right insertByUtilization [] l.

(** [allVaults.slice(i, i + BATCH_SIZE)] for [i = 0, BATCH_SIZE, ...] *)
Fixpoint batches {A : Type} (fuel : nat) (size : nat) (l : list A) : list (list A) :=
  match fuel, l with
  | O, _ => []
  | _, [] => []
  | S fuel', _ => firstn size l :: batches fuel' size (skipn size l)
  end.

(* ------------------------------------------------------------------ *)
(** ** [VaultMonitor]

    The class of [src/vaultMonitor.ts]: the filled predicate, the
    live-vault query with its cache, and the monitor loop with its three
    detection steps.  The pluggable-sink variant of the same class differs
    in what it attaches to a notification (a deposit estimate computed in
    floating point) and in that it fills the two optional record members
    [depositTokenDecimals] and [selfAcc]; its control flow is the one
    embedded here.  Start-up is embedded in [Startup] below. *)

Module VaultMonitor.

Definition LIVE_VAULTS_CACHE_TTL_MS : Z := 30000.
Definition STATUS_CHECK_INTERVAL_BLOCKS : Z := 120.
Definition BATCH_SIZE : nat := 5.

(** [BigInt(Math.floor(CONFIG.FILLED_THRESHOLD_PERCENT * 100))] *)
Definition thresholdBasisPoints (cfg : Config) : option Z :=
  BigInt_floor (FILLED_THRESHOLD_PERCENT cfg * 100)%float.

Definition isVaultFilled (cfg : Config) (currentSupply totalSupplyCap : Z) : outcome bool :=
  if totalSupplyCap =? 0 then Ok false
  else
    let utilizationBasisPoints := Z.quot (currentSupply * 10000) totalSupplyCap in
    match thresholdBasisPoints cfg with
    | Some threshold => Ok (threshold <=? utilizationBasisPoints)
    | None => Thrown (* RangeError *)
    end.

Section Tracker.
Variable cfg : Config.
Variable rpc : Chain.

(** The state-manager calls, on the state file of the world. *)
Definition stateManager_addVault (vault : VaultState) : M unit :=
  modify (fun w =>
    with_stateFile
      (StateManager.addVault cfg (Date_now rpc) (disk_write rpc) vault (stateFile w)) w).

Definition stateManager_updateVault (addr : string) (updates : VaultPatch) : M unit :=
  modify (fun w =>
    with_stateFile
      (StateManager.updateVault cfg (Date_now rpc) (disk_write rpc) addr updates
         (stateFile w)) w).

Definition stateManager_getVault (addr : string) : M (option VaultState) :=
  gets (fun w => StateManager.getVault cfg (Date_now rpc) addr (stateFile w)).

Definition stateManager_getAllVaults : M (list VaultState) :=
  gets (fun w => StateManager.getAllVaults cfg (Date_now rpc) (stateFile w)).

Definition stateManager_loadState : M MonitorState :=
  gets (fun w => StateManager.loadState cfg (Date_now rpc) (stateFile w)).

Definition stateManager_saveState (state : MonitorState) : M unit :=
  modify (fun w =>
    with_stateFile (StateManager.saveState (disk_write rpc) (stateFile w) state) w).

Definition notify (n : Notification) : M unit := modify (with_notification n).

Definition queryFilter {A : Type} (q : LogQuery) (answer : option A) : M A :=
  modify (with_logQuery q) ;;; call answer.

Definition invalidateLiveVaultsCache : M unit := modify (with_cache None 0).

(** [latestFTime >= maturity] *)
Definition expired (latestFTime maturity0 : Z) : bool := maturity0 <=? latestFTime.

(** [fetchDepositTokenSymbol]: [None] is [null]; every failure inside is
    caught there. *)
Definition fetchDepositTokenSymbol (market : string) : option string :=
  match market_descriptor_tokenId rpc market with
  | None => None
  | Some tokenIdHex =>
      if (String.eqb tokenIdHex "" || String.eqb tokenIdHex "0x00000000000000000000000000000000"
          || String.eqb tokenIdHex "0x")%bool
      then None
      else
        match hub_tokenIdToAddress rpc tokenIdHex with
        | None => None
        | Some tokenAddress =>
            if (String.eqb tokenAddress ""
                || String.eqb tokenAddress "0x0000000000000000000000000000000000000000")%bool
            then None
            else erc20_symbol rpc tokenAddress
        end
  end.

(** The body of the [for] loop of [getLiveVaults], inside its [try]:
    [Ok None] is a [continue], [Ok (Some e)] the entry pushed. *)
Definition liveVaultEntry (vault : VaultState) : outcome (option LiveVault) :=
  latestFTime <-? ocall (market_getLatestFTime rpc (marketAddress vault)) ;;
  if expired latestFTime (maturity vault) then Ok None
  else
    currentSupply <-? ocall (amm_totalSupply rpc (address vault)) ;;
    cap <-? ocall (amm_totalSupplyCap rpc (address vault)) ;;
    filled <-? isVaultFilled cfg currentSupply cap ;;
    if filled then Ok None
    else
      let currency :=
        if truthy (depositTokenSymbol vault)
        then or_str (depositTokenSymbol vault) (symbol vault)
        else
          let tokenSymbol := fetchDepositTokenSymbol (marketAddress vault) in
          if truthy tokenSymbol then or_str tokenSymbol (symbol vault)
          else or_str (depositTokenSymbol vault) (symbol vault) in
      let util :=
        if 0 <? cap then Qmake (Z.quot (currentSupply * 10000) cap) 100 else 0%Q in
      Ok (Some
        {| vaultOf :=
             {| address := address vault;
                name := name vault;
                symbol := symbol vault;
                totalSupplyCap := cap;
                lastKnownTotalSupply := currentSupply;
                isFilled := isFilled vault;
                maturity := maturity vault;
                marketAddress := marketAddress vault;
                lastCheckedBlock := lastCheckedBlock vault;
                createdAt := createdAt vault;
                depositTokenSymbol := Some currency;
                depositTokenDecimals := depositTokenDecimals vault;
                selfAcc := selfAcc vault |};
           depositCurrency := currency;
           utilization := util |}).

(** The loop of [getLiveVaults]: a vault whose reads throw is logged and
    left out. *)
Fixpoint collectLiveVaults (allVaults : list VaultState) : list LiveVault :=
  match allVaults with
  | [] => []
  | vault :: rest =>
      match liveVaultEntry vault with
      | Ok (Some entry) => entry :: collectLiveVaults rest
      | Ok None => collectLiveVaults rest
      | Thrown => collectLiveVaults rest
      end
  end.

Definition getLiveVaults : M (list LiveVault) :=
  allVaults <- stateManager_getAllVaults ;;
  ret (sortByUtilization (collectLiveVaults allVaults)).

(** [bot.sendMessage(chatId, text, ...)]: the reply is delivered, or the
    call rejects. *)
Definition sendMessage (text : string) : M unit :=
  fun w =>
    if sendMessage_ok rpc text then (Ok tt, with_reply text w) else (Thrown, w).

(** [handleLiveVaultsCommand]; [formatLiveVaultsList] renders dates and
    fractions for display and is taken as given.

    The handler awaits its sends and the reads of [getLiveVaults], and the
    tracker can run while it waits.  Between the cache test and the cache
    write the handler reads the world twice (the cache fields at its start,
    the store at the start of [getLiveVaults]) and writes it once (the
    cache, in the same synchronous stretch as the end of [getLiveVaults]).
    [afterNotice] is what the tracker did to the world while the fetching
    notice was sent, [duringFetch] what it did while [getLiveVaults] was
    waiting for its reads. *)
Definition handleLiveVaultsCommandDuring (afterNotice duringFetch : World -> World)
    (formatLiveVaultsList : list LiveVault -> string) : M unit :=
  try_catch_with
    (let now := Date_now rpc in
     cached <- gets cachedLiveVaultsMessage ;;
     stamp <- gets cachedLiveVaultsTimestamp ;;
     let cacheAge := now - stamp in
     if (truthy cached && (cacheAge <? LIVE_VAULTS_CACHE_TTL_MS))%bool
     then sendMessage (or_str cached "")
     else
       sendMessage "📊 Fetching live vaults..." ;;;
       modify afterNotice ;;;
       liveVaults <- getLiveVaults ;;
       modify duringFetch ;;;
       match liveVaults with
       | [] =>
           let emptyMessage := "❌ No live vaults found."%string in
           modify (with_cache (Some emptyMessage) now) ;;;
           sendMessage emptyMessage
       | _ =>
           let message := formatLiveVaultsList liveVaults in
           modify (with_cache (Some message) now) ;;;
           sendMessage message
       end)
    (sendMessage "❌ Error fetching vaults. Please try again later.").

(** A command during which the tracker does nothing. *)
Definition handleLiveVaultsCommand (formatLiveVaultsList : list LiveVault -> string) : M unit :=
  handleLiveVaultsCommandDuring (fun w => w) (fun w => w) formatLiveVaultsList.

(** The body of the [for] loop of [monitorNewVaults]. *)
Definition onAMMCreated (event : LogEntry string) : M unit :=
  match event with
  | PlainLog => ret tt
  | EventLog blockNumber ammAddress =>
      existing <- stateManager_getVault ammAddress ;;
      match existing with
      | Some _ => ret tt (* continue *)
      | None =>
          name0 <- call (amm_name rpc ammAddress) ;;
          symbol0 <- call (amm_symbol rpc ammAddress) ;;
          cap <- call (amm_totalSupplyCap rpc ammAddress) ;;
          supply <- call (amm_totalSupply rpc ammAddress) ;;
          maturity0 <- call (amm_MATURITY rpc ammAddress) ;;
          market <- call (amm_MARKET rpc ammAddress) ;;
          latestFTime <- call (market_getLatestFTime rpc market) ;;
          let isExpired := expired latestFTime maturity0 in
          let tokenSymbol := fetchDepositTokenSymbol market in
          filled <- lift (isVaultFilled cfg supply cap) ;;
          let vault :=
            {| address := ammAddress;
               name := name0;
               symbol := symbol0;
               totalSupplyCap := cap;
               lastKnownTotalSupply := supply;
               isFilled := filled;
               maturity := maturity0;
               marketAddress := market;
               lastCheckedBlock := blockNumber;
               createdAt := Date_now rpc;
               depositTokenSymbol := or_undefined tokenSymbol;
               depositTokenDecimals := None;
               selfAcc := None |} in
          stateManager_addVault vault ;;;
          invalidateLiveVaultsCache ;;;
          if negb isExpired then
            if negb (isFilled vault) then notify (NewVault vault false)
            else notify (NewVault vault true)
          else ret tt
      end
  end.

Definition monitorNewVaults (fromBlock toBlock : Z) : M unit :=
  try_catch
    (events <- queryFilter (QueryAMMCreated fromBlock toBlock)
                 (AMMCreated_logs rpc fromBlock toBlock) ;;
     forEach events onAMMCreated).

(** The body of the inner [for] loop of [monitorCapUpdates]; [vault] is the
    record read before the outer loop started. *)
Definition onCapUpdated (vault : VaultState) (event : LogEntry (list Z)) : M unit :=
  match event with
  | EventLog blockNumber (newCap :: _) =>
      let oldCap := totalSupplyCap vault in
      currentSupply <- call (amm_totalSupply rpc (address vault)) ;;
      let wasFilled := isFilled vault in
      isNowFilled <- lift (isVaultFilled cfg currentSupply newCap) ;;
      stateManager_updateVault (address vault)
        (mkVaultPatch (Some newCap) (Some currentSupply) (Some isNowFilled)
           (Some blockNumber) None) ;;;
      invalidateLiveVaultsCache ;;;
      notify (CapRaised
                (spread vault (mkVaultPatch (Some newCap) (Some currentSupply) None None None))
                oldCap newCap currentSupply) ;;;
      if (wasFilled && negb isNowFilled)%bool then
        notify (NewVault
                  (spread vault
                     (mkVaultPatch (Some newCap) (Some currentSupply) (Some false) None None))
                  false)
      else ret tt
  | EventLog _ [] => ret tt
  | PlainLog => ret tt
  end.

(** The [try] block of the outer [for] loop of [monitorCapUpdates]. *)
Definition capUpdatesOf (fromBlock toBlock : Z) (vault : VaultState) : M Completion :=
  events <- queryFilter (QueryCapUpdated (address vault) fromBlock toBlock)
              (TotalSupplyCapUpdated_logs rpc (address vault) fromBlock toBlock) ;;
  latestFTime <- call (market_getLatestFTime rpc (marketAddress vault)) ;;
  if expired latestFTime (maturity vault) then ret Return
  else forEach events (onCapUpdated vault) ;;; ret Normal.

(** The outer [for] loop of [monitorCapUpdates]: a throw in the [try] block
    is caught and the loop goes on; a [return] in it leaves the function. *)
Fixpoint capUpdatesLoop (fromBlock toBlock : Z) (vaults0 : list VaultState) : M unit :=
  match vaults0 with
  | [] => ret tt
  | vault :: rest =>
      fun w =>
        match capUpdatesOf fromBlock toBlock vault w with
        | (Ok Return, w') => (Ok tt, w')
        | (Ok Normal, w') => capUpdatesLoop fromBlock toBlock rest w'
        | (Thrown, w') => capUpdatesLoop fromBlock toBlock rest w'
        end
  end.

Definition monitorCapUpdates (fromBlock toBlock : Z) : M unit :=
  vaults0 <- stateManager_getAllVaults ;;
  capUpdatesLoop fromBlock toBlock vaults0.

(** The token-symbol backfill of [checkVaultStatus]; it returns the
    in-memory record, which the code updates in place. *)
Definition backfillTokenSymbol (vault : VaultState) : M VaultState :=
  if negb (truthy (depositTokenSymbol vault)) then
    match fetchDepositTokenSymbol (marketAddress vault) with
    | Some tokenSymbol =>
        if truthy (Some tokenSymbol) then
          stateManager_updateVault (address vault)
            (mkVaultPatch None None None None (Some tokenSymbol)) ;;;
          ret (spread vault (mkVaultPatch None None None None (Some tokenSymbol)))
        else ret vault
    | None => ret vault
    end
  else ret vault.

Definition checkVaultStatus (vault0 : VaultState) : M unit :=
  try_catch
    (latestFTime <- call (market_getLatestFTime rpc (marketAddress vault0)) ;;
     if expired latestFTime (maturity vault0) then ret tt
     else
       vault <- backfillTokenSymbol vault0 ;;
       supply <- call (amm_totalSupply rpc (address vault)) ;;
       cap <- call (amm_totalSupplyCap rpc (address vault)) ;;
       let wasFilled := isFilled vault in
       isNowFilled <- lift (isVaultFilled cfg supply cap) ;;
       (if negb (cap =? totalSupplyCap vault) then
          invalidateLiveVaultsCache ;;;
          notify (CapRaised
                    (spread vault (mkVaultPatch (Some cap) (Some supply) None None None))
                    (totalSupplyCap vault) cap supply)
        else ret tt) ;;;
       (if negb (Bool.eqb wasFilled isNowFilled) then
          invalidateLiveVaultsCache ;;;
          if isNowFilled then
            notify (VaultFilled
                      (spread vault
                         (mkVaultPatch (Some cap) (Some supply) (Some true) None None)))
          else if wasFilled then
            notify (VaultAvailable
                      (spread vault
                         (mkVaultPatch (Some cap) (Some supply) (Some false) None None))
                      supply)
          else ret tt
        else ret tt) ;;;
       stateManager_updateVault (address vault)
         (mkVaultPatch (Some cap) (Some supply) (Some isNowFilled) None None)).

(** [checkAllVaultStatuses]: batches of [BATCH_SIZE].  The code starts the
    checks of one batch together ([Promise.all]); the embedding runs them one
    after the other in list order, the order in which they start.  In the
    code the notifications of one batch can come out in another order. *)
Definition checkAllVaultStatuses : M unit :=
  allVaults <- stateManager_getAllVaults ;;
  forEach (batches (List.length allVaults) BATCH_SIZE allVaults)
    (fun batch => forEach batch checkVaultStatus).

(** One pass of the [while] loop of [monitor], up to the poll delay. *)
Definition monitorPass : M unit :=
  try_catch
    (currentBlock <- call (getBlockNumber rpc) ;;
     state <- stateManager_loadState ;;
     let fromBlock := lastProcessedBlock state + 1 in
     if fromBlock <=? currentBlock then
       monitorNewVaults fromBlock currentBlock ;;;
       monitorCapUpdates fromBlock currentBlock ;;;
       lastCheck <- gets lastStatusCheckBlock ;;
       (if STATUS_CHECK_INTERVAL_BLOCKS <=? currentBlock - lastCheck then
          checkAllVaultStatuses ;;;
          modify (with_lastStatusCheckBlock currentBlock)
        else ret tt) ;;;
       newState <- stateManager_loadState ;;
       stateManager_saveState {| lastProcessedBlock := currentBlock; vaults := vaults newState |}
     else ret tt).

End Tracker.

(** The [while] loop of [monitor]: one pass per poll, each against what the
    chain answers at that time. *)
Fixpoint monitor (cfg : Config) (polls : list Chain) (w : World) : World :=
  match polls with
  | [] => w
  | rpc :: later => monitor cfg later (snd (monitorPass cfg rpc w))
  end.

(** What a reader of the state file finds as [lastProcessedBlock]. *)
Definition persistedBlock (cfg : Config) (now : Z) (w : World) : Z :=
  lastProcessedBlock (StateManager.loadState cfg now (stateFile w)).

End VaultMonitor.

(* ------------------------------------------------------------------ *)
(** ** Start-up of [VaultMonitor]: [loadExistingVaults], [backfillVaults] *)

Module Startup.
Import VaultMonitor.

(** [lookbackBlocks] of [backfillVaults] *)
Definition lookbackBlocks : Z := 100800.

Section Backfill.
Variable cfg : Config.
Variable rpc : Chain.

(** [CONFIG.START_BLOCK ? CONFIG.START_BLOCK : Math.max(0, currentBlock - lookbackBlocks)] *)
Definition backfillFrom (currentBlock : Z) : Z :=
  match START_BLOCK cfg with
  | Some b => if b =? 0 then Z.max 0 (currentBlock - lookbackBlocks) else b
  | None => Z.max 0 (currentBlock - lookbackBlocks)
  end.

(** The body of the [for] loop of [backfillVaults]: a vault the store has
    is skipped; what throws while a new one is fetched is caught there and
    counted. *)
Definition onBackfillEvent (event : LogEntry string) : M unit :=
  match event with
  | PlainLog => ret tt
  | EventLog blockNumber ammAddress =>
      existing <- stateManager_getVault cfg rpc ammAddress ;;
      match existing with
      | Some _ => ret tt (* continue *)
      | None =>
          try_catch
            (name0 <- call (amm_name rpc ammAddress) ;;
             symbol0 <- call (amm_symbol rpc ammAddress) ;;
             cap <- call (amm_totalSupplyCap rpc ammAddress) ;;
             supply <- call (amm_totalSupply rpc ammAddress) ;;
             maturity0 <- call (amm_MATURITY rpc ammAddress) ;;
             market <- call (amm_MARKET rpc ammAddress) ;;
             latestFTime <- call (market_getLatestFTime rpc market) ;;
             let tokenSymbol := fetchDepositTokenSymbol rpc market in
             filled <- lift (isVaultFilled cfg supply cap) ;;
             stateManager_addVault cfg rpc
               {| address := ammAddress;
                  name := name0;
                  symbol := symbol0;
                  totalSupplyCap := cap;
                  lastKnownTotalSupply := supply;
                  isFilled := filled;
                  maturity := maturity0;
                  marketAddress := market;
                  lastCheckedBlock := blockNumber;
                  createdAt := blockNumber;
                  depositTokenSymbol := or_undefined tokenSymbol;
                  depositTokenDecimals := None;
                  selfAcc := None |})
      end
  end.

Definition backfillVaults : M unit :=
  try_catch
    (currentBlock <- call (getBlockNumber rpc) ;;
     let fromBlock := backfillFrom currentBlock in
     events <- queryFilter (QueryAMMCreated fromBlock currentBlock)
                 (AMMCreated_logs rpc fromBlock currentBlock) ;;
     match events with
     | [] => ret tt (* return *)
     | _ => forEach events onBackfillEvent
     end).

Definition loadExistingVaults : M unit :=
  vaults0 <- stateManager_getAllVaults cfg rpc ;;
  (if (List.length vaults0 =? 0)%nat then backfillVaults else ret tt) ;;;
  updatedVaults <- stateManager_getAllVaults cfg rpc ;;
  forEach updatedVaults (checkVaultStatus cfg rpc).

End Backfill.

End Startup.

(* ------------------------------------------------------------------ *)
(** ** Amounts in messages: [formatNumber]

    The same private method is in [VaultMonitor] and in [FileNotifier]; it
    prints an 18-decimal token amount with six decimals. *)

Module Format.
Import JS.
#[local] Open Scope string_scope.

(** [c.repeat(n)] for a one-character string [c] *)
Fixpoint repeatChar (c : ascii) (n : nat) : string :=
  match n with
  | O => EmptyString
  | S k => String c (repeatChar c k)
  end.

(** [s.padStart(targetLength, c)] for a one-character pad string: the pad
    is repeated up to the target length; a string that is long enough is
    returned as it is. *)
Definition padStart (targetLength : nat) (c : ascii) (s : string) : string :=
  repeatChar c (targetLength - String.length s) ++ s.

(** [formatNumber(value, decimals)]; [s.slice(0, 6)] is [substring 0 6 s].
    [10 ** decimals] is computed in binary64 and is the exact power of ten up
    to [decimals = 22]; every call leaves [decimals] at its default, 18. *)
Definition formatNumber (value : Z) (decimals : nat) : string :=
  let divisor := 10 ^ Z.of_nat decimals in
  let whole := Z.quot value divisor in
  let fraction := Z.rem value divisor in
  let fractionStr := padStart decimals "0" (BigInt_toString fraction) in
  BigInt_toString whole ++ "." ++ substring 0 6 fractionStr.

End Format.

(* ------------------------------------------------------------------ *)
(** ** Vocabulary of the properties *)

Module Spec.
Import StateManager VaultMonitor.

(** The number a finite binary64 stands for. *)
Definition float_value (x : float) : option Q :=
  match Prim2SF x with
  | S754_zero _ => Some 0%Q
  | S754_finite s m e =>
      let sm := if s then Z.neg m else Z.pos m in
      Some (if 0 <=? e then inject_Z (sm * 2 ^ e) else Qmake sm (Z.to_pos (2 ^ (- e))))
  | S754_infinity _ => None
  | S754_nan => None
  end.

(** The binary64 [x] is the number [q]. *)
Definition represents (x : float) (q : Q) : Prop :=
  exists q0, float_value x = Some q0 /\ (q0 == q)%Q.

(** The configured threshold [x] is the number [q]: [q] is the number the
    binary64 [x] stands for, or [q] is the decimal [digits / 10 ^ scale] of
    the environment, which [parseFloat] has rounded to [x]. *)
Definition configuredAs (x : float) (q : Q) : Prop :=
  represents x q
  \/ exists (digits : Z) (scale : nat),
       0 <= digits < 2 ^ 53
       /\ (scale <= 22)%nat
       /\ (q == inject_Z digits / inject_Z (10 ^ Z.of_nat scale))%Q
       /\ x = parseFloat_decimal digits scale.

(** [floor(thresholdPercent * 100)] in exact arithmetic, as the
    specification writes the threshold in basis points. *)
Definition exactBasisPoints (thresholdPercent : Q) : Z :=
  Qfloor (thresholdPercent * 100).

(** The state file is absent, or it holds a document that [loadState]
    reads without an error. *)
Definition loadable (file : File) : Prop :=
  match file with
  | NoFile => True
  | Unreadable => False
  | Json parsed =>
      exists vs,
        loadVaults 0 (match j_vaults parsed with Some o => o | None => [] end) []
        = Some vs
  end.

(** The block height a state file holds, when it holds a document with
    one. *)
Definition heldBlock (file : File) : option Z :=
  match file with
  | Json parsed => j_lastProcessedBlock parsed
  | _ => None
  end.

(** Every vault of a document written by [saveState] can be read. *)
Definition readable (kv : string * JsonVault) : Prop :=
  exists v, snd kv = saveVault v.

(** Every run of [m] relates the world before to the world after. *)
Definition stable (R : World -> World -> Prop) {A : Type} (m : M A) : Prop :=
  forall w, R w (snd (m w)).

(** [m] never throws. *)
Definition noThrow {A : Type} (m : M A) : Prop :=
  forall w, exists a, fst (m w) = Ok a.

(** The range a log query asks for. *)
Definition queryRange (q : LogQuery) : Z * Z :=
  match q with
  | QueryAMMCreated f t => (f, t)
  | QueryCapUpdated _ f t => (f, t)
  end.

(** What steps 2 to 4 of a pass over [fromBlock..toBlock] may do to the
    world: the persisted block height stays, and every log query added
    asks for exactly that range. *)
Definition duringPass (cfg : Config) (fromBlock toBlock : Z) (w w' : World) : Prop :=
  (forall now, persistedBlock cfg now w' = persistedBlock cfg now w)
  /\ (loadable (stateFile w) -> loadable (stateFile w'))
  /\ exists qs, logQueries w' = logQueries w ++ qs
                /\ Forall (fun q => queryRange q = (fromBlock, toBlock)) qs.

(** Every log query added from [w] to [w'] asks for the range
    [fromBlock..toBlock]. *)
Definition asks (fromBlock toBlock : Z) (w w' : World) : Prop :=
  exists qs, logQueries w' = logQueries w ++ qs
             /\ Forall (fun q => queryRange q = (fromBlock, toBlock)) qs.

(** Steps 2 to 4 of a pass. *)
Definition steps (cfg : Config) (rpc : Chain) (fromBlock toBlock : Z) : M unit :=
  monitorNewVaults cfg rpc fromBlock toBlock ;;;
  monitorCapUpdates cfg rpc fromBlock toBlock ;;;
  lastCheck <- gets lastStatusCheckBlock ;;
  (if STATUS_CHECK_INTERVAL_BLOCKS <=? toBlock - lastCheck then
     checkAllVaultStatuses cfg rpc ;;;
     modify (with_lastStatusCheckBlock toBlock)
   else ret tt).

(** A creation-log entry the store already has a record for. *)
Definition known (cfg : Config) (rpc : Chain) (w : World) (event : LogEntry string) : Prop :=
  match event with
  | EventLog _ ammAddress =>
      StateManager.getVault cfg (Date_now rpc) ammAddress (stateFile w) <> None
  | PlainLog => True
  end.

(** The live-vaults cache holds nothing. *)
Definition invalidated (w : World) : Prop :=
  cachedLiveVaultsMessage w = None /\ cachedLiveVaultsTimestamp w = 0.

(** The reply a live-vaults command builds from the store and the chain
    as they are: the list of [getLiveVaults] formatted, or the notice that
    there is none. *)
Definition freshReply (cfg : Config) (rpc : Chain) (format : list LiveVault -> string)
    (w : World) : string :=
  match sortByUtilization
          (collectLiveVaults cfg rpc
             (StateManager.getAllVaults cfg (Date_now rpc) (stateFile w))) with
  | [] => "❌ No live vaults found."%string
  | live => format live
  end.

(** The order of the live-vaults list. *)
Definition byUtilization (a b : LiveVault) : Prop :=
  (utilization a <= utilization b)%Q.

End Spec.
Import Spec.

(* ------------------------------------------------------------------ *)
(** ** Vocabulary of the further properties *)

Module Invariants.
Import StateManager VaultMonitor.

(** Every record the store holds, read at any time, satisfies [P] with the
    key it is stored under. *)
Definition storeInv (cfg : Config) (P : string -> VaultState -> Prop) (file : File) : Prop :=
  forall now,
    Forall (fun kv => P (fst kv) (snd kv)) (vaults (loadState cfg now file)).

(** A step that keeps such an invariant of the store. *)
Definition keeps (cfg : Config) (P : string -> VaultState -> Prop) (w w' : World) : Prop :=
  storeInv cfg P (stateFile w) -> storeInv cfg P (stateFile w').

(** A step that leaves one component of the world as it is. *)
Definition leaves {X : Type} (part : World -> X) (w w' : World) : Prop :=
  part w' = part w.

(** The record is stored under its lower-cased address. *)
Definition keyedByAddress (key : string) (v : VaultState) : Prop :=
  key = toLowerCase (address v).

(** The fill flag of the record is the filled predicate on its own supply
    and cap. *)
Definition flagFromFields (cfg : Config) (key : string) (v : VaultState) : Prop :=
  isVaultFilled cfg (lastKnownTotalSupply v) (totalSupplyCap v) = Ok (isFilled v).

(** A record as [loadState] builds it with a non-zero clock. *)
Definition normal (v : VaultState) : Prop :=
  createdAt v <> 0 /\ depositTokenSymbol v <> Some EmptyString
  /\ depositTokenDecimals v = None /\ selfAcc v = None.

(** A step that leaves the stored block height alone. *)
Definition sameBlock (cfg : Config) (w w' : World) : Prop :=
  forall now, persistedBlock cfg now w' = persistedBlock cfg now w.

(** A step that sends only notifications that satisfy [ok]. *)
Definition sends (ok : Notification -> Prop) (w w' : World) : Prop :=
  exists sent, notifications w' = notifications w ++ sent /\ Forall ok sent.

(** The vault a notification is about. *)
Definition vaultOfNotification (n : Notification) : VaultState :=
  match n with
  | NewVault v _ => v
  | CapRaised v _ _ _ => v
  | VaultFilled v => v
  | VaultAvailable v _ => v
  end.

(** By what the chain answers, the vault of the notification has not
    reached its maturity. *)
Definition notExpiredAt (rpc : Chain) (n : Notification) : Prop :=
  exists latestFTime,
    market_getLatestFTime rpc (marketAddress (vaultOfNotification n)) = Some latestFTime
    /\ latestFTime < maturity (vaultOfNotification n).

(** A cap-raised notification that reports [cap] as the old cap. *)
Definition reportsOldCap (cap : Z) (n : Notification) : Prop :=
  match n with
  | CapRaised _ oldCap _ _ => oldCap = cap
  | _ => True
  end.

End Invariants.
Import Invariants.

(* ------------------------------------------------------------------ *)
(** ** Decimal numerals, digit by digit *)

Module Digits.

(** The value of a numeral read from its first digit on, after [acc]. *)
Fixpoint digitsValue (d : uint) (acc : Z) : Z :=
  match d with
  | Nil => acc
  | D0 l => digitsValue l (10 * acc)
  | D1 l => digitsValue l (10 * acc + 1)
  | D2 l => digitsValue l (10 * acc + 2)
  | D3 l => digitsValue l (10 * acc + 3)
  | D4 l => digitsValue l (10 * acc + 4)
  | D5 l => digitsValue l (10 * acc + 5)
  | D6 l => digitsValue l (10 * acc + 6)
  | D7 l => digitsValue l (10 * acc + 7)
  | D8 l => digitsValue l (10 * acc + 8)
  | D9 l => digitsValue l (10 * acc + 9)
  end.

(** The first [n] digits of a numeral. *)
Fixpoint utake (n : nat) (d : uint) : uint :=
  match n with
  | O => Nil
  | S k =>
      match d with
      | Nil => Nil
      | D0 l => D0 (utake k l)
      | D1 l => D1 (utake k l)
      | D2 l => D2 (utake k l)
      | D3 l => D3 (utake k l)
      | D4 l => D4 (utake k l)
      | D5 l => D5 (utake k l)
      | D6 l => D6 (utake k l)
      | D7 l => D7 (utake k l)
      | D8 l => D8 (utake k l)
      | D9 l => D9 (utake k l)
      end
  end.

End Digits.

(* ------------------------------------------------------------------ *)
(** ** Concrete configurations, chains and worlds used below *)

Module Examples.
#[local] Open Scope string_scope.

(** The default configuration: threshold 98, no start block. *)
Definition cfg98 : Config :=
  {| FILLED_THRESHOLD_PERCENT := 98%float; START_BLOCK := None |}.

(** The threshold 1.15 read from the environment. *)
Definition cfg115 : Config :=
  {| FILLED_THRESHOLD_PERCENT := parseFloat_decimal 115 2; START_BLOCK := None |}.

(** The threshold 0.03 read from the environment. *)
Definition cfg003 : Config :=
  {| FILLED_THRESHOLD_PERCENT := parseFloat_decimal 3 2; START_BLOCK := None |}.

Definition someTime : Z := 1767225600000.

Definition vaultA : VaultState :=
  {| address := "0xAa01";
     name := "Boros AMM - A";
     symbol := "A";
     totalSupplyCap := 1000;
     lastKnownTotalSupply := 500;
     isFilled := false;
     maturity := 2000;
     marketAddress := "0xm1";
     lastCheckedBlock := 90;
     createdAt := someTime;
     depositTokenSymbol := Some "WBTC";
     depositTokenDecimals := None;
     selfAcc := None |}.

(** [vaultA] with [createdAt = 0]. *)
Definition vaultCreatedAtZero : VaultState :=
  {| address := "0xAa01";
     name := "Boros AMM - A";
     symbol := "A";
     totalSupplyCap := 1000;
     lastKnownTotalSupply := 500;
     isFilled := false;
     maturity := 2000;
     marketAddress := "0xm1";
     lastCheckedBlock := 90;
     createdAt := 0;
     depositTokenSymbol := Some "WBTC";
     depositTokenDecimals := None;
     selfAcc := None |}.

(** [vaultA] with an empty [depositTokenSymbol]. *)
Definition vaultEmptySymbol : VaultState :=
  {| address := "0xAa01";
     name := "Boros AMM - A";
     symbol := "A";
     totalSupplyCap := 1000;
     lastKnownTotalSupply := 500;
     isFilled := false;
     maturity := 2000;
     marketAddress := "0xm1";
     lastCheckedBlock := 90;
     createdAt := someTime;
     depositTokenSymbol := Some "";
     depositTokenDecimals := None;
     selfAcc := None |}.

(** [vaultA] with the two members the pluggable-sink tracker fills. *)
Definition vaultWithSelfAcc : VaultState :=
  {| address := "0xAa01";
     name := "Boros AMM - A";
     symbol := "A";
     totalSupplyCap := 1000;
     lastKnownTotalSupply := 500;
     isFilled := false;
     maturity := 2000;
     marketAddress := "0xm1";
     lastCheckedBlock := 90;
     createdAt := someTime;
     depositTokenSymbol := Some "WBTC";
     depositTokenDecimals := Some 8;
     selfAcc := Some "0xacc1" |}.

(** A patch of the cap and of the two members the state file does not
    hold. *)
Definition patchCapAndAccount : VaultPatch :=
  {| p_address := None;
     p_name := None;
     p_symbol := None;
     p_totalSupplyCap := Some 2000;
     p_lastKnownTotalSupply := None;
     p_isFilled := None;
     p_maturity := None;
     p_marketAddress := None;
     p_lastCheckedBlock := None;
     p_createdAt := None;
     p_depositTokenSymbol := None;
     p_depositTokenDecimals := Some (Some 6);
     p_selfAcc := Some (Some "0xacc2") |}.

(** A state file at height 5000 whose only vault has a hexadecimal cap and
    a supply between blanks. *)
Definition fileHexCap : File :=
  Json {| j_lastProcessedBlock := Some 5000;
          j_vaults :=
            Some [("0xaa01",
                   {| j_address := "0xAa01";
                      j_name := "Boros AMM - A";
                      j_symbol := "A";
                      j_totalSupplyCap := Some "0x10";
                      j_lastKnownTotalSupply := Some " 12 ";
                      j_isFilled := Some false;
                      j_maturity := Some "2000";
                      j_marketAddress := Some "0xm1";
                      j_lastCheckedBlock := Some 90;
                      j_createdAt := Some someTime;
                      j_depositTokenSymbol := None |})] |}.

(** A state file at height 5000 whose only vault has a cap that is no
    numeral. *)
Definition fileBadCap : File :=
  Json {| j_lastProcessedBlock := Some 5000;
          j_vaults :=
            Some [("0xaa01",
                   {| j_address := "0xAa01";
                      j_name := "Boros AMM - A";
                      j_symbol := "A";
                      j_totalSupplyCap := Some "12abc";
                      j_lastKnownTotalSupply := Some "500";
                      j_isFilled := Some false;
                      j_maturity := Some "2000";
                      j_marketAddress := Some "0xm1";
                      j_lastCheckedBlock := Some 90;
                      j_createdAt := Some someTime;
                      j_depositTokenSymbol := None |})] |}.

Definition stateOf (v : VaultState) : MonitorState :=
  {| lastProcessedBlock := 100; vaults := [("0xaa01", v)] |}.

(** A chain in which every vault is called "Boros AMM - A", matures at
    2000 on market 0xm1 and has no resolvable deposit token; the rest is
    given. *)
Definition chainOf (height : option Z)
    (created : Z -> Z -> option (list (LogEntry string)))
    (capUpdated : string -> Z -> Z -> option (list (LogEntry (list Z))))
    (cap supply : string -> option Z) (latestFTime : string -> option Z) : Chain :=
  {| getBlockNumber := height;
     AMMCreated_logs := created;
     TotalSupplyCapUpdated_logs := capUpdated;
     amm_name := fun _ => Some "Boros AMM - A";
     amm_symbol := fun _ => Some "A";
     amm_totalSupplyCap := cap;
     amm_totalSupply := supply;
     amm_MATURITY := fun _ => Some 2000;
     amm_MARKET := fun _ => Some "0xm1";
     market_getLatestFTime := latestFTime;
     market_descriptor_tokenId := fun _ => None;
     hub_tokenIdToAddress := fun _ => None;
     erc20_symbol := fun _ => None;
     Date_now := someTime;
     disk_write := Written;
     sendMessage_ok := fun _ => true |}.

Definition worldOf (file : File) : World :=
  {| stateFile := file;
     cachedLiveVaultsMessage := None;
     cachedLiveVaultsTimestamp := 0;
     lastStatusCheckBlock := 100;
     notifications := [];
     logQueries := [];
     replies := [] |}.

(** A store with no vault, processed up to block 100. *)
Definition w100 : World :=
  worldOf (Json {| j_lastProcessedBlock := Some 100; j_vaults := Some [] |}).

(** The factory's log: one vault created in block 105. *)
Definition createdAt105 (fromBlock toBlock : Z) : list (LogEntry string) :=
  if ((fromBlock <=? 105)%Z && (105 <=? toBlock)%Z)%bool then [EventLog 105 "0xAa01"] else [].

(** Height 110; the creation-log query is rejected. *)
Definition rpcFailing : Chain :=
  chainOf (Some 110) (fun _ _ => None) (fun _ _ _ => Some [])
    (fun _ => Some 1000) (fun _ => Some 500) (fun _ => Some 1000).

(** Height 120; every read answers. *)
Definition rpcRecovered : Chain :=
  chainOf (Some 120) (fun f t => Some (createdAt105 f t)) (fun _ _ _ => Some [])
    (fun _ => Some 1000) (fun _ => Some 500) (fun _ => Some 1000).

(** A vault past its maturity (900) once the market time is 1000. *)
Definition vaultExpired : VaultState :=
  {| address := "0xEe01";
     name := "Boros AMM - E";
     symbol := "E";
     totalSupplyCap := 1000;
     lastKnownTotalSupply := 100;
     isFilled := false;
     maturity := 900;
     marketAddress := "0xm0";
     lastCheckedBlock := 80;
     createdAt := someTime;
     depositTokenSymbol := Some "WETH";
     depositTokenDecimals := None;
     selfAcc := None |}.

(** A live vault recorded as filled: 990 of 1000. *)
Definition vaultFull : VaultState :=
  {| address := "0xBb02";
     name := "Boros AMM - B";
     symbol := "B";
     totalSupplyCap := 1000;
     lastKnownTotalSupply := 990;
     isFilled := true;
     maturity := 2000;
     marketAddress := "0xm1";
     lastCheckedBlock := 90;
     createdAt := someTime;
     depositTokenSymbol := Some "WBTC";
     depositTokenDecimals := None;
     selfAcc := None |}.

Definition fileOf (vs : list VaultState) : File :=
  StateManager.saveState Written NoFile
    {| lastProcessedBlock := 100;
       vaults := map (fun v => (toLowerCase (address v), v)) vs |}.

(** Height 110, market time 1000; the cap of 0xBb02 was raised to 2000 in
    block 105 while its supply stayed 990. *)
Definition rpcCapRaised : Chain :=
  chainOf (Some 110) (fun _ _ => Some [])
    (fun amm _ _ => if String.eqb amm "0xBb02" then Some [EventLog 105 [2000%Z]] else Some [])
    (fun _ => Some 2000%Z) (fun _ => Some 990%Z) (fun _ => Some 1000%Z).

(** Height 110, market time 1000; vault 0xAa01 still has cap 1000 and its
    supply is now 600. *)
Definition rpcSupplyMoved : Chain :=
  chainOf (Some 110) (fun _ _ => Some []) (fun _ _ _ => Some [])
    (fun _ => Some 1000%Z) (fun _ => Some 600%Z) (fun _ => Some 1000%Z).

(** A world whose live-vaults reply was cached one second ago. *)
Definition worldCached (file : File) : World :=
  {| stateFile := file;
     cachedLiveVaultsMessage := Some "cached list";
     cachedLiveVaultsTimestamp := (someTime - 1000)%Z;
     lastStatusCheckBlock := 100;
     notifications := [];
     logQueries := [];
     replies := [] |}.

(** Vault 0xAa01 stored with supply 500, and a reply cached a second ago. *)
Definition wCachedA : World := worldCached (fileOf [vaultA]).

(** Vault 0xBb02 stored as filled at cap 1000, and a reply cached a second
    ago. *)
Definition wCachedFull : World := worldCached (fileOf [vaultFull]).

(** Height 110, market time 1000; every vault holds 1 of a cap of 3. *)
Definition rpcOneThird : Chain :=
  chainOf (Some 110) (fun _ _ => Some []) (fun _ _ _ => Some [])
    (fun _ => Some 3%Z) (fun _ => Some 1%Z) (fun _ => Some 1000%Z).

End Examples.

(* ------------------------------------------------------------------ *)
(** ** More concrete chains and worlds *)

Module MoreExamples.
Import Examples.
#[local] Open Scope string_scope.

(** [rpc] with a disk that refuses every write. *)
Definition readOnlyDisk (rpc : Chain) : Chain :=
  {| getBlockNumber := getBlockNumber rpc;
     AMMCreated_logs := AMMCreated_logs rpc;
     TotalSupplyCapUpdated_logs := TotalSupplyCapUpdated_logs rpc;
     amm_name := amm_name rpc;
     amm_symbol := amm_symbol rpc;
     amm_totalSupplyCap := amm_totalSupplyCap rpc;
     amm_totalSupply := amm_totalSupply rpc;
     amm_MATURITY := amm_MATURITY rpc;
     amm_MARKET := amm_MARKET rpc;
     market_getLatestFTime := market_getLatestFTime rpc;
     market_descriptor_tokenId := market_descriptor_tokenId rpc;
     hub_tokenIdToAddress := hub_tokenIdToAddress rpc;
     erc20_symbol := erc20_symbol rpc;
     Date_now := Date_now rpc;
     disk_write := Refused;
     sendMessage_ok := sendMessage_ok rpc |}.

(** [rpc] with a disk on which every write fails after the file was
    truncated. *)
Definition tornDisk (rpc : Chain) : Chain :=
  {| getBlockNumber := getBlockNumber rpc;
     AMMCreated_logs := AMMCreated_logs rpc;
     TotalSupplyCapUpdated_logs := TotalSupplyCapUpdated_logs rpc;
     amm_name := amm_name rpc;
     amm_symbol := amm_symbol rpc;
     amm_totalSupplyCap := amm_totalSupplyCap rpc;
     amm_totalSupply := amm_totalSupply rpc;
     amm_MATURITY := amm_MATURITY rpc;
     amm_MARKET := amm_MARKET rpc;
     market_getLatestFTime := market_getLatestFTime rpc;
     market_descriptor_tokenId := market_descriptor_tokenId rpc;
     hub_tokenIdToAddress := hub_tokenIdToAddress rpc;
     erc20_symbol := erc20_symbol rpc;
     Date_now := Date_now rpc;
     disk_write := Torn;
     sendMessage_ok := sendMessage_ok rpc |}.

(** Two polls: the first with the creation-log query rejected and every
    write refused, the second with everything answered and written. *)
Definition refusedThenRecovered : list Chain := [readOnlyDisk rpcFailing; rpcRecovered].

(** Height 3000; no event in any range, every read answers. *)
Definition rpcAt3000 : Chain :=
  chainOf (Some 3000%Z) (fun _ _ => Some []) (fun _ _ _ => Some [])
    (fun _ => Some 1000%Z) (fun _ => Some 500%Z) (fun _ => Some 1000%Z).

(** Height 100, market time 1000; every vault holds 990 of a cap of 1000. *)
Definition rpcBeforeRaise : Chain :=
  chainOf (Some 100%Z) (fun _ _ => Some []) (fun _ _ _ => Some [])
    (fun _ => Some 1000%Z) (fun _ => Some 990%Z) (fun _ => Some 1000%Z).

(** No state file yet. *)
Definition wFresh : World := worldOf NoFile.

(** Height 120, one vault created in block 105, but the cap read is
    rejected. *)
Definition rpcNoCap : Chain :=
  chainOf (Some 120) (fun f t => Some (createdAt105 f t)) (fun _ _ _ => Some [])
    (fun _ => None) (fun _ => Some 500%Z) (fun _ => Some 1000%Z).

(** The record new-vault detection builds for 0xAa01 against
    [rpcRecovered]. *)
Definition vaultDetected : VaultState :=
  {| address := "0xAa01";
     name := "Boros AMM - A";
     symbol := "A";
     totalSupplyCap := 1000;
     lastKnownTotalSupply := 500;
     isFilled := false;
     maturity := 2000;
     marketAddress := "0xm1";
     lastCheckedBlock := 105;
     createdAt := someTime;
     depositTokenSymbol := None;
     depositTokenDecimals := None;
     selfAcc := None |}.

End MoreExamples.

(* ------------------------------------------------------------------ *)
(** ** Facts about the JavaScript primitives *)

Module JSFacts.

Lemma dropOneOf_decimal (c : ascii) (r : string) :
  isDecimalChar c = true -> dropOneOf StrWhiteSpaceChar (String c r) = None.
Proof.
  destruct c as [[] [] [] [] [] [] [] []]; intros H; try discriminate H; reflexivity.
Qed.

Lemma trimStart_decimal (c : ascii) (r : string) :
  isDecimalChar c = true -> trimStart (String c r) = String c r.
Proof.
  intros H. unfold trimStart. cbn [String.length trimStart_n].
  now rewrite dropOneOf_decimal.
Qed.

Lemma trimEnd_decimal (s : string) : allDecimal s = true -> trimEnd s = s.
Proof.
  induction s as [|c r IH]; [reflexivity|]. cbn [allDecimal]. intros H.
  apply andb_prop in H as [Hc Hr]. cbn [trimEnd].
  rewrite trimStart_decimal by exact Hc. now rewrite IH.
Qed.

Lemma trim_decimal (s : string) : allDecimal s = true -> trim s = s.
Proof.
  intros H. unfold trim. destruct s as [|c r]; [reflexivity|].
  cbn [allDecimal] in H. pose proof H as H'. apply andb_prop in H' as [Hc Hr].
  rewrite trimStart_decimal by exact Hc. now apply trimEnd_decimal.
Qed.

Lemma nonDecimalPrefix_decimal (s : string) :
  allDecimal s = true -> nonDecimalPrefix s = None.
Proof.
  destruct s as [|c0 [|c1 r]]; try reflexivity. cbn [allDecimal]. intros H.
  apply andb_prop in H as [_ H]. apply andb_prop in H as [H1 _].
  unfold nonDecimalPrefix. destruct (Ascii.eqb c0 "0"); [|reflexivity].
  destruct c1 as [[] [] [] [] [] [] [] []]; try discriminate H1; reflexivity.
Qed.

(** On text made of decimal digits and minus signs, [BigInt] reads a signed
    decimal numeral. *)
Lemma BigInt_of_decimal (s : string) :
  allDecimal s = true ->
  BigInt_of_string s
  = match s with
    | EmptyString => Some 0
    | _ => option_map Z.of_int (NilZero.int_of_string s)
    end.
Proof.
  intros H. unfold BigInt_of_string. rewrite trim_decimal by exact H.
  destruct s as [|c r]; [reflexivity|].
  rewrite nonDecimalPrefix_decimal by exact H.
  cbn [allDecimal] in H. apply andb_prop in H as [Hc _].
  destruct c as [[] [] [] [] [] [] [] []]; try discriminate Hc; reflexivity.
Qed.

Lemma allDecimal_string_of_uint (d : uint) : allDecimal (NilEmpty.string_of_uint d) = true.
Proof. induction d; simpl; auto. Qed.

Lemma allDecimal_toString (n : Z) : allDecimal (BigInt_toString n) = true.
Proof.
  unfold BigInt_toString.
  assert (H : forall d, allDecimal (NilZero.string_of_uint d) = true).
  { intros d. destruct d; try reflexivity; apply (allDecimal_string_of_uint (_ d)). }
  destruct (Z.to_int n) as [d|d]; cbn [NilZero.string_of_int]; [apply H|].
  cbn [allDecimal]. now rewrite H.
Qed.

Lemma BigInt_toString_nonempty (n : Z) : BigInt_toString n <> EmptyString.
Proof.
  unfold BigInt_toString.
  destruct n as [|p|p]; simpl.
  - discriminate.
  - destruct (Pos.to_uint p); discriminate.
  - discriminate.
Qed.

(** No precision is lost across the decimal-string boundary. *)
Lemma BigInt_of_toString (n : Z) : BigInt_of_string (BigInt_toString n) = Some n.
Proof.
  rewrite BigInt_of_decimal by apply allDecimal_toString.
  destruct (BigInt_toString n) eqn:E.
  - now apply BigInt_toString_nonempty in E.
  - rewrite <- E. unfold BigInt_toString.
    rewrite NilZero.isi.
    + simpl. now rewrite DecimalZ.of_to.
    + destruct n; simpl; try discriminate.
      intros [= H]. now apply (DecimalPos.Unsigned.to_uint_nonnil p).
    + destruct n; simpl; try discriminate.
      intros [= H]. now apply (DecimalPos.Unsigned.to_uint_nonnil p).
Qed.

Lemma or_str_toString (n : Z) (d : string) :
  or_str (Some (BigInt_toString n)) d = BigInt_toString n.
Proof.
  unfold or_str. destruct (BigInt_toString n) eqn:E; [|reflexivity].
  now apply BigInt_toString_nonempty in E.
Qed.

Lemma or_str_empty_default (s : string) : or_str (Some s) EmptyString = s.
Proof. now destruct s. Qed.

Lemma or_num_zero_default (n : Z) : or_num (Some n) 0 = n.
Proof. unfold or_num. destruct (Z.eqb_spec n 0); congruence. Qed.

Lemma or_num_nonzero (n d : Z) : n <> 0 -> or_num (Some n) d = n.
Proof. unfold or_num. destruct (Z.eqb_spec n 0); congruence. Qed.

Lemma or_bool_false_default (b : bool) : or_bool (Some b) false = b.
Proof. now destruct b. Qed.

Lemma or_undefined_nonempty (x : option string) :
  x <> Some EmptyString -> or_undefined x = x.
Proof. destruct x as [[|c s]|]; simpl; congruence. Qed.

Section ObjFacts.
Context {V : Type}.
Implicit Types (o : list (string * V)) (k : string) (v : V).

Lemma obj_set_fresh k v o : ~ In k (map fst o) -> obj_set k v o = o ++ [(k, v)].
Proof.
  induction o as [|[k' v'] o IH]; simpl; intros Hk; [reflexivity|].
  destruct (String.eqb_spec k k') as [->|Hne].
  - exfalso. apply Hk. now left.
  - f_equal. apply IH. intros Hin. apply Hk. now right.
Qed.

Lemma obj_set_keys k v o : In k (map fst o) -> map fst (obj_set k v o) = map fst o.
Proof.
  induction o as [|[k' v'] o IH]; simpl; intros Hk; [contradiction|].
  destruct (String.eqb_spec k k') as [->|Hne]; simpl; [reflexivity|].
  f_equal. apply IH. destruct Hk as [Hk|Hk]; [congruence|exact Hk].
Qed.

Lemma obj_get_In k v o : obj_get k o = Some v -> In (k, v) o.
Proof.
  induction o as [|[k' v'] o IH]; simpl; [discriminate|].
  destruct (String.eqb_spec k k') as [->|Hne].
  - intros [= ->]. now left.
  - intros H. right. now apply IH.
Qed.

Lemma obj_get_keys k v o : obj_get k o = Some v -> In k (map fst o).
Proof.
  intros H. apply obj_get_In in H. now apply (in_map fst) in H.
Qed.

Lemma obj_set_Forall (P : string * V -> Prop) k v o :
  (forall k', P (k', v)) -> Forall P o -> Forall P (obj_set k v o).
Proof.
  intros Hv. induction 1 as [|[k' v'] o Hx Ho IH]; simpl.
  - constructor; [apply Hv|constructor].
  - destruct (String.eqb k k'); constructor; auto.
Qed.

Lemma obj_get_set_same k v o : obj_get k (obj_set k v o) = Some v.
Proof.
  induction o as [|[k' v'] o IH]; simpl.
  - now rewrite String.eqb_refl.
  - destruct (String.eqb_spec k k') as [->|Hne]; simpl.
    + now rewrite String.eqb_refl.
    + destruct (String.eqb_spec k k'); [contradiction|exact IH].
Qed.
End ObjFacts.

End JSFacts.
Import JSFacts.

(* ------------------------------------------------------------------ *)
(** ** The snapshot store *)

Module StateManagerFacts.
Import StateManager.

Lemma loadVault_saveVault (now : Z) (v : VaultState) :
  loadVault now (saveVault v) = Some (reloaded now v).
Proof.
  unfold loadVault, saveVault, reloaded.
  cbn -[BigInt_toString BigInt_of_string or_str or_num or_bool or_undefined].
  rewrite !or_str_toString, !BigInt_of_toString.
  now rewrite or_bool_false_default, or_str_empty_default, or_num_zero_default.
Qed.

Lemma reloaded_id (now : Z) (v : VaultState) :
  createdAt v <> 0 -> depositTokenSymbol v <> Some EmptyString ->
  depositTokenDecimals v = None -> selfAcc v = None ->
  reloaded now v = v.
Proof.
  intros Hc Hd Hn Hs. destruct v; unfold reloaded; cbn -[or_num or_undefined] in *.
  subst. now rewrite or_num_nonzero, or_undefined_nonempty.
Qed.

Lemma saveVaults_readable (l : list (string * VaultState)) (acc : list (string * JsonVault)) :
  Forall readable acc -> Forall readable (saveVaults l acc).
Proof.
  revert acc. induction l as [|[k v] l IH]; simpl; intros acc Hacc; [exact Hacc|].
  apply IH. apply obj_set_Forall; [|exact Hacc].
  intros k'. now exists v.
Qed.

Lemma loadVaults_readable (now : Z) (entries : list (string * JsonVault))
    (acc : list (string * VaultState)) :
  Forall readable entries -> exists vs, loadVaults now entries acc = Some vs.
Proof.
  intros H. revert acc. induction H as [|[k j] entries [v Hv] _ IH]; simpl; intros acc.
  - now exists acc.
  - simpl in Hv. subst j. rewrite loadVault_saveVault. apply IH.
Qed.

(** The block height read back from a written file is the one written,
    whatever the vaults are. *)
Lemma loadState_serializable_block (cfg : Config) (now : Z) (s : MonitorState) :
  lastProcessedBlock (loadState cfg now (Json (serializable s))) = lastProcessedBlock s.
Proof.
  unfold loadState, serializable; simpl.
  destruct (loadVaults_readable now (saveVaults (vaults s) []) [])
    as [vs Hvs]; [apply saveVaults_readable; constructor|].
  rewrite Hvs. cbn [lastProcessedBlock j_lastProcessedBlock]. apply or_num_zero_default.
Qed.

Lemma saveVaults_fresh (l : list (string * VaultState)) (acc : list (string * JsonVault)) :
  NoDup (map fst acc ++ map fst l) ->
  saveVaults l acc = acc ++ map (fun kv => (fst kv, saveVault (snd kv))) l.
Proof.
  revert acc. induction l as [|[k v] l IH]; simpl; intros acc Hnd.
  - now rewrite app_nil_r.
  - rewrite obj_set_fresh.
    + rewrite IH.
      * now rewrite <- app_assoc.
      * rewrite map_app, <- app_assoc. exact Hnd.
    + apply NoDup_remove_2 in Hnd. intros Hin. apply Hnd, in_or_app. now left.
Qed.

Lemma loadVaults_saved (now : Z) (l : list (string * VaultState))
    (acc : list (string * VaultState)) :
  NoDup (map fst acc ++ map fst l) ->
  loadVaults now (map (fun kv => (fst kv, saveVault (snd kv))) l) acc
  = Some (acc ++ map (fun kv => (fst kv, reloaded now (snd kv))) l).
Proof.
  revert acc. induction l as [|[k v] l IH]; simpl; intros acc Hnd.
  - now rewrite app_nil_r.
  - rewrite loadVault_saveVault, obj_set_fresh.
    + rewrite IH.
      * now rewrite <- app_assoc.
      * rewrite map_app, <- app_assoc. exact Hnd.
    + apply NoDup_remove_2 in Hnd. intros Hin. apply Hnd, in_or_app. now left.
Qed.

(** What [loadState] returns on a file that [saveState] wrote. *)
Lemma loadState_saveState (cfg : Config) (now : Z) (file : File) (s : MonitorState) :
  NoDup (map fst (vaults s)) ->
  loadState cfg now (saveState Written file s)
  = {| lastProcessedBlock := lastProcessedBlock s;
       vaults := map (fun kv => (fst kv, reloaded now (snd kv))) (vaults s) |}.
Proof.
  intros Hnd. unfold saveState, loadState, serializable.
  cbn [j_vaults j_lastProcessedBlock].
  rewrite saveVaults_fresh by exact Hnd. rewrite app_nil_l.
  rewrite loadVaults_saved by exact Hnd. rewrite app_nil_l.
  now rewrite or_num_zero_default.
Qed.

Lemma loadVaults_raises (now : Z) (entries : list (string * JsonVault))
    (acc : list (string * VaultState)) (addr : string) (v : JsonVault) :
  In (addr, v) entries -> bigIntThrows v -> loadVaults now entries acc = None.
Proof.
  intros Hin Hthrow. revert acc.
  induction entries as [|[k j] entries IH]; simpl; intros acc; [contradiction|].
  destruct Hin as [[= -> ->]|Hin].
  - assert (loadVault now v = None) as ->; [|reflexivity].
    unfold loadVault.
    destruct Hthrow as [H|[(s & H1 & H2)|[H|H]]].
    + now rewrite H.
    + now rewrite H1, H2.
    + destruct (j_totalSupplyCap v); [|reflexivity].
      rewrite H. now destruct (BigInt_of_string s).
    + destruct (j_totalSupplyCap v); [|reflexivity].
      rewrite H. destruct (BigInt_of_string s); [|reflexivity].
      now destruct (BigInt_of_string (or_str (j_lastKnownTotalSupply v) "0")).
  - destruct (loadVault now j); [apply IH; exact Hin|reflexivity].
Qed.

(** Whether the loop of [loadState] throws does not depend on the clock. *)
Lemma loadVaults_clock (now now' : Z) (entries : list (string * JsonVault))
    (acc acc' : list (string * VaultState)) :
  loadVaults now entries acc = None <-> loadVaults now' entries acc' = None.
Proof.
  revert acc acc'. induction entries as [|[k j] entries IH]; simpl; intros acc acc'.
  - split; discriminate.
  - unfold loadVault.
    destruct (j_totalSupplyCap j) as [c|]; [|tauto].
    destruct (BigInt_of_string c); [|tauto].
    destruct (BigInt_of_string (or_str (j_lastKnownTotalSupply j) "0")); [|tauto].
    destruct (BigInt_of_string (or_str (j_maturity j) "0")); [|tauto].
    apply IH.
Qed.

Lemma loadState_block_clock (cfg : Config) (now now' : Z) (file : File) :
  lastProcessedBlock (loadState cfg now file) = lastProcessedBlock (loadState cfg now' file).
Proof.
  destruct file as [| |parsed]; simpl; try reflexivity.
  set (entries := match j_vaults parsed with Some o => o | None => [] end).
  pose proof (loadVaults_clock now now' entries [] []) as H.
  destruct (loadVaults now entries []), (loadVaults now' entries []); simpl;
    try reflexivity.
  - destruct H as [_ H]. discriminate (H eq_refl).
  - destruct H as [H _]. discriminate (H eq_refl).
Qed.

Lemma obj_get_None_iff {V : Type} (k : string) (o : list (string * V)) :
  obj_get k o = None <-> ~ In k (map fst o).
Proof.
  induction o as [|[k' v] o IH]; simpl; [tauto|].
  destruct (String.eqb_spec k k') as [->|Hne].
  - split; [discriminate|intros H; exfalso; apply H; now left].
  - rewrite IH. split; [intros H [E|Hin]; [congruence|tauto]|tauto].
Qed.

Lemma obj_set_has_key {V : Type} (k k' : string) (v : V) (o : list (string * V)) :
  k' = k \/ In k' (map fst o) -> In k' (map fst (obj_set k v o)).
Proof.
  induction o as [|[k0 v0] o IH]; simpl.
  - intros [->|[]]. now left.
  - destruct (String.eqb_spec k k0) as [->|Hne]; simpl.
    + intros [->|[->|H]]; auto.
    + intros [->|[->|H]]; auto.
Qed.

Lemma saveVaults_has_key (k : string) (l : list (string * VaultState))
    (acc : list (string * JsonVault)) :
  In k (map fst l) \/ In k (map fst acc) -> In k (map fst (saveVaults l acc)).
Proof.
  revert acc. induction l as [|[k0 v0] l IH]; simpl; intros acc.
  - now intros [[]|H].
  - intros [[->|H]|H]; apply IH; auto.
    + right. apply obj_set_has_key. now left.
    + right. apply obj_set_has_key. now right.
Qed.

Lemma loadVaults_has_key (now : Z) (k : string) (entries : list (string * JsonVault))
    (acc r : list (string * VaultState)) :
  loadVaults now entries acc = Some r ->
  In k (map fst entries) \/ In k (map fst acc) -> In k (map fst r).
Proof.
  revert acc. induction entries as [|[k0 j0] entries IH]; simpl; intros acc.
  - intros [= <-] [[]|H]. exact H.
  - destruct (loadVault now j0) as [v0|]; [|discriminate].
    intros Hr [[->|H]|H]; apply (IH _ Hr); auto.
    + right. apply obj_set_has_key. now left.
    + right. apply obj_set_has_key. now right.
Qed.

(** A vault added on a writable disk is found again, under any letter case
    of its address. *)
Lemma getVault_addVault (cfg : Config) (now now' : Z) (v : VaultState) (file : File) :
  getVault cfg now' (address v) (addVault cfg now Written v file) <> None.
Proof.
  unfold getVault, addVault, saveState, loadState, serializable.
  cbn [j_vaults j_lastProcessedBlock vaults lastProcessedBlock].
  set (vs := obj_set _ v _).
  destruct (loadVaults_readable now' (saveVaults vs []) [])
    as [r Hr]; [apply saveVaults_readable; constructor|].
  rewrite Hr. cbn [vaults]. rewrite obj_get_None_iff. intros H. apply H.
  apply (loadVaults_has_key now' _ _ _ _ Hr). left.
  apply saveVaults_has_key. left. apply obj_set_has_key. now left.
Qed.

End StateManagerFacts.

(* ------------------------------------------------------------------ *)
(** ** Properties of the snapshot store and of the filled predicate *)

Module StoreProperties.
Import StateManager StateManagerFacts VaultMonitor Examples.

(** [BigInt(Math.floor(x))] is the floor of the number [x] stands for. *)
Lemma BigInt_floor_value (x : float) (q : Q) :
  float_value x = Some q -> BigInt_floor x = Some (Qfloor q).
Proof.
  unfold float_value, BigInt_floor.
  destruct (Prim2SF x) as [s|s| |s m e]; try discriminate.
  - intros [= <-]. reflexivity.
  - intros [= <-]. f_equal. destruct (Z.leb_spec 0 e).
    + now rewrite Qfloor_Z.
    + unfold Qfloor. f_equal. cbn [Qnum Qden]. rewrite Z2Pos.id; [reflexivity|].
      apply Z.pow_pos_nonneg; lia.
Qed.

(** The threshold in basis points is the floor of the binary64 product of
    the threshold and 100. *)
Lemma thresholdBasisPoints_floor (cfg : Config) (p : Q) :
  represents (FILLED_THRESHOLD_PERCENT cfg * 100)%float p ->
  thresholdBasisPoints cfg = Some (Qfloor p).
Proof.
  intros (p0 & Hp & E). unfold thresholdBasisPoints.
  rewrite (BigInt_floor_value _ p0 Hp). f_equal. now apply Qfloor_comp.
Qed.

(** C1, as amended.  Let the configured threshold be the number [q] (the
    decimal of the environment, or the binary64 it is parsed to), let the
    binary64 product of the threshold and 100, which the code computes, be
    the number [p], and let rounding not have moved the floor: [floor p] is
    [floor (q * 100)].  Then, for a non-negative supply [S] and cap [C],
    [isVaultFilled S C] returns, and returns [true] exactly when [C > 0] and
    [floor (S * 10000 / C) >= floor (q * 100)]; with [C = 0] it returns
    [false] for every supply.  With the threshold 98 and the cap 1000, the
    supply 980 is filled and 979 is not. *)
Theorem isVaultFilled_basis_points (cfg : Config) (q p : Q) (S C : Z) :
  configuredAs (FILLED_THRESHOLD_PERCENT cfg) q ->
  represents (FILLED_THRESHOLD_PERCENT cfg * 100)%float p ->
  Qfloor p = exactBasisPoints q ->
  0 <= S ->
  0 <= C ->
  (isVaultFilled cfg S C = Ok true <-> 0 < C /\ exactBasisPoints q <= (S * 10000) / C)
  /\ (isVaultFilled cfg S C = Ok false
      <-> ~ (0 < C /\ exactBasisPoints q <= (S * 10000) / C))
  /\ (forall S', isVaultFilled cfg S' 0 = Ok false)
  /\ (FILLED_THRESHOLD_PERCENT cfg = 98%float ->
      isVaultFilled cfg 980 1000 = Ok true /\ isVaultFilled cfg 979 1000 = Ok false).
Proof.
  intros _ Hp Hfloor HS HC. pose proof (thresholdBasisPoints_floor cfg p Hp) as Ht.
  rewrite Hfloor in Ht.
  set (t := exactBasisPoints q) in *. clearbody t.
  unfold isVaultFilled. rewrite Ht.
  destruct (Z.eqb_spec C 0) as [->|Hne].
  - split; [|split; [|split]].
    + split; [discriminate|lia].
    + split; [lia|reflexivity].
    + reflexivity.
    + intros H. unfold thresholdBasisPoints in Ht. rewrite H in Ht.
      vm_compute in Ht. injection Ht as <-. split; reflexivity.
  - rewrite Z.quot_div_nonneg by lia.
    destruct (Z.leb_spec t (S * 10000 / C)) as [Hle|Hgt].
    + split; [|split; [|split]].
      * split; [lia|reflexivity].
      * split; [discriminate|intros Hn; exfalso; apply Hn; lia].
      * reflexivity.
      * intros H. unfold thresholdBasisPoints in Ht. rewrite H in Ht.
        vm_compute in Ht. injection Ht as <-. split; reflexivity.
    + split; [|split; [|split]].
      * split; [discriminate|lia].
      * split; [lia|reflexivity].
      * reflexivity.
      * intros H. unfold thresholdBasisPoints in Ht. rewrite H in Ht.
        vm_compute in Ht. injection Ht as <-. split; reflexivity.
Qed.

Lemma isVaultFilled_basis_points_witness :
  (isVaultFilled cfg98 980 1000 = Ok true
   <-> 0 < 1000 /\ exactBasisPoints 98 <= (980 * 10000) / 1000)
  /\ (isVaultFilled cfg98 980 1000 = Ok false
      <-> ~ (0 < 1000 /\ exactBasisPoints 98 <= (980 * 10000) / 1000))
  /\ (forall S', isVaultFilled cfg98 S' 0 = Ok false)
  /\ (FILLED_THRESHOLD_PERCENT cfg98 = 98%float ->
      isVaultFilled cfg98 980 1000 = Ok true /\ isVaultFilled cfg98 979 1000 = Ok false).
Proof.
  apply (isVaultFilled_basis_points cfg98 98 9800 980 1000).
  - right. exists 98, 0%nat. split; [lia|]. split; [lia|].
    split; [vm_compute; reflexivity|vm_compute; reflexivity].
  - eexists. split; [vm_compute; reflexivity|vm_compute; reflexivity].
  - vm_compute. reflexivity.
  - lia.
  - lia.
Defined.

(** C1 as stated fails, whichever number the threshold is read as.
    Read as the decimal of the environment: with
    [FILLED_THRESHOLD_PERCENT=1.15], [parseFloat] gives the binary64 nearest
    to 1.15, whose binary64 product with 100 is just below 115, so the code
    compares with 114 where [floor (1.15 * 100)] is 115: a vault holding 114
    of a cap of 10000 (114 basis points) counts as filled.
    Read as the binary64 it is parsed to: with [FILLED_THRESHOLD_PERCENT=0.03]
    the binary64 is a number below 0.03, whose exact product with 100 has
    the floor 2, while its binary64 product with 100 is rounded to 3, which
    the code compares with: a vault holding 2 of a cap of 10000 (2 basis
    points) does not count as filled. *)
Lemma threshold_product_is_rounded :
  FILLED_THRESHOLD_PERCENT cfg115 = parseFloat_decimal 115 2
  /\ configuredAs (FILLED_THRESHOLD_PERCENT cfg115) (115 # 100)
  /\ thresholdBasisPoints cfg115 = Some 114
  /\ exactBasisPoints (115 # 100) = 115
  /\ isVaultFilled cfg115 114 10000 = Ok true
  /\ ~ (0 < 10000 /\ exactBasisPoints (115 # 100) <= (114 * 10000) / 10000)
  /\ FILLED_THRESHOLD_PERCENT cfg003 = parseFloat_decimal 3 2
  /\ thresholdBasisPoints cfg003 = Some 3
  /\ (exists q,
        float_value (FILLED_THRESHOLD_PERCENT cfg003) = Some q
        /\ (q < 3 # 100)%Q
        /\ exactBasisPoints q = 2
        /\ isVaultFilled cfg003 2 10000 = Ok false
        /\ 0 < 10000 /\ exactBasisPoints q <= (2 * 10000) / 10000).
Proof.
  split; [reflexivity|].
  split.
  { right. exists 115, 2%nat. split; [lia|]. split; [lia|].
    split; [vm_compute; reflexivity|reflexivity]. }
  split; [vm_compute; reflexivity|].
  split; [vm_compute; reflexivity|]. split; [vm_compute; reflexivity|].
  split; [intros [_ H]; vm_compute in H; now apply H|].
  split; [reflexivity|]. split; [vm_compute; reflexivity|].
  eexists. split; [vm_compute; reflexivity|].
  split; [vm_compute; reflexivity|]. split; [vm_compute; reflexivity|].
  split; [vm_compute; reflexivity|]. split; [lia|]. vm_compute. discriminate.
Qed.

(** The threshold 99.99 of the environment is compared as 9999 basis
    points, the floor of the decimal's product with 100, although the
    binary64 it is parsed to is a number below 99.99. *)
Lemma threshold_of_two_decimals :
  thresholdBasisPoints
    {| FILLED_THRESHOLD_PERCENT := parseFloat_decimal 9999 2; START_BLOCK := None |}
  = Some (exactBasisPoints (9999 # 100))
  /\ exists q, float_value (parseFloat_decimal 9999 2) = Some q /\ (q < 9999 # 100)%Q.
Proof.
  split; [vm_compute; reflexivity|].
  eexists. split; vm_compute; reflexivity.
Qed.

(** C2, as amended.  For every state whose address keys are distinct and
    whose vaults all have a non-zero [createdAt], a [depositTokenSymbol]
    that is absent or non-empty, and neither [depositTokenDecimals] nor
    [selfAcc], [loadState] after a [saveState] that wrote the file returns
    the state itself: the block height and every vault field, the big
    integers exactly. *)
Theorem loadState_saveState_roundtrip (cfg : Config) (now : Z) (file : File)
    (s : MonitorState) :
  NoDup (map fst (vaults s)) ->
  Forall (fun kv => createdAt (snd kv) <> 0
                    /\ depositTokenSymbol (snd kv) <> Some EmptyString
                    /\ depositTokenDecimals (snd kv) = None
                    /\ selfAcc (snd kv) = None) (vaults s) ->
  loadState cfg now (saveState Written file s) = s.
Proof.
  intros Hnd Hok. rewrite loadState_saveState by exact Hnd.
  destruct s as [b vs]. simpl in *. f_equal.
  clear Hnd. induction Hok as [|[k v] vs (Hc & Hd & Hn & Hs) _ IH]; simpl; [reflexivity|].
  rewrite IH. simpl in Hc, Hd, Hn, Hs. now rewrite reloaded_id.
Qed.

Lemma loadState_saveState_roundtrip_witness :
  loadState cfg98 someTime (saveState Written NoFile (stateOf vaultA)) = stateOf vaultA.
Proof.
  apply (loadState_saveState_roundtrip cfg98 someTime NoFile (stateOf vaultA)).
  - simpl. constructor; [intros []|constructor].
  - constructor; [|constructor]. cbv. repeat split; try discriminate.
Defined.

(** C2 as stated fails: a vault created at 0 is read back with the current
    time as its [createdAt]; an empty [depositTokenSymbol] is read back as
    an absent one; and [selfAcc] and [depositTokenDecimals], which
    [saveState] does not write, are read back as absent. *)
Lemma roundtrip_loses_zero_createdAt_and_empty_symbol :
  loadState cfg98 someTime (saveState Written NoFile (stateOf vaultCreatedAtZero))
    <> stateOf vaultCreatedAtZero
  /\ loadState cfg98 someTime (saveState Written NoFile (stateOf vaultEmptySymbol))
    <> stateOf vaultEmptySymbol
  /\ loadState cfg98 someTime (saveState Written NoFile (stateOf vaultWithSelfAcc))
    <> stateOf vaultWithSelfAcc
  /\ map (fun kv => createdAt (snd kv))
       (vaults (loadState cfg98 someTime
                  (saveState Written NoFile (stateOf vaultCreatedAtZero))))
     = [someTime]
  /\ map (fun kv => depositTokenSymbol (snd kv))
       (vaults (loadState cfg98 someTime
                  (saveState Written NoFile (stateOf vaultEmptySymbol))))
     = [None]
  /\ map (fun kv => (depositTokenDecimals (snd kv), selfAcc (snd kv)))
       (vaults (loadState cfg98 someTime
                  (saveState Written NoFile (stateOf vaultWithSelfAcc))))
     = [(None, None)].
Proof.
  repeat split; try (vm_compute; reflexivity); vm_compute; discriminate.
Qed.

(** C10. When the state file is absent, or reading or parsing it raises an
    error, [loadState] returns the default state: no vaults, and the
    configured [START_BLOCK], or 0 when it is unset, as the block height;
    saving what was loaded then overwrites the file with that default. *)
Theorem loadState_falls_back_to_default (cfg : Config) (now : Z) (file : File) :
  file = NoFile \/ loadRaises file ->
  let start := match START_BLOCK cfg with Some b => b | None => 0 end in
  loadState cfg now file = {| lastProcessedBlock := start; vaults := [] |}
  /\ saveState Written file (loadState cfg now file)
     = Json {| j_lastProcessedBlock := Some start; j_vaults := Some [] |}.
Proof.
  intros H start.
  assert (or_num (START_BLOCK cfg) 0 = start) as Hstart.
  { unfold start. destruct (START_BLOCK cfg); [apply or_num_zero_default|reflexivity]. }
  assert (loadState cfg now file = defaultState cfg) as Hload.
  { destruct H as [->|H]; [reflexivity|].
    destruct H as [|parsed entries addr v Hv Hin Hthrow]; [reflexivity|].
    unfold loadState. rewrite Hv.
    now rewrite (loadVaults_raises now entries [] addr v Hin Hthrow). }
  rewrite Hload. unfold defaultState. rewrite Hstart. split; reflexivity.
Qed.

Lemma loadState_falls_back_to_default_witness :
  loadState cfg98 someTime fileBadCap = {| lastProcessedBlock := 0; vaults := [] |}
  /\ saveState Written fileBadCap (loadState cfg98 someTime fileBadCap)
     = Json {| j_lastProcessedBlock := Some 0; j_vaults := Some [] |}.
Proof.
  apply (loadState_falls_back_to_default cfg98 someTime fileBadCap).
  right. eapply raises_in_vault.
  - reflexivity.
  - left. reflexivity.
  - right. left. eexists. split; [reflexivity|vm_compute; reflexivity].
Defined.

(** A file whose numerals [BigInt] reads is loaded, not replaced: a
    hexadecimal cap and a supply between blanks. *)
Lemma prefixed_and_padded_numerals_load :
  ~ loadRaises fileHexCap
  /\ lastProcessedBlock (loadState cfg98 someTime fileHexCap) = 5000
  /\ map (fun kv => (totalSupplyCap (snd kv), lastKnownTotalSupply (snd kv)))
       (vaults (loadState cfg98 someTime fileHexCap))
     = [(16, 12)].
Proof.
  split; [|split; vm_compute; reflexivity].
  intros H. inversion H as [|parsed entries addr v Hv Hin Hthrow Hfile].
  injection Hv as <-. destruct Hin as [[= <- <-]|[]].
  destruct Hthrow as [Ht|[(str & Hs & Ht)|[Ht|Ht]]]; try discriminate.
  injection Hs as <-. discriminate.
Qed.

End StoreProperties.

(* ------------------------------------------------------------------ *)
(** ** Reasoning about tracker computations *)

Module TrackerFacts.
Import StateManagerFacts VaultMonitor.

Section Combinators.
Context (R : World -> World -> Prop) `{!PreOrder R}.

Lemma stable_ret {A : Type} (a : A) : stable R (ret a).
Proof. intros w. reflexivity. Qed.

Lemma stable_call {A : Type} (r : option A) : stable R (call r).
Proof. intros w. unfold call. destruct r; reflexivity. Qed.

Lemma stable_lift {A : Type} (r : outcome A) : stable R (lift r).
Proof. intros w. reflexivity. Qed.

Lemma stable_gets {A : Type} (f : World -> A) : stable R (gets f).
Proof. intros w. reflexivity. Qed.

Lemma stable_modify (f : World -> World) : (forall w, R w (f w)) -> stable R (modify f).
Proof. intros H w. apply H. Qed.

Lemma stable_bind {A B : Type} (m : M A) (k : A -> M B) :
  stable R m -> (forall a, stable R (k a)) -> stable R (bind m k).
Proof.
  intros Hm Hk w. unfold bind. specialize (Hm w).
  destruct (m w) as [[a|] w1]; simpl in *; [|exact Hm].
  etransitivity; [exact Hm|apply Hk].
Qed.

Lemma stable_try_catch (m : M unit) : stable R m -> stable R (try_catch m).
Proof.
  intros Hm w. unfold try_catch. specialize (Hm w).
  now destruct (m w) as [[a|] w1].
Qed.

Lemma stable_forEach {A : Type} (l : list A) (body : A -> M unit) :
  (forall x, stable R (body x)) -> stable R (forEach l body).
Proof.
  intros Hb. induction l as [|x l IH]; simpl.
  - apply stable_ret.
  - apply stable_bind; [apply Hb|intros _; exact IH].
Qed.
End Combinators.

Lemma noThrow_ret {A : Type} (a : A) : noThrow (ret a).
Proof. intros w. now exists a. Qed.

Lemma noThrow_gets {A : Type} (f : World -> A) : noThrow (gets f).
Proof. intros w. now exists (f w). Qed.

Lemma noThrow_modify (f : World -> World) : noThrow (modify f).
Proof. intros w. now exists tt. Qed.

Lemma noThrow_bind {A B : Type} (m : M A) (k : A -> M B) :
  noThrow m -> (forall a, noThrow (k a)) -> noThrow (bind m k).
Proof.
  intros Hm Hk w. unfold bind. destruct (Hm w) as [a Ha].
  destruct (m w) as [[a'|] w1]; simpl in Ha; [|discriminate].
  apply Hk.
Qed.

Lemma noThrow_try_catch (m : M unit) : noThrow (try_catch m).
Proof.
  intros w. unfold try_catch. exists tt. now destruct (m w) as [[a|] w1].
Qed.

Lemma noThrow_forEach {A : Type} (l : list A) (body : A -> M unit) :
  (forall x, noThrow (body x)) -> noThrow (forEach l body).
Proof.
  intros Hb. induction l as [|x l IH]; simpl.
  - apply noThrow_ret.
  - apply noThrow_bind; [apply Hb|intros _; exact IH].
Qed.

(** A computation that never throws can be run to its result. *)
Lemma noThrow_run {A : Type} (m : M A) (w : World) :
  noThrow m -> exists a, m w = (Ok a, snd (m w)).
Proof.
  intros H. destruct (H w) as [a Ha]. exists a.
  destruct (m w) as [r w1]; simpl in *. now subst.
Qed.

#[local] Instance duringPass_preorder cfg f t : PreOrder (duringPass cfg f t).
Proof.
  split.
  - intros w. split; [reflexivity|split; [auto|]]. exists []. now rewrite app_nil_r.
  - intros a b c (H1 & L1 & q1 & E1 & F1) (H2 & L2 & q2 & E2 & F2). split; [|split].
    + intros now. now rewrite H2, H1.
    + auto.
    + exists (q1 ++ q2). split.
      * now rewrite E2, E1, app_assoc.
      * apply Forall_app. now split.
Qed.

(** A change that leaves the state file and the query log alone. *)
Lemma duringPass_same cfg f t w w' :
  stateFile w' = stateFile w -> logQueries w' = logQueries w -> duringPass cfg f t w w'.
Proof.
  intros Hf Hq. split; [|split].
  - intros now. unfold persistedBlock. now rewrite Hf.
  - now rewrite Hf.
  - exists []. now rewrite app_nil_r.
Qed.

(** A document that [saveState] wrote loads. *)
Lemma loadable_serializable (s : MonitorState) : loadable (Json (StateManager.serializable s)).
Proof.
  unfold loadable, StateManager.serializable. cbn [j_vaults].
  apply loadVaults_readable, saveVaults_readable. constructor.
Qed.

Lemma loadable_saveState wr file s :
  wr <> Torn -> loadable file -> loadable (StateManager.saveState wr file s).
Proof.
  intros Hwr Hl. destruct wr; [apply loadable_serializable|exact Hl|contradiction].
Qed.

Lemma loadable_addVault cfg now wr v file :
  wr <> Torn -> loadable file -> loadable (StateManager.addVault cfg now wr v file).
Proof. intros Hwr Hl. now apply loadable_saveState. Qed.

Lemma loadable_updateVault cfg now wr addr u file :
  wr <> Torn -> loadable file -> loadable (StateManager.updateVault cfg now wr addr u file).
Proof.
  intros Hwr Hl. unfold StateManager.updateVault.
  destruct (obj_get _ _); [now apply loadable_saveState|exact Hl].
Qed.

Lemma addVault_block cfg now now' wr v file :
  wr <> Torn ->
  lastProcessedBlock (StateManager.loadState cfg now' (StateManager.addVault cfg now wr v file))
  = lastProcessedBlock (StateManager.loadState cfg now' file).
Proof.
  intros Hwr. unfold StateManager.addVault, StateManager.saveState.
  destruct wr; [|reflexivity|contradiction].
  rewrite loadState_serializable_block. simpl. apply loadState_block_clock.
Qed.

Lemma updateVault_block cfg now now' wr addr u file :
  wr <> Torn ->
  lastProcessedBlock
    (StateManager.loadState cfg now' (StateManager.updateVault cfg now wr addr u file))
  = lastProcessedBlock (StateManager.loadState cfg now' file).
Proof.
  intros Hwr. unfold StateManager.updateVault, StateManager.saveState.
  destruct (obj_get _ _); [|reflexivity].
  destruct wr; [|reflexivity|contradiction].
  rewrite loadState_serializable_block. simpl. apply loadState_block_clock.
Qed.

Section Steps.
Variables (cfg : Config) (rpc : Chain) (fromBlock toBlock : Z).
Hypothesis Hdisk : disk_write rpc <> Torn.
Abbreviation R := (duringPass cfg fromBlock toBlock).

Lemma stable_addVault v : stable R (stateManager_addVault cfg rpc v).
Proof.
  apply stable_modify. intros w. split; [|split].
  - intros now. unfold persistedBlock. simpl. now apply addVault_block.
  - simpl. now apply loadable_addVault.
  - exists []. simpl. now rewrite app_nil_r.
Qed.

Lemma stable_updateVault addr u : stable R (stateManager_updateVault cfg rpc addr u).
Proof.
  apply stable_modify. intros w. split; [|split].
  - intros now. unfold persistedBlock. simpl. now apply updateVault_block.
  - simpl. now apply loadable_updateVault.
  - exists []. simpl. now rewrite app_nil_r.
Qed.

Lemma stable_notify n : stable R (notify n).
Proof. apply stable_modify. intros w. now apply duringPass_same. Qed.

Lemma stable_invalidate : stable R invalidateLiveVaultsCache.
Proof. apply stable_modify. intros w. now apply duringPass_same. Qed.

Lemma stable_queryFilter {A : Type} q (answer : option A) :
  queryRange q = (fromBlock, toBlock) -> stable R (queryFilter q answer).
Proof.
  intros Hq. unfold queryFilter. apply stable_bind; [exact _| |].
  - apply stable_modify. intros w. split; [reflexivity|split; [auto|]].
    exists [q]. split; [reflexivity|]. now constructor.
  - intros _. apply stable_call. exact _.
Qed.

Create HintDb tracker discriminated.

Ltac stable_step :=
  first
    [ solve [auto 1 with tracker nocore]
    | apply stable_ret; exact _
    | apply stable_call; exact _
    | apply stable_lift; exact _
    | apply stable_gets; exact _
    | apply stable_addVault
    | apply stable_updateVault
    | apply stable_notify
    | apply stable_invalidate
    | apply stable_queryFilter; reflexivity
    | apply stable_try_catch
    | apply stable_forEach; [exact _|intros ?]
    | apply stable_bind; [exact _| |intros ?]
    | match goal with
      | |- stable _ (if ?b then _ else _) => destruct b
      | |- stable _ (match ?x with _ => _ end) => destruct x
      end ].

Ltac stable_auto := cbv zeta; repeat (stable_step; cbv zeta).

Lemma stable_onAMMCreated event : stable R (onAMMCreated cfg rpc event).
Proof. unfold onAMMCreated. stable_auto. Qed.
#[local] Hint Resolve stable_onAMMCreated : tracker.

Lemma stable_monitorNewVaults :
  stable R (monitorNewVaults cfg rpc fromBlock toBlock).
Proof.
  unfold monitorNewVaults. stable_auto.
Qed.

Lemma stable_onCapUpdated vault event : stable R (onCapUpdated cfg rpc vault event).
Proof. unfold onCapUpdated. stable_auto. Qed.
#[local] Hint Resolve stable_onCapUpdated : tracker.

Lemma stable_capUpdatesOf vault :
  stable R (capUpdatesOf cfg rpc fromBlock toBlock vault).
Proof.
  unfold capUpdatesOf. stable_auto.
Qed.
#[local] Hint Resolve stable_capUpdatesOf : tracker.

Lemma stable_capUpdatesLoop vaults0 :
  stable R (capUpdatesLoop cfg rpc fromBlock toBlock vaults0).
Proof.
  induction vaults0 as [|vault rest IH]; simpl.
  - apply stable_ret. exact _.
  - intros w. pose proof (stable_capUpdatesOf vault w) as H1.
    destruct (capUpdatesOf cfg rpc fromBlock toBlock vault w) as [[[|]|] w1];
      simpl in *; try exact H1.
    + etransitivity; [exact H1|apply IH].
    + etransitivity; [exact H1|apply IH].
Qed.
#[local] Hint Resolve stable_capUpdatesLoop : tracker.

Lemma stable_monitorCapUpdates :
  stable R (monitorCapUpdates cfg rpc fromBlock toBlock).
Proof.
  unfold monitorCapUpdates. stable_auto.
Qed.

Lemma stable_backfillTokenSymbol vault : stable R (backfillTokenSymbol cfg rpc vault).
Proof. unfold backfillTokenSymbol. stable_auto. Qed.
#[local] Hint Resolve stable_backfillTokenSymbol : tracker.

Lemma stable_checkVaultStatus vault : stable R (checkVaultStatus cfg rpc vault).
Proof.
  unfold checkVaultStatus. stable_auto.
Qed.
#[local] Hint Resolve stable_checkVaultStatus : tracker.

Lemma stable_checkAllVaultStatuses : stable R (checkAllVaultStatuses cfg rpc).
Proof.
  unfold checkAllVaultStatuses. stable_auto.
Qed.

Lemma noThrow_capUpdatesLoop vaults0 :
  noThrow (capUpdatesLoop cfg rpc fromBlock toBlock vaults0).
Proof.
  induction vaults0 as [|vault rest IH]; simpl.
  - apply noThrow_ret.
  - intros w.
    destruct (capUpdatesOf cfg rpc fromBlock toBlock vault w) as [[[|]|] w1];
      solve [apply IH | now exists tt].
Qed.

Lemma noThrow_checkAllVaultStatuses : noThrow (checkAllVaultStatuses cfg rpc).
Proof.
  unfold checkAllVaultStatuses. apply noThrow_bind; [apply noThrow_gets|intros l].
  apply noThrow_forEach. intros batch. apply noThrow_forEach. intros vault.
  apply noThrow_try_catch.
Qed.

Lemma stable_steps : stable R (steps cfg rpc fromBlock toBlock).
Proof.
  unfold steps. apply stable_bind; [exact _|apply stable_monitorNewVaults|intros _].
  apply stable_bind; [exact _|apply stable_monitorCapUpdates|intros _].
  apply stable_bind; [exact _|apply stable_gets; exact _|intros lastCheck].
  destruct (_ <=? _).
  - apply stable_bind; [exact _|apply stable_checkAllVaultStatuses|intros _].
    apply stable_modify. intros w. now apply duringPass_same.
  - apply stable_ret. exact _.
Qed.

Lemma noThrow_steps : noThrow (steps cfg rpc fromBlock toBlock).
Proof.
  unfold steps. apply noThrow_bind; [apply noThrow_try_catch|intros _].
  apply noThrow_bind.
  { unfold monitorCapUpdates. apply noThrow_bind; [apply noThrow_gets|intros l].
    apply noThrow_capUpdatesLoop. }
  intros _. apply noThrow_bind; [apply noThrow_gets|intros lastCheck].
  destruct (_ <=? _).
  - apply noThrow_bind; [apply noThrow_checkAllVaultStatuses|intros _].
    apply noThrow_modify.
  - apply noThrow_ret.
Qed.

End Steps.

Lemma bind_assoc {A B C : Type} (m : M A) (k : A -> M B) (h : B -> M C) (w : World) :
  bind (bind m k) h w = bind m (fun a => bind (k a) h) w.
Proof. unfold bind. now destruct (m w) as [[a|] w1]. Qed.

Lemma bind_ext {A B : Type} (m : M A) (k k' : A -> M B) (w : World) :
  (forall a w', k a w' = k' a w') -> bind m k w = bind m k' w.
Proof. intros H. unfold bind. destruct (m w) as [[a|] w1]; [apply H|reflexivity]. Qed.

(** The block height is written last: steps 2 to 4 first, then the save. *)
Lemma monitorPass_steps (cfg : Config) (rpc : Chain) (w : World) :
  monitorPass cfg rpc w
  = try_catch
      (currentBlock <- call (getBlockNumber rpc) ;;
       state <- stateManager_loadState cfg rpc ;;
       let fromBlock := lastProcessedBlock state + 1 in
       if fromBlock <=? currentBlock then
         steps cfg rpc fromBlock currentBlock ;;;
         newState <- stateManager_loadState cfg rpc ;;
         stateManager_saveState rpc
           {| lastProcessedBlock := currentBlock; vaults := vaults newState |}
       else ret tt) w.
Proof.
  unfold monitorPass, try_catch.
  match goal with
  | |- (let (_, _) := ?a in _) = (let (_, _) := ?b in _) =>
      replace a with b; [reflexivity|symmetry]
  end.
  apply bind_ext. intros cur w1. apply bind_ext. intros state w2. cbv zeta.
  destruct (_ <=? _); [|reflexivity].
  unfold steps. rewrite bind_assoc. apply bind_ext. intros _ w3.
  rewrite bind_assoc. apply bind_ext. intros _ w4.
  rewrite bind_assoc. reflexivity.
Qed.

(** A pass that finds new blocks: steps 2 to 4 run to their end, whatever
    they caught, and then the block height is saved. *)
Lemma monitorPass_run (cfg : Config) (rpc : Chain) (w : World) (cur : Z) :
  getBlockNumber rpc = Some cur ->
  persistedBlock cfg (Date_now rpc) w + 1 <= cur ->
  exists w1,
    w1 = snd (steps cfg rpc (persistedBlock cfg (Date_now rpc) w + 1) cur w)
    /\ monitorPass cfg rpc w
       = (Ok tt,
          with_stateFile
            (StateManager.saveState (disk_write rpc) (stateFile w1)
               {| lastProcessedBlock := cur;
                  vaults := vaults (StateManager.loadState cfg (Date_now rpc) (stateFile w1)) |})
            w1).
Proof.
  intros Hcur Hle. rewrite monitorPass_steps.
  unfold try_catch, bind at 1, call. rewrite Hcur.
  unfold bind at 1, stateManager_loadState at 1, gets at 1. cbv zeta.
  fold (persistedBlock cfg (Date_now rpc) w).
  destruct (Z.leb_spec (persistedBlock cfg (Date_now rpc) w + 1) cur) as [_|Hgt]; [|lia].
  set (from := persistedBlock cfg (Date_now rpc) w + 1).
  exists (snd (steps cfg rpc from cur w)). split; [reflexivity|].
  unfold bind at 1.
  destruct (noThrow_run (steps cfg rpc from cur) w (noThrow_steps cfg rpc from cur))
    as [[] ->].
  reflexivity.
Qed.

(** A pass that finds no new block, or cannot read the height, changes
    nothing. *)
Lemma monitorPass_skip (cfg : Config) (rpc : Chain) (w : World) :
  match getBlockNumber rpc with
  | Some cur => cur < persistedBlock cfg (Date_now rpc) w + 1
  | None => True
  end ->
  monitorPass cfg rpc w = (Ok tt, w).
Proof.
  intros H. unfold monitorPass, try_catch, bind at 1, call.
  destruct (getBlockNumber rpc) as [cur|]; [|reflexivity].
  unfold bind at 1, stateManager_loadState at 1, gets at 1. cbv zeta.
  fold (persistedBlock cfg (Date_now rpc) w).
  destruct (Z.leb_spec (persistedBlock cfg (Date_now rpc) w + 1) cur); [lia|reflexivity].
Qed.

Lemma persistedBlock_clock (cfg : Config) (now now' : Z) (w : World) :
  persistedBlock cfg now w = persistedBlock cfg now' w.
Proof. apply loadState_block_clock. Qed.

End TrackerFacts.

(* ------------------------------------------------------------------ *)
(** ** Properties of the monitor loop *)

Module LoopProperties.
Import StateManagerFacts VaultMonitor TrackerFacts Examples MoreExamples.

(** A pass without a torn write does not lower the stored height and keeps
    a loadable state file loadable. *)
Lemma monitorPass_monotone (cfg : Config) (rpc : Chain) (w : World) (now : Z) :
  disk_write rpc <> Torn ->
  persistedBlock cfg now w <= persistedBlock cfg now (snd (monitorPass cfg rpc w))
  /\ (loadable (stateFile w) -> loadable (stateFile (snd (monitorPass cfg rpc w)))).
Proof.
  intros Hdisk.
  destruct (getBlockNumber rpc) as [cur|] eqn:Hcur.
  - destruct (Z.le_gt_cases (persistedBlock cfg (Date_now rpc) w + 1) cur) as [Hle|Hgt].
    + destruct (monitorPass_run cfg rpc w cur Hcur Hle) as (w1 & Hw1 & ->).
      pose proof (stable_steps cfg rpc (persistedBlock cfg (Date_now rpc) w + 1) cur
                    Hdisk w) as (Hb & Hl & _).
      rewrite <- Hw1 in Hb, Hl. simpl. split.
      * unfold persistedBlock at 2. simpl.
        unfold StateManager.saveState. destruct (disk_write rpc); [| |contradiction].
        -- rewrite loadState_serializable_block. simpl.
           rewrite (persistedBlock_clock cfg now (Date_now rpc)). lia.
        -- fold (persistedBlock cfg now w1). rewrite Hb. lia.
      * intros H. apply loadable_saveState; auto.
    + rewrite monitorPass_skip; [simpl; split; [lia|auto]|]. rewrite Hcur. lia.
  - rewrite monitorPass_skip; [simpl; split; [lia|auto]|]. now rewrite Hcur.
Qed.

(** For a state file that loads, the stored height is the number the file
    holds. *)
Lemma persistedBlock_held (cfg : Config) (now : Z) (w : World) (b : Z) :
  loadable (stateFile w) -> heldBlock (stateFile w) = Some b -> persistedBlock cfg now w = b.
Proof.
  unfold persistedBlock, heldBlock, loadable.
  destruct (stateFile w) as [| |parsed]; try discriminate.
  intros [vs Hvs] Hb. unfold StateManager.loadState.
  destruct (StateManager.loadVaults now _ []) eqn:E.
  - simpl. rewrite Hb. apply or_num_zero_default.
  - apply (loadVaults_clock now 0 _ [] []) in E. congruence.
Qed.

(** C5, as amended.  Take a state file that is absent or loads without an
    error, and any sequence of passes of the monitor loop in which no write
    of the state file is torn (each write succeeds, or is refused with the
    file untouched), whatever the chain answers otherwise (failing reads, a
    height below the stored one).  Then the block height [loadState] reads
    never decreases, the file stays loadable, and the number the file holds
    never decreases. *)
Theorem lastProcessedBlock_never_decreases (cfg : Config) (polls : list Chain)
    (w : World) (now : Z) :
  loadable (stateFile w) ->
  Forall (fun rpc => disk_write rpc <> Torn) polls ->
  persistedBlock cfg now w <= persistedBlock cfg now (monitor cfg polls w)
  /\ loadable (stateFile (monitor cfg polls w))
  /\ (forall b b',
        heldBlock (stateFile w) = Some b ->
        heldBlock (stateFile (monitor cfg polls w)) = Some b' ->
        b <= b').
Proof.
  intros Hl Hpolls.
  assert (H : persistedBlock cfg now w <= persistedBlock cfg now (monitor cfg polls w)
              /\ loadable (stateFile (monitor cfg polls w))).
  { revert w Hl. induction Hpolls as [|rpc later Hrpc _ IH]; intros w Hl; simpl.
    - split; [lia|exact Hl].
    - destruct (monitorPass_monotone cfg rpc w now Hrpc) as [Hle Hl1].
      destruct (IH _ (Hl1 Hl)) as [Hle' Hl']. split; [lia|exact Hl']. }
  destruct H as [Hle Hl']. split; [exact Hle|split; [exact Hl'|]].
  intros b b' Hb Hb'.
  rewrite (persistedBlock_held cfg now w b Hl Hb) in Hle.
  now rewrite (persistedBlock_held cfg now _ b' Hl' Hb') in Hle.
Qed.

Lemma lastProcessedBlock_never_decreases_witness :
  persistedBlock cfg98 someTime w100
  <= persistedBlock cfg98 someTime (monitor cfg98 refusedThenRecovered w100)
  /\ loadable (stateFile (monitor cfg98 refusedThenRecovered w100))
  /\ (forall b b',
        heldBlock (stateFile w100) = Some b ->
        heldBlock (stateFile (monitor cfg98 refusedThenRecovered w100)) = Some b' ->
        b <= b').
Proof.
  apply (lastProcessedBlock_never_decreases cfg98 refusedThenRecovered w100 someTime).
  - exists []. reflexivity.
  - constructor; [discriminate|]. constructor; [discriminate|]. constructor.
Defined.

(** C5 as stated fails.  A write that fails after the file was truncated
    leaves a file on which the next read falls back to [START_BLOCK || 0]:
    the height goes from 100 to 0.  And a file that does not load is taken as
    [START_BLOCK || 0] and overwritten: a file holding the height 5000 and a
    vault whose cap is no numeral holds 3000 after a pass at that height. *)
Lemma torn_write_or_unloadable_file_lowers_height :
  persistedBlock cfg98 someTime w100 = 100
  /\ stateFile (snd (monitorPass cfg98 (tornDisk rpcFailing) w100)) = Unreadable
  /\ persistedBlock cfg98 someTime (snd (monitorPass cfg98 (tornDisk rpcFailing) w100)) = 0
  /\ heldBlock fileBadCap = Some 5000
  /\ heldBlock (stateFile (snd (monitorPass cfg98 rpcAt3000 (worldOf fileBadCap))))
     = Some 3000.
Proof.
  repeat split; vm_compute; reflexivity.
Qed.

End LoopProperties.

(* ------------------------------------------------------------------ *)
(** ** Properties of the detection steps *)

Module DetectionProperties.
Import StateManagerFacts VaultMonitor TrackerFacts Examples.

Lemma onAMMCreated_known (cfg : Config) (rpc : Chain) (w : World)
    (event : LogEntry string) :
  known cfg rpc w event -> onAMMCreated cfg rpc event w = (Ok tt, w).
Proof.
  destruct event as [blockNumber ammAddress|]; [|reflexivity].
  unfold known, onAMMCreated. unfold bind at 1. unfold stateManager_getVault, gets.
  cbv beta iota.
  destruct (StateManager.getVault _ _ _ _); [reflexivity|contradiction].
Qed.

Lemma forEach_known (cfg : Config) (rpc : Chain) (w : World)
    (events : list (LogEntry string)) :
  Forall (known cfg rpc w) events ->
  forEach events (onAMMCreated cfg rpc) w = (Ok tt, w).
Proof.
  induction 1 as [|event events Hk _ IH]; simpl; [reflexivity|].
  unfold bind. now rewrite onAMMCreated_known.
Qed.

(** C6. A creation event whose address, in any letter case, is that of a
    vault the store has under its lower-cased key changes nothing: the
    state file, the notifications and the cache stay as they are.  A whole
    creation-log answer made of such events only adds the query itself to
    the world. *)
Theorem known_creation_event_is_noop (cfg : Config) (rpc : Chain) (w : World)
    (stored : VaultState) (blockNumber : Z) (ammAddress storedAddress : string) :
  obj_get (toLowerCase storedAddress)
    (vaults (StateManager.loadState cfg (Date_now rpc) (stateFile w))) = Some stored ->
  toLowerCase ammAddress = toLowerCase storedAddress ->
  onAMMCreated cfg rpc (EventLog blockNumber ammAddress) w = (Ok tt, w)
  /\ forall fromBlock toBlock events,
       AMMCreated_logs rpc fromBlock toBlock = Some events ->
       Forall (known cfg rpc w) events ->
       monitorNewVaults cfg rpc fromBlock toBlock w
       = (Ok tt, with_logQuery (QueryAMMCreated fromBlock toBlock) w).
Proof.
  intros Hs Hcase. split.
  - apply onAMMCreated_known. unfold known, StateManager.getVault.
    now rewrite Hcase, Hs.
  - intros fromBlock toBlock events Hev Hk.
    unfold monitorNewVaults, try_catch, queryFilter, bind, modify, call.
    rewrite Hev.
    rewrite (forEach_known cfg rpc (with_logQuery _ w) events); [reflexivity|].
    eapply Forall_impl; [|exact Hk]. now intros [bn a|].
Qed.

Lemma known_creation_event_is_noop_witness :
  onAMMCreated cfg98 rpcRecovered (EventLog 105 "0xAA01"%string) (worldOf (fileOf [vaultA]))
  = (Ok tt, worldOf (fileOf [vaultA]))
  /\ forall fromBlock toBlock events,
       AMMCreated_logs rpcRecovered fromBlock toBlock = Some events ->
       Forall (known cfg98 rpcRecovered (worldOf (fileOf [vaultA]))) events ->
       monitorNewVaults cfg98 rpcRecovered fromBlock toBlock (worldOf (fileOf [vaultA]))
       = (Ok tt, with_logQuery (QueryAMMCreated fromBlock toBlock) (worldOf (fileOf [vaultA]))).
Proof.
  apply (known_creation_event_is_noop cfg98 rpcRecovered (worldOf (fileOf [vaultA]))
           vaultA 105 "0xAA01"%string "0xaA01"%string).
  - vm_compute. reflexivity.
  - vm_compute. reflexivity.
Defined.

(** Replaying a creation event: once it has been processed on a writable
    disk, processing it again changes nothing. *)
Lemma replayed_creation_event_is_noop (cfg : Config) (rpc : Chain) (w w1 : World)
    (event : LogEntry string) :
  disk_write rpc = Written ->
  onAMMCreated cfg rpc event w = (Ok tt, w1) ->
  onAMMCreated cfg rpc event w1 = (Ok tt, w1).
Proof.
  intros Hwr Hrun. apply onAMMCreated_known.
  destruct event as [blockNumber ammAddress|]; [|exact I].
  unfold known. revert Hrun. unfold onAMMCreated.
  unfold bind at 1, stateManager_getVault, gets. cbv beta iota.
  destruct (StateManager.getVault cfg (Date_now rpc) ammAddress (stateFile w)) eqn:E.
  - intros [= <-]. congruence.
  - repeat (unfold bind at 1, call at 1;
            match goal with
            | |- context [match ?r with Some _ => _ | None => _ end] =>
                destruct r; [|discriminate]
            end).
    unfold bind at 1, lift at 1.
    destruct (isVaultFilled cfg _ _) as [filled|]; [|discriminate].
    cbv zeta. unfold bind at 1, stateManager_addVault, modify at 1. cbv beta iota.
    unfold bind at 1, invalidateLiveVaultsCache, modify at 1. cbv beta iota.
    rewrite Hwr.
    match goal with
    | |- context [StateManager.addVault cfg ?n Written ?v ?f] =>
        pose proof (getVault_addVault cfg n (Date_now rpc) v f) as Hknown
    end.
    destruct (negb _); [destruct (negb _)|]; intros [= <-]; exact Hknown.
Qed.

(** What [onCapUpdated] sends when a cap event takes a vault recorded as
    filled to not filled: the cap-raised notification, then the new-vault
    one. *)
Lemma onCapUpdated_unfill_notifications (cfg : Config) (rpc : Chain) (vault : VaultState)
    (w : World) (blockNumber newCap currentSupply : Z) (rest : list Z) :
  amm_totalSupply rpc (address vault) = Some currentSupply ->
  isFilled vault = true ->
  isVaultFilled cfg currentSupply newCap = Ok false ->
  notifications
    (snd (onCapUpdated cfg rpc vault (EventLog blockNumber (newCap :: rest)) w))
  = notifications w
    ++ [ CapRaised
           (spread vault (mkVaultPatch (Some newCap) (Some currentSupply) None None None))
           (totalSupplyCap vault) newCap currentSupply;
         NewVault
           (spread vault
              (mkVaultPatch (Some newCap) (Some currentSupply) (Some false) None None))
           false ].
Proof.
  intros Hs Hwas Hnow. unfold onCapUpdated.
  unfold bind at 1, call at 1. rewrite Hs.
  unfold bind at 1, lift at 1. rewrite Hnow, Hwas.
  simpl. now rewrite <- app_assoc.
Qed.

(** What the loop of [monitorCapUpdates] does at an expired vault: it
    returns, whatever vaults are left. *)
Lemma capUpdatesLoop_returns_at_expired (cfg : Config) (rpc : Chain)
    (fromBlock toBlock latestFTime : Z) (vault : VaultState) (rest : list VaultState)
    (events : list (LogEntry (list Z))) (w : World) :
  TotalSupplyCapUpdated_logs rpc (address vault) fromBlock toBlock = Some events ->
  market_getLatestFTime rpc (marketAddress vault) = Some latestFTime ->
  maturity vault <= latestFTime ->
  capUpdatesLoop cfg rpc fromBlock toBlock (vault :: rest) w
  = (Ok tt, with_logQuery (QueryCapUpdated (address vault) fromBlock toBlock) w).
Proof.
  intros Hev Ht Hexp. simpl. unfold capUpdatesOf, queryFilter.
  unfold bind at 1. unfold bind at 1, modify at 1, call at 1. rewrite Hev.
  unfold bind at 1, call at 1. rewrite Ht.
  unfold expired. destruct (Z.leb_spec (maturity vault) latestFTime); [reflexivity|lia].
Qed.

(** C4 fails on the code: vault 0xBb02 is recorded as filled (990 of 1000);
    its cap is raised to 2000, which leaves it unfilled.  Cap-update
    detection sends the cap-raised notification and then the new-vault
    notification; no vault-available notification is sent. *)
Theorem cap_update_unfill_sends_new_vault_notification :
  notifications
    (snd (monitorCapUpdates cfg98 rpcCapRaised 101 110 (worldOf (fileOf [vaultFull]))))
  = [ CapRaised
        (spread vaultFull (mkVaultPatch (Some 2000) (Some 990) None None None))
        1000 2000 990;
      NewVault
        (spread vaultFull (mkVaultPatch (Some 2000) (Some 990) (Some false) None None))
        false ].
Proof. vm_compute. reflexivity. Qed.

(** C7 fails on the code: the store holds the expired vault 0xEe01 before
    the live vault 0xBb02, whose cap was raised in the range.  Cap-update
    detection returns at the expired vault: the log of 0xBb02 is never
    queried and nothing is sent or stored for it.  With the two vaults in
    the other order, the raise is detected. *)
Theorem cap_updates_stop_at_first_expired_vault :
  logQueries
    (snd (monitorCapUpdates cfg98 rpcCapRaised 101 110
            (worldOf (fileOf [vaultExpired; vaultFull]))))
  = [QueryCapUpdated "0xEe01" 101 110]
  /\ notifications
       (snd (monitorCapUpdates cfg98 rpcCapRaised 101 110
               (worldOf (fileOf [vaultExpired; vaultFull]))))
     = []
  /\ StateManager.getVault cfg98 someTime "0xBb02"
       (stateFile
          (snd (monitorCapUpdates cfg98 rpcCapRaised 101 110
                  (worldOf (fileOf [vaultExpired; vaultFull])))))
     = Some vaultFull
  /\ logQueries
       (snd (monitorCapUpdates cfg98 rpcCapRaised 101 110
               (worldOf (fileOf [vaultFull; vaultExpired]))))
     = [QueryCapUpdated "0xBb02" 101 110; QueryCapUpdated "0xEe01" 101 110]
  /\ map totalSupplyCap
       (StateManager.getAllVaults cfg98 someTime
          (stateFile
             (snd (monitorCapUpdates cfg98 rpcCapRaised 101 110
                     (worldOf (fileOf [vaultFull; vaultExpired]))))))
     = [2000; 1000].
Proof. repeat split; vm_compute; reflexivity. Qed.

End DetectionProperties.

(* ------------------------------------------------------------------ *)
(** ** Properties of the live-vaults cache *)

Module CacheProperties.
Import StateManagerFacts VaultMonitor TrackerFacts Examples MoreExamples.

(** The backfill of the token symbol returns a record with the same
    address, cap and fill flag, and leaves the cache alone. *)
Lemma backfillTokenSymbol_returns (cfg : Config) (rpc : Chain) (vault : VaultState)
    (w : World) :
  exists v' w',
    backfillTokenSymbol cfg rpc vault w = (Ok v', w')
    /\ address v' = address vault
    /\ totalSupplyCap v' = totalSupplyCap vault
    /\ isFilled v' = isFilled vault
    /\ cachedLiveVaultsMessage w' = cachedLiveVaultsMessage w
    /\ cachedLiveVaultsTimestamp w' = cachedLiveVaultsTimestamp w.
Proof.
  unfold backfillTokenSymbol.
  destruct (negb (truthy (depositTokenSymbol vault))).
  - destruct (fetchDepositTokenSymbol rpc (marketAddress vault)) as [sym|].
    + destruct (truthy (Some sym)).
      * eexists _, _. split; [reflexivity|]. now simpl.
      * eexists _, _. split; [reflexivity|]. now simpl.
    + eexists _, _. split; [reflexivity|]. now simpl.
  - eexists _, _. split; [reflexivity|]. now simpl.
Qed.

Lemma snd_try_catch (m : M unit) (w : World) : snd (try_catch m w) = snd (m w).
Proof. unfold try_catch. now destruct (m w) as [[a|] w1]. Qed.

(** The end of [checkVaultStatus], after its reads. *)
Lemma sweep_tail_invalidates (cfg : Config) (rpc : Chain) (vault : VaultState)
    (w : World) (supply cap : Z) (isNowFilled : bool) :
  cap <> totalSupplyCap vault \/ isNowFilled <> isFilled vault ->
  invalidated
    (snd
       (((if negb (cap =? totalSupplyCap vault) then
            invalidateLiveVaultsCache ;;;
            notify (CapRaised
                      (spread vault (mkVaultPatch (Some cap) (Some supply) None None None))
                      (totalSupplyCap vault) cap supply)
          else ret tt) ;;;
         (if negb (Bool.eqb (isFilled vault) isNowFilled) then
            invalidateLiveVaultsCache ;;;
            if isNowFilled then
              notify (VaultFilled
                        (spread vault
                           (mkVaultPatch (Some cap) (Some supply) (Some true) None None)))
            else if isFilled vault then
              notify (VaultAvailable
                        (spread vault
                           (mkVaultPatch (Some cap) (Some supply) (Some false) None None))
                        supply)
            else ret tt
          else ret tt) ;;;
         stateManager_updateVault cfg rpc (address vault)
           (mkVaultPatch (Some cap) (Some supply) (Some isNowFilled) None None)) w)).
Proof.
  intros H.
  destruct (Z.eqb_spec cap (totalSupplyCap vault)) as [Hc|Hc];
    destruct (isFilled vault), isNowFilled; simpl;
    try (split; reflexivity); destruct H; congruence.
Qed.

(** The sweep of one vault, once its reads are answered. *)
Lemma checkVaultStatus_reads (cfg : Config) (rpc : Chain) (vault : VaultState) (w : World)
    (latestFTime supply cap : Z) (isNowFilled : bool) :
  market_getLatestFTime rpc (marketAddress vault) = Some latestFTime ->
  latestFTime < maturity vault ->
  amm_totalSupply rpc (address vault) = Some supply ->
  amm_totalSupplyCap rpc (address vault) = Some cap ->
  isVaultFilled cfg supply cap = Ok isNowFilled ->
  exists v' w',
    backfillTokenSymbol cfg rpc vault w = (Ok v', w')
    /\ address v' = address vault
    /\ totalSupplyCap v' = totalSupplyCap vault
    /\ isFilled v' = isFilled vault
    /\ snd (checkVaultStatus cfg rpc vault w)
       = snd (((if negb (cap =? totalSupplyCap v') then
                  invalidateLiveVaultsCache ;;;
                  notify (CapRaised
                            (spread v' (mkVaultPatch (Some cap) (Some supply) None None None))
                            (totalSupplyCap v') cap supply)
                else ret tt) ;;;
               (if negb (Bool.eqb (isFilled v') isNowFilled) then
                  invalidateLiveVaultsCache ;;;
                  if isNowFilled then
                    notify (VaultFilled
                              (spread v'
                                 (mkVaultPatch (Some cap) (Some supply) (Some true) None None)))
                  else if isFilled v' then
                    notify (VaultAvailable
                              (spread v'
                                 (mkVaultPatch (Some cap) (Some supply) (Some false)
                                    None None))
                              supply)
                  else ret tt
                else ret tt) ;;;
               stateManager_updateVault cfg rpc (address v')
                 (mkVaultPatch (Some cap) (Some supply) (Some isNowFilled) None None)) w').
Proof.
  intros Ht Hlive Hs Hc Hf.
  destruct (backfillTokenSymbol_returns cfg rpc vault w)
    as (v' & w' & E & Ha & Hcap & Hfl & _).
  exists v', w'. repeat split; auto.
  unfold checkVaultStatus. rewrite snd_try_catch.
  unfold bind at 1, call at 1. rewrite Ht.
  unfold expired. destruct (Z.leb_spec (maturity vault) latestFTime) as [|_]; [lia|].
  unfold bind at 1. rewrite E.
  rewrite <- Ha in Hs, Hc.
  unfold bind at 1, call at 1. rewrite Hs.
  unfold bind at 1, call at 1. rewrite Hc.
  unfold bind at 1, lift at 1. rewrite Hf.
  reflexivity.
Qed.

Lemma sendMessage_delivered (rpc : Chain) (text : string) (w : World) :
  sendMessage_ok rpc text = true -> sendMessage rpc text w = (Ok tt, with_reply text w).
Proof. intros H. unfold sendMessage. now rewrite H. Qed.

(** A command that finds the cache empty, its replies being delivered,
    with whatever else runs while it waits: the fetching notice, then the
    text built from the store and the chain as they are when it fetches,
    which is written to the cache when the fetch is back. *)
Lemma command_on_empty_cache_during (cfg : Config) (rpc : Chain)
    (afterNotice duringFetch : World -> World) (format : list LiveVault -> string)
    (w : World) :
  invalidated w ->
  (forall text, sendMessage_ok rpc text = true) ->
  handleLiveVaultsCommandDuring cfg rpc afterNotice duringFetch format w
  = (Ok tt,
     with_reply
       (freshReply cfg rpc format (afterNotice (with_reply "📊 Fetching live vaults..." w)))
       (with_cache
          (Some (freshReply cfg rpc format
                   (afterNotice (with_reply "📊 Fetching live vaults..." w))))
          (Date_now rpc)
          (duringFetch (afterNotice (with_reply "📊 Fetching live vaults..." w))))).
Proof.
  intros [Hm Hstamp] Hok.
  unfold handleLiveVaultsCommandDuring, try_catch_with.
  unfold bind at 1, gets at 1. unfold bind at 1, gets at 1.
  rewrite Hm. cbn [truthy andb].
  unfold bind at 1. rewrite sendMessage_delivered by apply Hok.
  unfold bind at 1, modify at 1.
  unfold bind at 1, getLiveVaults, bind at 1, stateManager_getAllVaults, gets, ret.
  unfold bind at 1, modify at 1.
  unfold freshReply.
  destruct (sortByUtilization _); cbv zeta;
    unfold bind, modify; rewrite sendMessage_delivered by apply Hok; reflexivity.
Qed.

(** The same with nothing else running meanwhile. *)
Lemma command_on_empty_cache (cfg : Config) (rpc : Chain)
    (format : list LiveVault -> string) (w : World) :
  invalidated w ->
  (forall text, sendMessage_ok rpc text = true) ->
  handleLiveVaultsCommand cfg rpc format w
  = (Ok tt,
     with_reply (freshReply cfg rpc format w)
       (with_cache (Some (freshReply cfg rpc format w)) (Date_now rpc)
          (with_reply "📊 Fetching live vaults..." w))).
Proof.
  intros Hinv Hok. unfold handleLiveVaultsCommand.
  now rewrite command_on_empty_cache_during.
Qed.

(** C8, as amended.  Whenever a cap-changed event is processed (the supply
    read answered), the change is written to the record and the cached reply
    is emptied; and when the status sweep reads, for a vault that is not
    expired, a cap or a fill status that differs from the record, the cached
    reply is emptied by the time the change is stored.  When the sweep reads
    the recorded cap and fill status, it stores the supply it read and the
    cache stays as it was.  A live-vaults command that starts on an emptied
    cache, its replies being delivered, replies with the text built from the
    store and the chain as they are when it fetches, and writes that text to
    the cache when the fetch is back, over whatever the tracker did to the
    cache meanwhile; with nothing running in between, the reply is the text
    built from the store and the chain as they are when it starts. *)
Theorem cap_or_fill_change_invalidates_cache (cfg : Config) (rpc : Chain)
    (vault : VaultState) (w : World) :
  (forall blockNumber newCap rest supply filled,
     amm_totalSupply rpc (address vault) = Some supply ->
     isVaultFilled cfg supply newCap = Ok filled ->
     invalidated
       (snd (onCapUpdated cfg rpc vault (EventLog blockNumber (newCap :: rest)) w))
     /\ stateFile
          (snd (onCapUpdated cfg rpc vault (EventLog blockNumber (newCap :: rest)) w))
        = StateManager.updateVault cfg (Date_now rpc) (disk_write rpc) (address vault)
            (mkVaultPatch (Some newCap) (Some supply) (Some filled) (Some blockNumber) None)
            (stateFile w))
  /\ (forall latestFTime supply cap isNowFilled,
        market_getLatestFTime rpc (marketAddress vault) = Some latestFTime ->
        latestFTime < maturity vault ->
        amm_totalSupply rpc (address vault) = Some supply ->
        amm_totalSupplyCap rpc (address vault) = Some cap ->
        isVaultFilled cfg supply cap = Ok isNowFilled ->
        (cap <> totalSupplyCap vault \/ isNowFilled <> isFilled vault ->
         invalidated (snd (checkVaultStatus cfg rpc vault w)))
        /\ (cap = totalSupplyCap vault /\ isNowFilled = isFilled vault ->
            cachedLiveVaultsMessage (snd (checkVaultStatus cfg rpc vault w))
            = cachedLiveVaultsMessage w
            /\ cachedLiveVaultsTimestamp (snd (checkVaultStatus cfg rpc vault w))
               = cachedLiveVaultsTimestamp w
            /\ stateFile (snd (checkVaultStatus cfg rpc vault w))
               = StateManager.updateVault cfg (Date_now rpc) (disk_write rpc)
                   (address vault)
                   (mkVaultPatch (Some cap) (Some supply) (Some isNowFilled) None None)
                   (stateFile (snd (backfillTokenSymbol cfg rpc vault w)))))
  /\ (forall w' rpc' format afterNotice duringFetch,
        invalidated w' ->
        (forall text, sendMessage_ok rpc' text = true) ->
        let fetching := afterNotice (with_reply "📊 Fetching live vaults..." w') in
        handleLiveVaultsCommandDuring cfg rpc' afterNotice duringFetch format w'
        = (Ok tt,
           with_reply (freshReply cfg rpc' format fetching)
             (with_cache (Some (freshReply cfg rpc' format fetching)) (Date_now rpc')
                (duringFetch fetching))))
  /\ (forall w' rpc' format,
        invalidated w' ->
        (forall text, sendMessage_ok rpc' text = true) ->
        replies (snd (handleLiveVaultsCommand cfg rpc' format w'))
        = replies w' ++ ["📊 Fetching live vaults..."%string; freshReply cfg rpc' format w']).
Proof.
  split; [|split; [|split]].
  - intros blockNumber newCap rest supply filled Hs Hfilled.
    unfold onCapUpdated, bind, call, lift. rewrite Hs. cbv beta iota. rewrite Hfilled.
    destruct (isFilled vault), filled; (split; [split; reflexivity|reflexivity]).
  - intros latestFTime supply cap isNowFilled Ht Hlive Hs Hc Hf.
    destruct (checkVaultStatus_reads cfg rpc vault w latestFTime supply cap isNowFilled
                Ht Hlive Hs Hc Hf) as (v' & w' & E & Ha & Hcap & Hfl & ->).
    destruct (backfillTokenSymbol_returns cfg rpc vault w)
      as (v2 & w2 & E2 & _ & _ & _ & Hm & Hst).
    rewrite E in E2. injection E2 as <- <-. rewrite E. cbn [snd].
    split.
    + intros Hchange. rewrite <- Hcap, <- Hfl in Hchange.
      exact (sweep_tail_invalidates cfg rpc v' w' supply cap isNowFilled Hchange).
    + intros [Hsame Hflag]. rewrite <- Hcap in Hsame. rewrite <- Hfl in Hflag.
      rewrite <- Hm, <- Hst, <- Ha. subst cap isNowFilled.
      rewrite Z.eqb_refl, Bool.eqb_reflx. repeat split; reflexivity.
  - intros w' rpc' format afterNotice duringFetch Hinv Hok fetching.
    now apply command_on_empty_cache_during.
  - intros w' rpc' format Hinv Hok.
    rewrite command_on_empty_cache by assumption. simpl. now rewrite <- app_assoc.
Qed.

Lemma cap_or_fill_change_invalidates_cache_witness :
  invalidated (snd (checkVaultStatus cfg98 rpcCapRaised vaultFull wCachedFull)).
Proof.
  destruct (cap_or_fill_change_invalidates_cache cfg98 rpcCapRaised vaultFull wCachedFull)
    as (_ & H & _).
  apply (H 1000 990 2000 false).
  - reflexivity.
  - reflexivity.
  - reflexivity.
  - reflexivity.
  - vm_compute. reflexivity.
  - left. discriminate.
Defined.

(** C8 as stated fails: the sweep reads the supply 600 for a vault stored
    with 500, cap and fill status unchanged; it stores 600 and leaves the
    cache alone, and a live-vaults command right after is answered from the
    cache. *)
Lemma supply_only_change_keeps_cached_reply :
  map lastKnownTotalSupply
    (StateManager.getAllVaults cfg98 someTime (stateFile wCachedA)) = [500]
  /\ map lastKnownTotalSupply
       (StateManager.getAllVaults cfg98 someTime
          (stateFile (snd (checkVaultStatus cfg98 rpcSupplyMoved vaultA wCachedA))))
     = [600]
  /\ cachedLiveVaultsMessage (snd (checkVaultStatus cfg98 rpcSupplyMoved vaultA wCachedA))
     = Some "cached list"%string
  /\ replies
       (snd (handleLiveVaultsCommand cfg98 rpcSupplyMoved (fun _ => "fresh list"%string)
               (snd (checkVaultStatus cfg98 rpcSupplyMoved vaultA wCachedA))))
     = ["cached list"%string].
Proof. repeat split; vm_compute; reflexivity. Qed.

(** A command that is fetching while the tracker stores a change writes
    its text to the cache after the tracker has emptied it.  Vault 0xBb02 is
    filled (990 of 1000) when the command reads it; meanwhile cap-update
    detection finds its cap raised to 2000, stores that and empties the
    cache; the command then caches that no vault is live, and a second
    command is answered from the cache, where a fresh list would show the
    vault. *)
Lemma command_in_flight_caches_text_from_before_the_change :
  let format := fun _ : list LiveVault => "fresh list"%string in
  let tracker := fun w => snd (monitorCapUpdates cfg98 rpcCapRaised 101 110 w) in
  let w1 :=
    snd (handleLiveVaultsCommandDuring cfg98 rpcBeforeRaise (fun w => w) tracker format
           (worldOf (fileOf [vaultFull]))) in
  map totalSupplyCap (StateManager.getAllVaults cfg98 someTime (stateFile w1)) = [2000]
  /\ cachedLiveVaultsMessage w1 = Some "❌ No live vaults found."%string
  /\ replies (snd (handleLiveVaultsCommand cfg98 rpcCapRaised format w1))
     = [ "📊 Fetching live vaults..."%string;
         "❌ No live vaults found."%string;
         "❌ No live vaults found."%string ]
  /\ freshReply cfg98 rpcCapRaised format w1 = "fresh list"%string.
Proof. repeat split; vm_compute; reflexivity. Qed.

End CacheProperties.

(* ------------------------------------------------------------------ *)
(** ** Properties of the live-vault query *)

Module QueryProperties.
Import StateManagerFacts VaultMonitor TrackerFacts Examples.

Lemma insertByUtilization_perm (a : LiveVault) (l : list LiveVault) :
  Permutation (insertByUtilization a l) (a :: l).
Proof.
  induction l as [|b l IH]; simpl; [reflexivity|].
  destruct (Qle_bool (utilization a) (utilization b)); [reflexivity|].
  rewrite IH. apply perm_swap.
Qed.

Lemma sortByUtilization_perm (l : list LiveVault) : Permutation (sortByUtilization l) l.
Proof.
  induction l as [|a l IH]; simpl; [reflexivity|].
  rewrite insertByUtilization_perm. now constructor.
Qed.

Lemma insertByUtilization_sorted (a : LiveVault) (l : list LiveVault) :
  StronglySorted byUtilization l -> StronglySorted byUtilization (insertByUtilization a l).
Proof.
  induction 1 as [|b l Hs IH Hb]; simpl.
  - constructor; constructor.
  - destruct (Qle_bool (utilization a) (utilization b)) eqn:E.
    + apply Qle_bool_iff in E. constructor; [now constructor|].
      constructor; [exact E|].
      eapply Forall_impl; [|exact Hb]. intros c Hc. unfold byUtilization in *.
      now apply Qle_trans with (utilization b).
    + assert (byUtilization b a) as Hba.
      { unfold byUtilization. apply Qlt_le_weak, Qnot_le_lt.
        intros H. apply Qle_bool_iff in H. congruence. }
      constructor; [exact IH|].
      eapply Permutation_Forall.
      * symmetry. apply insertByUtilization_perm.
      * now constructor.
Qed.

Lemma sortByUtilization_sorted (l : list LiveVault) :
  StronglySorted byUtilization (sortByUtilization l).
Proof.
  induction l as [|a l IH]; simpl; [constructor|].
  now apply insertByUtilization_sorted.
Qed.

Lemma collectLiveVaults_In (cfg : Config) (rpc : Chain) (allVaults : list VaultState)
    (e : LiveVault) :
  In e (collectLiveVaults cfg rpc allVaults)
  <-> exists vault, In vault allVaults /\ liveVaultEntry cfg rpc vault = Ok (Some e).
Proof.
  induction allVaults as [|v l IH]; simpl.
  - split; [contradiction|intros (x & [] & _)].
  - destruct (liveVaultEntry cfg rpc v) as [[e'|]|] eqn:E; simpl; rewrite ?IH.
    + split.
      * intros [<-|(x & Hx & Hv)]; [exists v; auto|exists x; auto].
      * intros (x & [<-|Hx] & Hv); [left; congruence|right; exists x; auto].
    + split.
      * intros (x & Hx & Hv). exists x; auto.
      * intros (x & [<-|Hx] & Hv); [congruence|exists x; auto].
    + split.
      * intros (x & Hx & Hv). exists x; auto.
      * intros (x & [<-|Hx] & Hv); [congruence|exists x; auto].
Qed.

(** What [liveVaultEntry] does with a vault, by what its reads return. *)
Lemma liveVaultEntry_cases (cfg : Config) (rpc : Chain) (vault : VaultState) :
  match market_getLatestFTime rpc (marketAddress vault),
        amm_totalSupply rpc (address vault),
        amm_totalSupplyCap rpc (address vault) with
  | Some latestFTime, Some supply, Some cap =>
      if maturity vault <=? latestFTime then liveVaultEntry cfg rpc vault = Ok None
      else
        match isVaultFilled cfg supply cap with
        | Ok true => liveVaultEntry cfg rpc vault = Ok None
        | Ok false =>
            exists e,
              liveVaultEntry cfg rpc vault = Ok (Some e)
              /\ utilization e
                 = (if 0 <? cap then Qmake (Z.quot (supply * 10000) cap) 100 else 0%Q)
              /\ totalSupplyCap (vaultOf e) = cap
              /\ lastKnownTotalSupply (vaultOf e) = supply
              /\ address (vaultOf e) = address vault
        | Thrown => liveVaultEntry cfg rpc vault = Thrown
        end
  | Some latestFTime, _, _ =>
      if maturity vault <=? latestFTime then liveVaultEntry cfg rpc vault = Ok None
      else liveVaultEntry cfg rpc vault = Thrown
  | None, _, _ => liveVaultEntry cfg rpc vault = Thrown
  end.
Proof.
  unfold liveVaultEntry, expired.
  destruct (market_getLatestFTime rpc (marketAddress vault)) as [t|]; simpl; [|reflexivity].
  destruct (amm_totalSupply rpc (address vault)) as [s|],
           (amm_totalSupplyCap rpc (address vault)) as [c|];
    destruct (maturity vault <=? t); simpl; try reflexivity.
  destruct (isVaultFilled cfg s c) as [[|]|]; simpl; try reflexivity.
  eexists. split; [reflexivity|]. simpl. auto.
Qed.

(** C9, as amended.  The live-vault query changes nothing and returns a
    list that holds exactly the entries built from the stored records whose
    reads succeed and which are neither expired (market time at or past
    maturity) nor filled under the supply and cap just read; an entry
    carries those two values and the utilization
    [(supply * 10000 / cap) / 100] with the inner division an integer one
    (the floor, for a non-negative supply), or 0 when the cap is 0; the
    list is in ascending order of that utilization. *)
Theorem getLiveVaults_lists_live_vaults_by_utilization (cfg : Config) (rpc : Chain)
    (w : World) :
  exists live,
    getLiveVaults cfg rpc w = (Ok live, w)
    /\ StronglySorted byUtilization live
    /\ (forall e,
          In e live
          <-> exists vault,
                In vault (StateManager.getAllVaults cfg (Date_now rpc) (stateFile w))
                /\ liveVaultEntry cfg rpc vault = Ok (Some e))
    /\ (forall vault e,
          liveVaultEntry cfg rpc vault = Ok (Some e) ->
          exists latestFTime supply cap,
            market_getLatestFTime rpc (marketAddress vault) = Some latestFTime
            /\ amm_totalSupply rpc (address vault) = Some supply
            /\ amm_totalSupplyCap rpc (address vault) = Some cap
            /\ latestFTime < maturity vault
            /\ isVaultFilled cfg supply cap = Ok false
            /\ utilization e
               = (if 0 <? cap then Qmake (Z.quot (supply * 10000) cap) 100 else 0%Q)
            /\ (0 <= supply ->
                utilization e
                = (if 0 <? cap then Qmake ((supply * 10000) / cap) 100 else 0%Q))
            /\ totalSupplyCap (vaultOf e) = cap
            /\ lastKnownTotalSupply (vaultOf e) = supply
            /\ address (vaultOf e) = address vault)
    /\ (forall vault latestFTime supply cap,
          market_getLatestFTime rpc (marketAddress vault) = Some latestFTime ->
          amm_totalSupply rpc (address vault) = Some supply ->
          amm_totalSupplyCap rpc (address vault) = Some cap ->
          latestFTime < maturity vault ->
          isVaultFilled cfg supply cap = Ok false ->
          exists e, liveVaultEntry cfg rpc vault = Ok (Some e)).
Proof.
  exists (sortByUtilization
            (collectLiveVaults cfg rpc
               (StateManager.getAllVaults cfg (Date_now rpc) (stateFile w)))).
  split; [reflexivity|split; [apply sortByUtilization_sorted|split; [|split]]].
  - intros e. rewrite <- collectLiveVaults_In. split.
    + apply Permutation_in, sortByUtilization_perm.
    + apply Permutation_in. symmetry. apply sortByUtilization_perm.
  - intros vault e He. pose proof (liveVaultEntry_cases cfg rpc vault) as H.
    destruct (market_getLatestFTime rpc (marketAddress vault)) as [t|]; [|congruence].
    destruct (amm_totalSupply rpc (address vault)) as [s|],
             (amm_totalSupplyCap rpc (address vault)) as [c|];
      destruct (Z.leb_spec (maturity vault) t); try congruence.
    destruct (isVaultFilled cfg s c) as [[|]|] eqn:Ef; try congruence.
    destruct H as (e' & He' & Hu & Hc & Hs & Ha).
    assert (e' = e) as -> by congruence.
    exists t, s, c. repeat split; auto.
    intros Hnonneg. rewrite Hu. destruct (Z.ltb_spec 0 c); [|reflexivity].
    now rewrite Z.quot_div_nonneg by lia.
  - intros vault t s c Ht Hs Hc Hlive Hf.
    pose proof (liveVaultEntry_cases cfg rpc vault) as H.
    rewrite Ht, Hs, Hc, Hf in H.
    destruct (Z.leb_spec (maturity vault) t); [lia|].
    destruct H as (e & He & _). now exists e.
Qed.

(** C9 as stated fails: with 1 of a cap of 3 supplied, the entry carries
    the utilization 33.33, not 1/3 * 100; the list is ordered by the carried
    value. *)
Lemma utilization_is_cut_to_basis_points :
  fst (getLiveVaults cfg98 rpcOneThird (worldOf (fileOf [vaultA])))
  = Ok [ {| vaultOf :=
              spread vaultA (mkVaultPatch (Some 3) (Some 1) None None (Some "WBTC"%string));
            depositCurrency := "WBTC"%string;
            utilization := Qmake 3333 100 |} ]
  /\ ~ (Qmake 3333 100 == (1 # 3) * 100)%Q.
Proof.
  split.
  - vm_compute. reflexivity.
  - vm_compute. discriminate.
Qed.

End QueryProperties.

(* ------------------------------------------------------------------ *)
(** ** Further properties of the snapshot store *)

Module StoreExtras.
Import StateManager StateManagerFacts Examples.

Lemma toLowerCase_idempotent (s : string) : toLowerCase (toLowerCase s) = toLowerCase s.
Proof.
  induction s as [|c s IH]; simpl; [reflexivity|]. rewrite IH. f_equal.
  destruct c as [[] [] [] [] [] [] [] []]; reflexivity.
Qed.

Lemma obj_set_NoDup {V : Type} (k : string) (v : V) (o : list (string * V)) :
  NoDup (map fst o) -> NoDup (map fst (obj_set k v o)).
Proof.
  intros Hnd. destruct (in_dec string_dec k (map fst o)) as [Hin|Hout].
  - now rewrite obj_set_keys.
  - rewrite obj_set_fresh by exact Hout. rewrite map_app. simpl.
    apply NoDup_app; [exact Hnd|constructor; [intros []|constructor]|].
    intros x Hx [<-|[]]. contradiction.
Qed.

Lemma obj_get_set_other {V : Type} (k k' : string) (v : V) (o : list (string * V)) :
  k' <> k -> obj_get k' (obj_set k v o) = obj_get k' o.
Proof.
  intros Hne. induction o as [|[k0 v0] o IH]; simpl.
  - destruct (String.eqb_spec k' k); [contradiction|reflexivity].
  - destruct (String.eqb_spec k k0) as [->|Hk]; simpl.
    + destruct (String.eqb_spec k' k0); [contradiction|reflexivity].
    + destruct (String.eqb_spec k' k0); [reflexivity|exact IH].
Qed.

Lemma obj_get_map {V W : Type} (f : V -> W) (k : string) (o : list (string * V)) :
  obj_get k (map (fun kv => (fst kv, f (snd kv))) o) = option_map f (obj_get k o).
Proof.
  induction o as [|[k0 v0] o IH]; simpl; [reflexivity|].
  destruct (String.eqb k k0); [reflexivity|exact IH].
Qed.

Lemma loadVaults_NoDup (now : Z) (entries : list (string * JsonVault))
    (acc r : list (string * VaultState)) :
  NoDup (map fst acc) -> loadVaults now entries acc = Some r -> NoDup (map fst r).
Proof.
  revert acc. induction entries as [|[k j] entries IH]; simpl; intros acc Hnd.
  - now intros [= <-].
  - destruct (loadVault now j) as [v|]; [|discriminate].
    apply IH. now apply obj_set_NoDup.
Qed.

Lemma loadVaults_Forall (P : string * VaultState -> Prop) (now : Z)
    (entries : list (string * JsonVault)) (acc r : list (string * VaultState)) :
  (forall k j v, In (k, j) entries -> loadVault now j = Some v -> forall k', P (k', v)) ->
  Forall P acc -> loadVaults now entries acc = Some r -> Forall P r.
Proof.
  revert acc. induction entries as [|[k j] entries IH]; simpl; intros acc HP Hacc.
  - now intros [= <-].
  - destruct (loadVault now j) as [v|] eqn:E; [|discriminate].
    apply IH.
    + intros k0 j0 v0 Hin. apply (HP k0 j0 v0). now right.
    + apply obj_set_Forall; [|exact Hacc]. apply (HP k j v); [now left|exact E].
Qed.

Lemma loadVault_normal (now : Z) (j : JsonVault) (v : VaultState) :
  now <> 0 -> loadVault now j = Some v -> normal v.
Proof.
  intros Hnow. unfold loadVault.
  destruct (j_totalSupplyCap j) as [c|]; [|discriminate].
  destruct (BigInt_of_string c); [|discriminate].
  destruct (BigInt_of_string (or_str (j_lastKnownTotalSupply j) "0")); [|discriminate].
  destruct (BigInt_of_string (or_str (j_maturity j) "0")); [|discriminate].
  intros [= <-]. split; [|split; [|split; reflexivity]]; simpl.
  - unfold or_num. destruct (j_createdAt j) as [n|]; [|exact Hnow].
    destruct (Z.eqb_spec n 0); assumption.
  - destruct (j_depositTokenSymbol j) as [[|c0 s0]|]; simpl; discriminate.
Qed.

Lemma loadState_normal (cfg : Config) (now : Z) (file : File) :
  now <> 0 -> Forall (fun kv => normal (snd kv)) (vaults (loadState cfg now file)).
Proof.
  intros Hnow. destruct file as [| |parsed]; simpl; try constructor.
  destruct (loadVaults now _ []) as [r|] eqn:E; simpl; [|constructor].
  eapply loadVaults_Forall; [|constructor|exact E].
  intros k j v _ Hv k'. simpl. now apply (loadVault_normal now j).
Qed.

Lemma map_reloaded_normal (now : Z) (l : list (string * VaultState)) :
  Forall (fun kv => normal (snd kv)) l ->
  map (fun kv => (fst kv, reloaded now (snd kv))) l = l.
Proof.
  induction 1 as [|[k v] l (Hc & Hd & Hn & Hs) _ IH]; simpl; [reflexivity|].
  rewrite IH. simpl in Hc, Hd, Hn, Hs. now rewrite reloaded_id.
Qed.

(** Whatever the state file holds, the state [loadState] returns has no two
    vaults under the same address key. *)
Lemma loadState_keys_unique (cfg : Config) (now : Z) (file : File) :
  NoDup (map fst (vaults (loadState cfg now file))).
Proof.
  destruct file as [| |parsed]; simpl; try constructor.
  destruct (loadVaults now _ []) as [r|] eqn:E; simpl; [|constructor].
  eapply loadVaults_NoDup; [|exact E]. constructor.
Qed.

(** X1. Loading is stable under a save: for any state file, saving the
    state that was loaded and loading again (the clock not being 0) gives
    the same state, records and block height. *)
Theorem load_save_load (cfg : Config) (now : Z) (file file' : File) :
  now <> 0 ->
  loadState cfg now (saveState Written file' (loadState cfg now file))
  = loadState cfg now file.
Proof.
  intros Hnow. rewrite loadState_saveState by apply loadState_keys_unique.
  rewrite map_reloaded_normal by now apply loadState_normal.
  now destruct (loadState cfg now file).
Qed.

Lemma load_save_load_witness :
  loadState cfg98 someTime
    (saveState Written NoFile (loadState cfg98 someTime (fileOf [vaultA; vaultFull])))
  = loadState cfg98 someTime (fileOf [vaultA; vaultFull]).
Proof.
  apply (load_save_load cfg98 someTime (fileOf [vaultA; vaultFull]) NoFile).
  discriminate.
Defined.

(** What [addVault] leaves in the file on a writable disk. *)
Lemma loadState_addVault (cfg : Config) (now now' : Z) (v : VaultState) (file : File) :
  loadState cfg now' (addVault cfg now Written v file)
  = {| lastProcessedBlock := lastProcessedBlock (loadState cfg now file);
       vaults :=
         map (fun kv => (fst kv, reloaded now' (snd kv)))
           (obj_set (toLowerCase (address v)) v (vaults (loadState cfg now file))) |}.
Proof.
  unfold addVault. rewrite loadState_saveState; [reflexivity|].
  simpl. apply obj_set_NoDup, loadState_keys_unique.
Qed.

(** X2. Insert, then look up: after [addVault] with the write succeeding,
    [getVault] with the vault's address in any letter case returns the
    vault as the file holds it: the nine members stored as they are, a
    [createdAt] of 0 read as the current time and an empty
    [depositTokenSymbol] as an absent one, and neither
    [depositTokenDecimals] nor [selfAcc], which the file does not hold. *)
Theorem getVault_after_addVault (cfg : Config) (now now' : Z) (v : VaultState)
    (file : File) (addr : string) :
  toLowerCase addr = toLowerCase (address v) ->
  getVault cfg now' addr (addVault cfg now Written v file) = Some (reloaded now' v).
Proof.
  intros Hcase. unfold getVault. rewrite loadState_addVault. simpl.
  rewrite obj_get_map, Hcase, obj_get_set_same. reflexivity.
Qed.

Lemma getVault_after_addVault_witness :
  getVault cfg98 someTime "0XAA01" (addVault cfg98 someTime Written vaultWithSelfAcc NoFile)
  = Some (reloaded someTime vaultWithSelfAcc).
Proof.
  apply (getVault_after_addVault cfg98 someTime someTime vaultWithSelfAcc NoFile "0XAA01").
  reflexivity.
Defined.

(** X3. [addVault] leaves every other vault as it was: whether the write
    succeeds or is refused, a lookup under an address that differs from the
    added one beyond letter case returns what it returned before. *)
Theorem addVault_keeps_other_vaults (cfg : Config) (now : Z) (wr : DiskWrite)
    (v : VaultState) (file : File) (addr : string) :
  wr <> Torn ->
  now <> 0 ->
  toLowerCase addr <> toLowerCase (address v) ->
  getVault cfg now addr (addVault cfg now wr v file) = getVault cfg now addr file.
Proof.
  intros Hwr Hnow Hne. destruct wr; [|reflexivity|contradiction].
  unfold getVault. rewrite loadState_addVault. simpl.
  rewrite obj_get_map, obj_get_set_other by exact Hne.
  destruct (obj_get _ _) as [old|] eqn:E; [|reflexivity]. simpl. f_equal.
  apply obj_get_In in E.
  pose proof (loadState_normal cfg now file Hnow) as Hn.
  rewrite Forall_forall in Hn. destruct (Hn _ E) as (Hc & Hd & Hdec & Hacc).
  now apply reloaded_id.
Qed.

Lemma addVault_keeps_other_vaults_witness :
  getVault cfg98 someTime "0xBb02" (addVault cfg98 someTime Written vaultA (fileOf [vaultFull]))
  = getVault cfg98 someTime "0xBb02" (fileOf [vaultFull]).
Proof.
  apply (addVault_keeps_other_vaults cfg98 someTime Written vaultA (fileOf [vaultFull])
           "0xBb02").
  - discriminate.
  - discriminate.
  - vm_compute. discriminate.
Defined.

Lemma obj_set_keys_congr {V W : Type} (k : string) (v : V) (v' : W)
    (o : list (string * V)) (o' : list (string * W)) :
  map fst o = map fst o' -> map fst (obj_set k v o) = map fst (obj_set k v' o').
Proof.
  intros H. destruct (in_dec string_dec k (map fst o)) as [Hin|Hout].
  - rewrite !obj_set_keys; [exact H|now rewrite <- H|exact Hin].
  - rewrite !obj_set_fresh; [|now rewrite <- H|exact Hout].
    rewrite !map_app. now rewrite H.
Qed.

Lemma loadVault_clock (now now' : Z) (j : JsonVault) :
  loadVault now j = None <-> loadVault now' j = None.
Proof.
  unfold loadVault.
  destruct (j_totalSupplyCap j) as [c|]; [|tauto].
  destruct (BigInt_of_string c); [|tauto].
  destruct (BigInt_of_string (or_str (j_lastKnownTotalSupply j) "0")); [|tauto].
  destruct (BigInt_of_string (or_str (j_maturity j) "0")); [|tauto].
  split; discriminate.
Qed.

Lemma loadVaults_keys_clock (now now' : Z) (entries : list (string * JsonVault))
    (acc acc' : list (string * VaultState)) :
  map fst acc = map fst acc' ->
  match loadVaults now entries acc, loadVaults now' entries acc' with
  | Some r, Some r' => map fst r = map fst r'
  | None, None => True
  | _, _ => False
  end.
Proof.
  revert acc acc'. induction entries as [|[k j] entries IH]; simpl; intros acc acc' H.
  - exact H.
  - pose proof (loadVault_clock now now' j) as Hc.
    destruct (loadVault now j) as [v|], (loadVault now' j) as [v'|].
    + apply IH. now apply obj_set_keys_congr.
    + destruct Hc as [_ Hc]. discriminate (Hc eq_refl).
    + destruct Hc as [Hc _]. discriminate (Hc eq_refl).
    + exact I.
Qed.

(** Which keys the store has does not depend on the clock. *)
Lemma loadState_keys_clock (cfg : Config) (now now' : Z) (file : File) :
  map fst (vaults (loadState cfg now file)) = map fst (vaults (loadState cfg now' file)).
Proof.
  destruct file as [| |parsed]; simpl; try reflexivity.
  set (entries := match j_vaults parsed with Some o => o | None => [] end).
  pose proof (loadVaults_keys_clock now now' entries [] [] eq_refl) as H.
  destruct (loadVaults now entries []), (loadVaults now' entries []);
    simpl; solve [exact H | contradiction | reflexivity].
Qed.

(** What [updateVault] leaves in the file, on a writable disk, for an
    address the store has. *)
Lemma loadState_updateVault (cfg : Config) (now now' : Z) (addr : string)
    (u : VaultPatch) (file : File) (old : VaultState) :
  getVault cfg now addr file = Some old ->
  loadState cfg now' (updateVault cfg now Written addr u file)
  = {| lastProcessedBlock := lastProcessedBlock (loadState cfg now file);
       vaults :=
         map (fun kv => (fst kv, reloaded now' (snd kv)))
           (obj_set (toLowerCase addr) (spread old u) (vaults (loadState cfg now file))) |}.
Proof.
  unfold getVault, updateVault. intros ->.
  rewrite loadState_saveState; [reflexivity|].
  simpl. apply obj_set_NoDup, loadState_keys_unique.
Qed.

(** X4. [updateVault] neither adds nor removes a vault: the address keys
    of the store, and their order, are the same before and after, whether
    the address is known or not and whether the write succeeds or is
    refused; for an address the store does not have, the file is not even
    rewritten. *)
Theorem updateVault_keeps_keys (cfg : Config) (now now' : Z) (wr : DiskWrite)
    (addr : string) (u : VaultPatch) (file : File) :
  wr <> Torn ->
  map fst (vaults (loadState cfg now' (updateVault cfg now wr addr u file)))
  = map fst (vaults (loadState cfg now' file))
  /\ (getVault cfg now addr file = None -> updateVault cfg now wr addr u file = file).
Proof.
  intros Hwr. split.
  - destruct (getVault cfg now addr file) as [old|] eqn:E.
    + destruct wr; [| |contradiction].
      * rewrite (loadState_updateVault cfg now now' addr u file old E). simpl.
        rewrite map_map. simpl.
        rewrite obj_set_keys by (eapply obj_get_keys; exact E).
        apply loadState_keys_clock.
      * unfold updateVault, saveState. now destruct (obj_get _ _).
    + unfold getVault in E. unfold updateVault. now rewrite E.
  - unfold getVault, updateVault. now intros ->.
Qed.

Lemma updateVault_keeps_keys_witness :
  map fst
    (vaults (loadState cfg98 someTime
               (updateVault cfg98 someTime Written "0xBB02"
                  (mkVaultPatch (Some 2000) None None None None)
                  (fileOf [vaultA; vaultFull]))))
  = map fst (vaults (loadState cfg98 someTime (fileOf [vaultA; vaultFull])))
  /\ (getVault cfg98 someTime "0xBB02" (fileOf [vaultA; vaultFull]) = None ->
      updateVault cfg98 someTime Written "0xBB02"
        (mkVaultPatch (Some 2000) None None None None) (fileOf [vaultA; vaultFull])
      = fileOf [vaultA; vaultFull]).
Proof.
  apply (updateVault_keeps_keys cfg98 someTime someTime Written "0xBB02"
           (mkVaultPatch (Some 2000) None None None None) (fileOf [vaultA; vaultFull])).
  discriminate.
Defined.

(** X5. Patch, then look up: after [updateVault] with the write succeeding,
    for an address the store has, a lookup of that address in any letter
    case returns the old record with the patched fields replaced, as the
    file holds it: a patch of [depositTokenDecimals] or [selfAcc] is lost,
    since the file does not hold these two, a patched [createdAt] of 0 is
    read as the current time and a patched empty [depositTokenSymbol] as an
    absent one; a lookup of any other address returns what it returned
    before. *)
Theorem getVault_after_updateVault (cfg : Config) (now : Z) (addr : string)
    (u : VaultPatch) (file : File) (old : VaultState) :
  now <> 0 ->
  getVault cfg now addr file = Some old ->
  (forall addr', toLowerCase addr' = toLowerCase addr ->
     getVault cfg now addr' (updateVault cfg now Written addr u file)
     = Some (reloaded now (spread old u)))
  /\ (forall other, toLowerCase other <> toLowerCase addr ->
       getVault cfg now other (updateVault cfg now Written addr u file)
       = getVault cfg now other file).
Proof.
  intros Hnow Hold. split.
  - intros addr' Hcase. unfold getVault at 1.
    rewrite (loadState_updateVault cfg now now addr u file old Hold). simpl.
    now rewrite obj_get_map, Hcase, obj_get_set_same.
  - intros other Hne. unfold getVault at 1.
    rewrite (loadState_updateVault cfg now now addr u file old Hold). simpl.
    rewrite obj_get_map, obj_get_set_other by exact Hne.
    unfold getVault.
    destruct (obj_get _ _) as [v|] eqn:E; [|reflexivity]. simpl. f_equal.
    apply obj_get_In in E.
    pose proof (loadState_normal cfg now file Hnow) as Hn.
    rewrite Forall_forall in Hn. destruct (Hn _ E) as (Hc & Hd & Hdec & Hacc).
    now apply reloaded_id.
Qed.

Lemma getVault_after_updateVault_witness :
  (forall addr', toLowerCase addr' = toLowerCase "0xBB02" ->
     getVault cfg98 someTime addr'
       (updateVault cfg98 someTime Written "0xBB02"
          patchCapAndAccount (fileOf [vaultA; vaultFull]))
     = Some (reloaded someTime
               (spread vaultFull patchCapAndAccount)))
  /\ (forall other, toLowerCase other <> toLowerCase "0xBB02" ->
       getVault cfg98 someTime other
         (updateVault cfg98 someTime Written "0xBB02"
            patchCapAndAccount (fileOf [vaultA; vaultFull]))
       = getVault cfg98 someTime other (fileOf [vaultA; vaultFull])).
Proof.
  apply (getVault_after_updateVault cfg98 someTime "0xBB02"
           patchCapAndAccount (fileOf [vaultA; vaultFull])
           vaultFull).
  - discriminate.
  - vm_compute. reflexivity.
Defined.

(** How an invariant of the stored records survives the store's writes. *)
Section StoreInvariant.
Variables (cfg : Config) (P : string -> VaultState -> Prop).
Hypothesis P_reloaded : forall k v now, P k v -> P k (reloaded now v).

Lemma obj_set_Forall_key {V : Type} (Q : string * V -> Prop) (k : string) (v : V)
    (o : list (string * V)) :
  Q (k, v) -> Forall Q o -> Forall Q (obj_set k v o).
Proof.
  intros Hv. induction 1 as [|[k' v'] o Hx Ho IH]; simpl.
  - constructor; [exact Hv|constructor].
  - destruct (String.eqb_spec k k') as [<-|Hne]; constructor; auto.
Qed.

Lemma Forall_map_reloaded (now : Z) (l : list (string * VaultState)) :
  Forall (fun kv => P (fst kv) (snd kv)) l ->
  Forall (fun kv => P (fst kv) (snd kv)) (map (fun kv => (fst kv, reloaded now (snd kv))) l).
Proof.
  induction 1 as [|[k v] l Hx _ IH]; simpl; constructor; auto.
  simpl. now apply P_reloaded.
Qed.

Lemma storeInv_addVault (now : Z) (wr : DiskWrite) (v : VaultState) (file : File) :
  P (toLowerCase (address v)) v ->
  storeInv cfg P file -> storeInv cfg P (addVault cfg now wr v file).
Proof.
  intros Hv H now'. destruct wr; [|apply H|constructor].
  rewrite loadState_addVault. simpl. apply Forall_map_reloaded.
  apply obj_set_Forall_key; [exact Hv|apply H].
Qed.

Lemma storeInv_updateVault (now : Z) (wr : DiskWrite) (addr : string) (u : VaultPatch)
    (file : File) :
  (forall old, P (toLowerCase addr) old -> P (toLowerCase addr) (spread old u)) ->
  storeInv cfg P file -> storeInv cfg P (updateVault cfg now wr addr u file).
Proof.
  intros Hu H now'.
  destruct (getVault cfg now addr file) as [old|] eqn:E.
  - destruct wr.
    + rewrite (loadState_updateVault cfg now now' addr u file old E). simpl.
      apply Forall_map_reloaded. apply obj_set_Forall_key; [|apply H].
      apply Hu. specialize (H now). rewrite Forall_forall in H.
      apply (H (toLowerCase addr, old)). now apply obj_get_In.
    + unfold updateVault, saveState. destruct (obj_get _ _); apply H.
    + unfold updateVault, saveState. destruct (obj_get _ _); [constructor|apply H].
  - unfold getVault in E. unfold updateVault. rewrite E. apply H.
Qed.

Lemma storeInv_saveBlock (now : Z) (wr : DiskWrite) (block : Z) (file : File) :
  storeInv cfg P file ->
  storeInv cfg P
    (saveState wr file
       {| lastProcessedBlock := block; vaults := vaults (loadState cfg now file) |}).
Proof.
  intros H now'. destruct wr; [|apply H|constructor].
  rewrite loadState_saveState by apply loadState_keys_unique. simpl.
  apply Forall_map_reloaded, H.
Qed.
End StoreInvariant.

End StoreExtras.

(* ------------------------------------------------------------------ *)
(** ** What every tracker step preserves *)

Module TrackerExtras.
Import StateManagerFacts VaultMonitor Startup TrackerFacts StoreExtras Examples.

Lemma stable_bind_lift (R : World -> World -> Prop) `{!PreOrder R} {A B : Type}
    (r : outcome A) (k : A -> M B) :
  (forall a, r = Ok a -> stable R (k a)) -> stable R (bind (lift r) k).
Proof.
  intros Hk w. unfold bind, lift. destruct r as [a|]; [|reflexivity].
  now apply Hk.
Qed.

Create HintDb writes discriminated.

(** A relation kept by the tracker's elementary writes is kept by every
    step built from them. *)
Section FromWrites.
Variables (cfg : Config) (rpc : Chain) (R : World -> World -> Prop).
Context `{!PreOrder R}.
Hypothesis R_add :
  forall v,
    isVaultFilled cfg (lastKnownTotalSupply v) (totalSupplyCap v) = Ok (isFilled v) ->
    stable R (stateManager_addVault cfg rpc v).
Hypothesis R_patch :
  forall addr cap supply filled checked,
    isVaultFilled cfg supply cap = Ok filled ->
    stable R (stateManager_updateVault cfg rpc addr
                (mkVaultPatch (Some cap) (Some supply) (Some filled) checked None)).
Hypothesis R_symbol :
  forall addr sym,
    stable R (stateManager_updateVault cfg rpc addr
                (mkVaultPatch None None None None (Some sym))).
Hypothesis R_quiet :
  forall f, (forall w, stateFile (f w) = stateFile w) -> stable R (modify f).
Hypothesis R_save :
  forall block w,
    R w (with_stateFile
           (StateManager.saveState (disk_write rpc) (stateFile w)
              {| lastProcessedBlock := block;
                 vaults := vaults (StateManager.loadState cfg (Date_now rpc) (stateFile w)) |})
           w).

Ltac writes_step :=
  first
    [ solve [auto 1 with writes nocore]
    | apply stable_ret; exact _
    | apply stable_call; exact _
    | apply stable_gets; exact _
    | apply R_symbol
    | apply R_patch; assumption
    | apply R_add; assumption
    | apply R_quiet; intros ?; reflexivity
    | apply stable_try_catch
    | apply stable_forEach; [exact _|intros ?]
    | apply stable_bind_lift; [exact _|intros ? ?]
    | apply stable_bind; [exact _| |intros ?]
    | match goal with
      | |- stable _ (if ?b then _ else _) => destruct b
      | |- stable _ (match ?x with _ => _ end) => destruct x
      end ].

Ltac writes_auto := cbv zeta; repeat (writes_step; cbv zeta).

Lemma writes_onAMMCreated event : stable R (onAMMCreated cfg rpc event).
Proof. unfold onAMMCreated. writes_auto. Qed.
#[local] Hint Resolve writes_onAMMCreated : writes.

Lemma writes_monitorNewVaults fromBlock toBlock :
  stable R (monitorNewVaults cfg rpc fromBlock toBlock).
Proof. unfold monitorNewVaults, queryFilter. writes_auto. Qed.

Lemma writes_onCapUpdated vault event : stable R (onCapUpdated cfg rpc vault event).
Proof. unfold onCapUpdated. writes_auto. Qed.
#[local] Hint Resolve writes_onCapUpdated : writes.

Lemma writes_capUpdatesOf fromBlock toBlock vault :
  stable R (capUpdatesOf cfg rpc fromBlock toBlock vault).
Proof. unfold capUpdatesOf, queryFilter. writes_auto. Qed.

Lemma writes_capUpdatesLoop fromBlock toBlock vaults0 :
  stable R (capUpdatesLoop cfg rpc fromBlock toBlock vaults0).
Proof.
  induction vaults0 as [|vault rest IH]; simpl.
  - apply stable_ret. exact _.
  - intros w. pose proof (writes_capUpdatesOf fromBlock toBlock vault w) as H1.
    destruct (capUpdatesOf cfg rpc fromBlock toBlock vault w) as [[[|]|] w1];
      simpl in *; try exact H1.
    + etransitivity; [exact H1|apply IH].
    + etransitivity; [exact H1|apply IH].
Qed.
#[local] Hint Resolve writes_capUpdatesLoop : writes.

Lemma writes_monitorCapUpdates fromBlock toBlock :
  stable R (monitorCapUpdates cfg rpc fromBlock toBlock).
Proof. unfold monitorCapUpdates. writes_auto. Qed.

Lemma writes_backfillTokenSymbol vault : stable R (backfillTokenSymbol cfg rpc vault).
Proof. unfold backfillTokenSymbol. writes_auto. Qed.
#[local] Hint Resolve writes_backfillTokenSymbol : writes.

Lemma writes_checkVaultStatus vault : stable R (checkVaultStatus cfg rpc vault).
Proof. unfold checkVaultStatus. writes_auto. Qed.
#[local] Hint Resolve writes_checkVaultStatus : writes.

Lemma writes_checkAllVaultStatuses : stable R (checkAllVaultStatuses cfg rpc).
Proof. unfold checkAllVaultStatuses. writes_auto. Qed.

Lemma writes_steps fromBlock toBlock : stable R (steps cfg rpc fromBlock toBlock).
Proof.
  unfold steps.
  apply stable_bind; [exact _|apply writes_monitorNewVaults|intros _].
  apply stable_bind; [exact _|apply writes_monitorCapUpdates|intros _].
  apply stable_bind; [exact _|apply stable_gets; exact _|intros lastCheck].
  destruct (_ <=? _).
  - apply stable_bind; [exact _|apply writes_checkAllVaultStatuses|intros _].
    now apply R_quiet.
  - apply stable_ret. exact _.
Qed.

Lemma writes_monitorPass : stable R (monitorPass cfg rpc).
Proof.
  intros w. rewrite monitorPass_steps. rewrite CacheProperties.snd_try_catch.
  unfold bind at 1, call. destruct (getBlockNumber rpc) as [cur|]; [|reflexivity].
  unfold bind at 1, stateManager_loadState at 1, gets at 1. cbv zeta.
  destruct (_ <=? cur); [|reflexivity].
  set (from := lastProcessedBlock _ + 1).
  unfold bind at 1.
  destruct (noThrow_run (steps cfg rpc from cur) w (noThrow_steps cfg rpc from cur))
    as [[] ->].
  etransitivity; [apply writes_steps|]. apply R_save.
Qed.

Lemma writes_onBackfillEvent event : stable R (onBackfillEvent cfg rpc event).
Proof. unfold onBackfillEvent. writes_auto. Qed.
#[local] Hint Resolve writes_onBackfillEvent : writes.

Lemma writes_backfillVaults : stable R (backfillVaults cfg rpc).
Proof. unfold backfillVaults, queryFilter. writes_auto. Qed.
#[local] Hint Resolve writes_backfillVaults : writes.

Lemma writes_loadExistingVaults : stable R (loadExistingVaults cfg rpc).
Proof. unfold loadExistingVaults. writes_auto. Qed.

End FromWrites.

#[export] Instance keeps_preorder cfg P : PreOrder (keeps cfg P).
Proof.
  split.
  - intros w H. exact H.
  - intros a b c Hab Hbc H. apply Hbc, Hab, H.
Qed.

#[export] Instance leaves_preorder {X : Type} (part : World -> X) : PreOrder (leaves part).
Proof.
  split.
  - intros w. reflexivity.
  - intros a b c Hab Hbc. unfold leaves in *. congruence.
Qed.

(** The two loops of the program: start-up against [rpc0], then one pass
    per poll. *)
Lemma stable_monitor (cfg : Config) (R : World -> World -> Prop) `{!PreOrder R}
    (polls : list Chain) :
  Forall (fun rpc => stable R (monitorPass cfg rpc)) polls ->
  forall w, R w (monitor cfg polls w).
Proof.
  induction 1 as [|rpc later Hrpc _ IH]; intros w; simpl; [reflexivity|].
  etransitivity; [apply Hrpc|apply IH].
Qed.

(** An invariant of the stored records that the tracker's writes respect
    is kept by start-up and by every pass. *)
Section KeepsInvariant.
Variables (cfg : Config) (P : string -> VaultState -> Prop).
Hypothesis P_reloaded : forall k v now, P k v -> P k (StateManager.reloaded now v).
Hypothesis P_fresh :
  forall v,
    isVaultFilled cfg (lastKnownTotalSupply v) (totalSupplyCap v) = Ok (isFilled v) ->
    P (toLowerCase (address v)) v.
Hypothesis P_patch :
  forall k old cap supply filled checked,
    isVaultFilled cfg supply cap = Ok filled ->
    P k old ->
    P k (spread old (mkVaultPatch (Some cap) (Some supply) (Some filled) checked None)).
Hypothesis P_symbol :
  forall k old sym, P k old -> P k (spread old (mkVaultPatch None None None None (Some sym))).

Lemma keeps_monitorPass (rpc : Chain) : stable (keeps cfg P) (monitorPass cfg rpc).
Proof.
  apply writes_monitorPass; try exact _.
  - intros v Hv. apply stable_modify. intros w H. simpl.
    apply storeInv_addVault; auto.
  - intros addr cap supply filled checked Hf. apply stable_modify. intros w H. simpl.
    apply storeInv_updateVault; eauto.
  - intros addr sym. apply stable_modify. intros w H. simpl.
    apply storeInv_updateVault; auto.
    intros old Ho. exact (P_symbol _ old sym Ho).
  - intros f Hf. apply stable_modify. intros w H. now rewrite Hf.
  - intros block w H. simpl. now apply storeInv_saveBlock.
Qed.

Lemma keeps_loadExistingVaults (rpc : Chain) :
  stable (keeps cfg P) (loadExistingVaults cfg rpc).
Proof.
  apply writes_loadExistingVaults; try exact _.
  - intros v Hv. apply stable_modify. intros w H. simpl.
    apply storeInv_addVault; auto.
  - intros addr cap supply filled checked Hf. apply stable_modify. intros w H. simpl.
    apply storeInv_updateVault; eauto.
  - intros addr sym. apply stable_modify. intros w H. simpl.
    apply storeInv_updateVault; auto.
    intros old Ho. exact (P_symbol _ old sym Ho).
  - intros f Hf. apply stable_modify. intros w H. now rewrite Hf.
Qed.

Lemma keeps_run (rpc0 : Chain) (polls : list Chain) (w : World) :
  storeInv cfg P (stateFile w) ->
  storeInv cfg P (stateFile (monitor cfg polls (snd (loadExistingVaults cfg rpc0 w)))).
Proof.
  intros H.
  apply (stable_monitor cfg (keeps cfg P) polls).
  - apply Forall_forall. intros rpc _. apply keeps_monitorPass.
  - now apply keeps_loadExistingVaults.
Qed.
End KeepsInvariant.

(** X6. Address keys stay normalized: if every record of the store is
    under the lower-cased form of its own address (as in an empty store),
    then so is every record after start-up and any number of passes of the
    monitor loop, whatever the chain answers; in particular every key is
    lower-case. *)
Theorem store_keys_stay_lowercased_addresses (cfg : Config) (rpc0 : Chain)
    (polls : list Chain) (w : World) :
  storeInv cfg keyedByAddress (stateFile w) ->
  storeInv cfg keyedByAddress
    (stateFile (monitor cfg polls (snd (loadExistingVaults cfg rpc0 w))))
  /\ forall now key v,
       In (key, v)
         (vaults (StateManager.loadState cfg now
                    (stateFile (monitor cfg polls (snd (loadExistingVaults cfg rpc0 w))))))
       -> toLowerCase key = key /\ key = toLowerCase (address v).
Proof.
  intros H.
  assert (storeInv cfg keyedByAddress
            (stateFile (monitor cfg polls (snd (loadExistingVaults cfg rpc0 w))))) as H'.
  { apply keeps_run; auto; unfold keyedByAddress; intros; simpl; auto. }
  split; [exact H'|].
  intros now key v Hin. specialize (H' now). rewrite Forall_forall in H'.
  specialize (H' _ Hin). unfold keyedByAddress in H'. simpl in H'.
  split; [|exact H']. rewrite H'. apply toLowerCase_idempotent.
Qed.

Lemma store_keys_stay_lowercased_addresses_witness :
  storeInv cfg98 keyedByAddress
    (stateFile (monitor cfg98 [rpcFailing; rpcRecovered]
                  (snd (loadExistingVaults cfg98 rpcRecovered MoreExamples.wFresh)))).
Proof.
  apply (store_keys_stay_lowercased_addresses cfg98 rpcRecovered [rpcFailing; rpcRecovered]
           MoreExamples.wFresh).
  intros now. constructor.
Defined.

(** X7. The stored fill flag is never stale with respect to the stored
    numbers: if every record's [isFilled] equals the filled predicate on
    the record's own supply and cap, then this still holds after start-up
    and any number of passes of the monitor loop, whatever the chain
    answers. *)
Theorem stored_fill_flag_matches_stored_numbers (cfg : Config) (rpc0 : Chain)
    (polls : list Chain) (w : World) :
  storeInv cfg (flagFromFields cfg) (stateFile w) ->
  storeInv cfg (flagFromFields cfg)
    (stateFile (monitor cfg polls (snd (loadExistingVaults cfg rpc0 w)))).
Proof.
  intros H. apply keeps_run; auto; unfold flagFromFields; intros; simpl; auto.
Qed.

Lemma stored_fill_flag_matches_stored_numbers_witness :
  storeInv cfg98 (flagFromFields cfg98)
    (stateFile (monitor cfg98 [rpcCapRaised; rpcSupplyMoved]
                  (snd (loadExistingVaults cfg98 rpcRecovered
                          (worldOf (fileOf [vaultA; vaultFull])))))).
Proof.
  apply (stored_fill_flag_matches_stored_numbers cfg98 rpcRecovered
           [rpcCapRaised; rpcSupplyMoved] (worldOf (fileOf [vaultA; vaultFull]))).
  intros now. repeat constructor.
Defined.

End TrackerExtras.

(* ------------------------------------------------------------------ *)
(** ** Further properties of the tracker's steps *)

Module StepExtras.
Import StateManagerFacts VaultMonitor Startup TrackerFacts StoreExtras TrackerExtras Examples.

(** Steps whose writes all leave one component of the world alone. *)
Ltac leaves_step :=
  first
    [ solve [auto 1 with leavesdb nocore]
    | apply stable_ret; exact _
    | apply stable_call; exact _
    | apply stable_lift; exact _
    | apply stable_gets; exact _
    | apply stable_modify; intros ?; unfold leaves; reflexivity
    | apply stable_try_catch
    | apply stable_forEach; [exact _|intros ?]
    | apply stable_bind; [exact _| |intros ?]
    | match goal with
      | |- stable _ (if ?b then _ else _) => destruct b
      | |- stable _ (match ?x with _ => _ end) => destruct x
      end ].

Ltac leaves_auto := cbv zeta; repeat (leaves_step; cbv zeta).

Create HintDb leavesdb discriminated.

Lemma stable_capUpdatesLoop_of (cfg : Config) (rpc : Chain) (R : World -> World -> Prop)
    `{!PreOrder R} (fromBlock toBlock : Z) (vaults0 : list VaultState) :
  (forall vault, stable R (capUpdatesOf cfg rpc fromBlock toBlock vault)) ->
  stable R (capUpdatesLoop cfg rpc fromBlock toBlock vaults0).
Proof.
  intros Hof. induction vaults0 as [|vault rest IH]; simpl.
  - apply stable_ret. exact _.
  - intros w. pose proof (Hof vault w) as H1.
    destruct (capUpdatesOf cfg rpc fromBlock toBlock vault w) as [[[|]|] w1];
      simpl in *; try exact H1.
    + etransitivity; [exact H1|apply IH].
    + etransitivity; [exact H1|apply IH].
Qed.

(** X9. The filled predicate is monotone: for a non-negative supply and a
    positive cap, a vault that is filled stays filled when the supply grows
    or the cap shrinks (staying positive). *)
Theorem isVaultFilled_monotone (cfg : Config) (supply supply' cap cap' : Z) :
  0 <= supply <= supply' ->
  0 < cap' <= cap ->
  isVaultFilled cfg supply cap = Ok true ->
  isVaultFilled cfg supply' cap' = Ok true.
Proof.
  intros Hs Hc. unfold isVaultFilled.
  destruct (Z.eqb_spec cap 0); [lia|]. destruct (Z.eqb_spec cap' 0); [lia|].
  destruct (thresholdBasisPoints cfg) as [t|]; [|discriminate].
  intros [= H]. f_equal. apply Z.leb_le in H. apply Z.leb_le.
  etransitivity; [exact H|].
  rewrite !Z.quot_div_nonneg by lia.
  etransitivity; [apply (Z.div_le_mono _ (supply' * 10000) cap); lia|].
  apply Z.div_le_compat_l; lia.
Qed.

Lemma isVaultFilled_monotone_witness : isVaultFilled cfg98 995 900 = Ok true.
Proof.
  apply (isVaultFilled_monotone cfg98 980 995 1000 900).
  - lia.
  - lia.
  - vm_compute. reflexivity.
Defined.

Lemma stable_try_catch_with (R : World -> World -> Prop) `{!PreOrder R} (m handler : M unit) :
  stable R m -> stable R handler -> stable R (try_catch_with m handler).
Proof.
  intros Hm Hh w. unfold try_catch_with. specialize (Hm w).
  destruct (m w) as [[a|] w1]; simpl in *; [exact Hm|].
  etransitivity; [exact Hm|apply Hh].
Qed.

(** The command leaves alone every component of the world but the cache
    and the replies. *)
Ltac command_leaves :=
  unfold handleLiveVaultsCommand, handleLiveVaultsCommandDuring, getLiveVaults,
    stateManager_getAllVaults, sendMessage;
  apply stable_try_catch_with; [exact _| |];
  cbv zeta;
  repeat first
    [ apply stable_ret; exact _
    | apply stable_gets; exact _
    | apply stable_modify; intros ?; unfold leaves; reflexivity
    | apply stable_bind; [exact _| |intros ?]
    | match goal with
      | |- stable _ (fun w => if ?b then _ else _) =>
          intros ?; unfold leaves; destruct b; reflexivity
      | |- stable _ (if ?b then _ else _) => destruct b
      | |- stable _ (match ?x with _ => _ end) => destruct x
      end ].

Lemma leaves_stateFile_command (cfg : Config) (rpc : Chain)
    (format : list LiveVault -> string) :
  stable (leaves stateFile) (handleLiveVaultsCommand cfg rpc format).
Proof. command_leaves. Qed.

Lemma leaves_notifications_command (cfg : Config) (rpc : Chain)
    (format : list LiveVault -> string) :
  stable (leaves notifications) (handleLiveVaultsCommand cfg rpc format).
Proof. command_leaves. Qed.

Lemma leaves_logQueries_command (cfg : Config) (rpc : Chain)
    (format : list LiveVault -> string) :
  stable (leaves logQueries) (handleLiveVaultsCommand cfg rpc format).
Proof. command_leaves. Qed.

Lemma leaves_lastStatusCheckBlock_command (cfg : Config) (rpc : Chain)
    (format : list LiveVault -> string) :
  stable (leaves lastStatusCheckBlock) (handleLiveVaultsCommand cfg rpc format).
Proof. command_leaves. Qed.

(** X10. The live-vaults command is a read-only view of the tracker:
    whether its replies are delivered or not, it changes neither the state
    file nor the notifications sent, the log queries issued or the block of
    the last status sweep; only the cache and the chat replies change.  The
    handler rejects only when the error reply itself cannot be delivered. *)
Theorem live_vaults_command_is_read_only (cfg : Config) (rpc : Chain)
    (format : list LiveVault -> string) (w : World) :
  stateFile (snd (handleLiveVaultsCommand cfg rpc format w)) = stateFile w
  /\ notifications (snd (handleLiveVaultsCommand cfg rpc format w)) = notifications w
  /\ logQueries (snd (handleLiveVaultsCommand cfg rpc format w)) = logQueries w
  /\ lastStatusCheckBlock (snd (handleLiveVaultsCommand cfg rpc format w))
     = lastStatusCheckBlock w
  /\ (fst (handleLiveVaultsCommand cfg rpc format w) = Ok tt
      \/ sendMessage_ok rpc "❌ Error fetching vaults. Please try again later." = false).
Proof.
  split; [apply leaves_stateFile_command|].
  split; [apply leaves_notifications_command|].
  split; [apply leaves_logQueries_command|].
  split; [apply leaves_lastStatusCheckBlock_command|].
  unfold handleLiveVaultsCommand, handleLiveVaultsCommandDuring, try_catch_with.
  match goal with
  | |- fst (let (_, _) := ?m in _) = _ \/ _ => destruct m as [[[]|] w1]
  end.
  - now left.
  - unfold sendMessage. destruct (sendMessage_ok rpc _); [now left|now right].
Qed.

(** X11. The cache of the live-vaults command, the replies being
    delivered: when a command finds the cache empty, it replies with a
    freshly built text; a second command less than 30 seconds later (by the
    clock) gets exactly that text again as its only reply, whatever the chain
    answers by then, provided the text is not empty; a second command 30
    seconds later or more starts over with the fetching notice. *)
Theorem live_vaults_reply_is_cached_for_ttl (cfg : Config) (rpc rpc' : Chain)
    (format : list LiveVault -> string) (w : World) :
  invalidated w ->
  (forall live, format live <> EmptyString) ->
  (forall text, sendMessage_ok rpc text = true) ->
  (forall text, sendMessage_ok rpc' text = true) ->
  exists text,
    replies (snd (handleLiveVaultsCommand cfg rpc format w))
    = replies w ++ ["📊 Fetching live vaults..."%string; text]
    /\ (Date_now rpc' - Date_now rpc < 30000 ->
        snd (handleLiveVaultsCommand cfg rpc' format
               (snd (handleLiveVaultsCommand cfg rpc format w)))
        = with_reply text (snd (handleLiveVaultsCommand cfg rpc format w)))
    /\ (30000 <= Date_now rpc' - Date_now rpc ->
        exists text',
          replies
            (snd (handleLiveVaultsCommand cfg rpc' format
                    (snd (handleLiveVaultsCommand cfg rpc format w))))
          = replies w
            ++ ["📊 Fetching live vaults..."%string; text;
                "📊 Fetching live vaults..."%string; text']).
Proof.
  intros Hinv Hformat Hok Hok'.
  set (text := freshReply cfg rpc format w).
  assert (text <> EmptyString) as Htext.
  { unfold text, freshReply. destruct (sortByUtilization _); [discriminate|apply Hformat]. }
  exists text.
  rewrite (CacheProperties.command_on_empty_cache cfg rpc format w Hinv Hok).
  fold text. cbn [snd]. clearbody text. split; [|split].
  - simpl. now rewrite <- app_assoc.
  - intros Hage.
    unfold handleLiveVaultsCommand, handleLiveVaultsCommandDuring, try_catch_with.
    unfold bind at 1, gets at 1. unfold bind at 1, gets at 1.
    cbn [cachedLiveVaultsMessage cachedLiveVaultsTimestamp with_reply with_cache].
    assert (truthy (Some text) = true) as ->.
    { destruct text; [contradiction|reflexivity]. }
    unfold LIVE_VAULTS_CACHE_TTL_MS.
    destruct (Z.ltb_spec (Date_now rpc' - Date_now rpc) 30000); [|lia].
    cbn [andb]. rewrite CacheProperties.sendMessage_delivered by apply Hok'. cbn [snd].
    destruct text; [contradiction|reflexivity].
  - intros Hage.
    unfold handleLiveVaultsCommand, handleLiveVaultsCommandDuring, try_catch_with.
    unfold bind at 1, gets at 1. unfold bind at 1, gets at 1.
    cbn [cachedLiveVaultsMessage cachedLiveVaultsTimestamp with_reply with_cache].
    unfold LIVE_VAULTS_CACHE_TTL_MS.
    destruct (Z.ltb_spec (Date_now rpc' - Date_now rpc) 30000); [lia|].
    rewrite andb_false_r.
    unfold bind at 1. rewrite CacheProperties.sendMessage_delivered by apply Hok'.
    unfold bind at 1, modify at 1.
    unfold bind at 1, getLiveVaults, bind at 1, stateManager_getAllVaults, gets, ret.
    unfold bind at 1, modify at 1.
    destruct (sortByUtilization _); cbv zeta; unfold bind, modify;
      rewrite CacheProperties.sendMessage_delivered by apply Hok';
      eexists; simpl; rewrite <- !app_assoc; reflexivity.
Qed.

Lemma live_vaults_reply_is_cached_for_ttl_witness :
  exists text,
    replies (snd (handleLiveVaultsCommand cfg98 rpcOneThird (fun _ => "list"%string)
                    (worldOf (fileOf [vaultA]))))
    = replies (worldOf (fileOf [vaultA])) ++ ["📊 Fetching live vaults..."%string; text].
Proof.
  destruct (live_vaults_reply_is_cached_for_ttl cfg98 rpcOneThird rpcSupplyMoved
              (fun _ => "list"%string) (worldOf (fileOf [vaultA])))
    as (text & H & _).
  - split; reflexivity.
  - discriminate.
  - reflexivity.
  - reflexivity.
  - exists text. exact H.
Defined.

Lemma firstn_skipn_batches {A : Type} (size : nat) (l : list A) (fuel : nat) :
  (0 < size)%nat -> (List.length l <= fuel)%nat ->
  List.concat (batches fuel size l) = l
  /\ Forall (fun b => (1 <= List.length b <= size)%nat) (batches fuel size l).
Proof.
  intros Hsize. revert l. induction fuel as [|fuel IH]; intros l Hl.
  - destruct l; [split; [reflexivity|constructor]|simpl in Hl; lia].
  - destruct l as [|x l]; [split; [reflexivity|constructor]|].
    cbn [batches].
    destruct (IH (skipn size (x :: l))) as [Hc Hb].
    { rewrite length_skipn. cbn [List.length] in *. lia. }
    split.
    + cbn [List.concat]. rewrite Hc. apply firstn_skipn.
    + constructor; [|exact Hb]. rewrite length_firstn. cbn [List.length]. lia.
Qed.

(** X12. The batches of the status sweep cut the list of stored vaults
    without loss: in order they make up the whole list again, and every
    batch holds at least one vault and at most [BATCH_SIZE] of them. *)
Theorem sweep_batches_partition_the_vaults (allVaults : list VaultState) :
  List.concat (batches (List.length allVaults) BATCH_SIZE allVaults) = allVaults
  /\ Forall (fun batch => (1 <= List.length batch <= BATCH_SIZE)%nat)
       (batches (List.length allVaults) BATCH_SIZE allVaults).
Proof.
  apply firstn_skipn_batches; [unfold BATCH_SIZE; lia|lia].
Qed.

Lemma leaves_logQueries_onCapUpdated (cfg : Config) (rpc : Chain) (vault : VaultState)
    (event : LogEntry (list Z)) :
  stable (leaves logQueries) (onCapUpdated cfg rpc vault event).
Proof. unfold onCapUpdated. leaves_auto. Qed.

(** The [try] block of the cap-update loop at a vault that is not found
    expired: its log is queried, and the loop goes on. *)
Lemma capUpdatesOf_queries (cfg : Config) (rpc : Chain) (fromBlock toBlock : Z)
    (vault : VaultState) (w : World) :
  (forall t, market_getLatestFTime rpc (marketAddress vault) = Some t -> t < maturity vault) ->
  logQueries (snd (capUpdatesOf cfg rpc fromBlock toBlock vault w))
  = logQueries w ++ [QueryCapUpdated (address vault) fromBlock toBlock]
  /\ fst (capUpdatesOf cfg rpc fromBlock toBlock vault w) <> Ok Return.
Proof.
  intros Hlive.
  remember (capUpdatesOf cfg rpc fromBlock toBlock vault w) as r eqn:Hr. revert Hr.
  unfold capUpdatesOf, queryFilter.
  unfold bind at 1. unfold bind at 1, modify at 1, call at 1.
  destruct (TotalSupplyCapUpdated_logs rpc (address vault) fromBlock toBlock) as [events|];
    [|intros ->; split; [reflexivity|discriminate]].
  unfold bind at 1, call at 1.
  destruct (market_getLatestFTime rpc (marketAddress vault)) as [t|] eqn:Et;
    [|intros ->; split; [reflexivity|discriminate]].
  unfold expired. destruct (Z.leb_spec (maturity vault) t) as [Hexp|_].
  - specialize (Hlive t eq_refl). lia.
  - set (w1 := with_logQuery _ w).
    pose proof (stable_forEach (leaves logQueries) events (onCapUpdated cfg rpc vault)
                  (leaves_logQueries_onCapUpdated cfg rpc vault) w1) as Hq.
    unfold leaves in Hq. unfold bind.
    destruct (forEach events (onCapUpdated cfg rpc vault) w1) as [[[]|] w2];
      intros ->; simpl in *; (split; [exact Hq|discriminate]).
Qed.

(** X13. When no stored vault is found expired, cap-update detection
    queries the cap-changed log of every stored vault, once and in store
    order, whatever else fails on the way: a rejected log query or a
    rejected read for one vault does not keep the later vaults from being
    queried. *)
Theorem cap_updates_query_every_vault_unless_expired (cfg : Config) (rpc : Chain)
    (fromBlock toBlock : Z) (w : World) :
  (forall vault t,
     In vault (StateManager.getAllVaults cfg (Date_now rpc) (stateFile w)) ->
     market_getLatestFTime rpc (marketAddress vault) = Some t ->
     t < maturity vault) ->
  logQueries (snd (monitorCapUpdates cfg rpc fromBlock toBlock w))
  = logQueries w
    ++ map (fun vault => QueryCapUpdated (address vault) fromBlock toBlock)
         (StateManager.getAllVaults cfg (Date_now rpc) (stateFile w)).
Proof.
  unfold monitorCapUpdates, bind, stateManager_getAllVaults, gets.
  generalize (StateManager.getAllVaults cfg (Date_now rpc) (stateFile w)) as l.
  intros l. generalize w as w0. induction l as [|vault rest IH]; intros w0 Hlive.
  - simpl. now rewrite app_nil_r.
  - cbn [capUpdatesLoop map].
    destruct (capUpdatesOf_queries cfg rpc fromBlock toBlock vault w0) as [Hq Hr].
    { intros t. apply Hlive. now left. }
    destruct (capUpdatesOf cfg rpc fromBlock toBlock vault w0) as [[[|]|] w1];
      simpl in Hq, Hr; try congruence.
    + rewrite IH by (intros v t Hin; apply Hlive; now right).
      rewrite Hq, <- app_assoc. reflexivity.
    + rewrite IH by (intros v t Hin; apply Hlive; now right).
      rewrite Hq, <- app_assoc. reflexivity.
Qed.

Lemma cap_updates_query_every_vault_unless_expired_witness :
  logQueries (snd (monitorCapUpdates cfg98 rpcCapRaised 101 110
                     (worldOf (fileOf [vaultA; vaultFull]))))
  = logQueries (worldOf (fileOf [vaultA; vaultFull]))
    ++ map (fun vault => QueryCapUpdated (address vault) 101 110)
         (StateManager.getAllVaults cfg98 (Date_now rpcCapRaised)
            (stateFile (worldOf (fileOf [vaultA; vaultFull])))).
Proof.
  apply (cap_updates_query_every_vault_unless_expired cfg98 rpcCapRaised 101 110
           (worldOf (fileOf [vaultA; vaultFull]))).
  intros vault t Hin [= <-].
  vm_compute in Hin. destruct Hin as [<-|[<-|[]]]; reflexivity.
Defined.

(** X14. In new-vault detection one failure ends the batch: when a read of
    the name, symbol, cap, supply, maturity or market of a vault the store
    does not have is rejected, the error is caught outside the loop, so the
    events after it in the same log answer are not processed either;
    nothing is stored or sent. *)
Theorem new_vault_read_failure_drops_rest_of_batch (cfg : Config) (rpc : Chain)
    (fromBlock toBlock blockNumber : Z) (ammAddress : string)
    (rest : list (LogEntry string)) (w : World) :
  AMMCreated_logs rpc fromBlock toBlock = Some (EventLog blockNumber ammAddress :: rest) ->
  StateManager.getVault cfg (Date_now rpc) ammAddress (stateFile w) = None ->
  amm_name rpc ammAddress = None \/ amm_symbol rpc ammAddress = None
  \/ amm_totalSupplyCap rpc ammAddress = None \/ amm_totalSupply rpc ammAddress = None
  \/ amm_MATURITY rpc ammAddress = None \/ amm_MARKET rpc ammAddress = None ->
  monitorNewVaults cfg rpc fromBlock toBlock w
  = (Ok tt, with_logQuery (QueryAMMCreated fromBlock toBlock) w).
Proof.
  intros Hev Hnew Hfail.
  unfold monitorNewVaults, try_catch, queryFilter.
  unfold bind at 1. unfold bind at 1, modify at 1, call at 1. rewrite Hev.
  cbn [forEach]. unfold bind at 1. unfold onAMMCreated.
  unfold bind at 1, stateManager_getVault, gets.
  cbn [stateFile with_logQuery]. rewrite Hnew.
  unfold bind at 1, call at 1.
  destruct (amm_name rpc ammAddress); [|reflexivity].
  unfold bind at 1, call at 1.
  destruct (amm_symbol rpc ammAddress); [|reflexivity].
  unfold bind at 1, call at 1.
  destruct (amm_totalSupplyCap rpc ammAddress); [|reflexivity].
  unfold bind at 1, call at 1.
  destruct (amm_totalSupply rpc ammAddress); [|reflexivity].
  unfold bind at 1, call at 1.
  destruct (amm_MATURITY rpc ammAddress); [|reflexivity].
  unfold bind at 1, call at 1.
  destruct (amm_MARKET rpc ammAddress); [|reflexivity].
  destruct Hfail as [H|[H|[H|[H|[H|H]]]]]; discriminate H.
Qed.

Lemma new_vault_read_failure_drops_rest_of_batch_witness :
  monitorNewVaults cfg98 MoreExamples.rpcNoCap 101 120 w100
  = (Ok tt, with_logQuery (QueryAMMCreated 101 120) w100).
Proof.
  apply (new_vault_read_failure_drops_rest_of_batch cfg98 MoreExamples.rpcNoCap
           101 120 105 "0xAa01"%string [] w100).
  - reflexivity.
  - reflexivity.
  - right. right. left. reflexivity.
Defined.

(** X15. A creation event for a vault the store does not have, with every
    read answered and a writable disk: the record built from the reads is
    stored and found again under the event's address, the cache is
    invalidated, and exactly one new-vault notification carrying the
    record and its fill flag is sent, or none when the market time has
    reached the maturity. *)
Theorem new_vault_is_stored_and_announced_once (cfg : Config) (rpc : Chain) (w : World)
    (blockNumber cap supply maturity0 latestFTime : Z)
    (ammAddress name0 symbol0 market : string) (filled : bool) :
  StateManager.getVault cfg (Date_now rpc) ammAddress (stateFile w) = None ->
  amm_name rpc ammAddress = Some name0 ->
  amm_symbol rpc ammAddress = Some symbol0 ->
  amm_totalSupplyCap rpc ammAddress = Some cap ->
  amm_totalSupply rpc ammAddress = Some supply ->
  amm_MATURITY rpc ammAddress = Some maturity0 ->
  amm_MARKET rpc ammAddress = Some market ->
  market_getLatestFTime rpc market = Some latestFTime ->
  isVaultFilled cfg supply cap = Ok filled ->
  disk_write rpc = Written ->
  let vault :=
    {| address := ammAddress;
       name := name0;
       symbol := symbol0;
       totalSupplyCap := cap;
       lastKnownTotalSupply := supply;
       isFilled := filled;
       maturity := maturity0;
       marketAddress := market;
       lastCheckedBlock := blockNumber;
       createdAt := Date_now rpc;
       depositTokenSymbol := or_undefined (fetchDepositTokenSymbol rpc market);
       depositTokenDecimals := None;
       selfAcc := None |} in
  exists w',
    onAMMCreated cfg rpc (EventLog blockNumber ammAddress) w = (Ok tt, w')
    /\ notifications w'
       = notifications w
         ++ (if maturity0 <=? latestFTime then [] else [NewVault vault filled])
    /\ invalidated w'
    /\ forall now,
         StateManager.getVault cfg now ammAddress (stateFile w')
         = Some (StateManager.reloaded now vault).
Proof.
  intros Hnew Hn Hsy Hc Hs Hm Hmk Ht Hf Hwr vault.
  unfold onAMMCreated.
  unfold bind at 1, stateManager_getVault, gets. rewrite Hnew.
  unfold bind at 1, call at 1. rewrite Hn.
  unfold bind at 1, call at 1. rewrite Hsy.
  unfold bind at 1, call at 1. rewrite Hc.
  unfold bind at 1, call at 1. rewrite Hs.
  unfold bind at 1, call at 1. rewrite Hm.
  unfold bind at 1, call at 1. rewrite Hmk.
  unfold bind at 1, call at 1. rewrite Ht.
  unfold bind at 1, lift at 1. rewrite Hf.
  cbv zeta. fold vault.
  unfold bind at 1, stateManager_addVault, modify at 1.
  unfold bind at 1, invalidateLiveVaultsCache, modify at 1.
  rewrite Hwr. unfold expired.
  assert (forall now,
            StateManager.getVault cfg now ammAddress
              (StateManager.addVault cfg (Date_now rpc) Written vault (stateFile w))
            = Some (StateManager.reloaded now vault)) as Hget.
  { intros now. unfold StateManager.getVault. rewrite loadState_addVault. simpl.
    now rewrite obj_get_map, obj_get_set_same. }
  destruct (maturity0 <=? latestFTime); cbn [negb].
  - eexists. split; [reflexivity|]. simpl. rewrite app_nil_r.
    repeat split. exact Hget.
  - destruct filled; cbn [isFilled vault negb];
      (eexists; split; [reflexivity|]; simpl; repeat split; exact Hget).
Qed.

Lemma new_vault_is_stored_and_announced_once_witness :
  exists w',
    onAMMCreated cfg98 rpcRecovered (EventLog 105 "0xAa01"%string) w100 = (Ok tt, w')
    /\ notifications w'
       = notifications w100
         ++ (if 2000 <=? 1000 then [] else [NewVault MoreExamples.vaultDetected false]).
Proof.
  destruct (new_vault_is_stored_and_announced_once cfg98 rpcRecovered w100
              105 1000 500 2000 1000 "0xAa01"%string "Boros AMM - A"%string "A"%string
              "0xm1"%string false)
    as (w' & Hrun & Hnote & _); try reflexivity.
  exists w'. split; [exact Hrun|exact Hnote].
Defined.

(** X16. What the status sweep does with a vault that is not expired and
    whose token symbol is known, once its reads are answered: a cap-raised
    notification iff the cap read differs from the recorded one; then a
    vault-filled notification iff the fill status goes from not filled to
    filled, a vault-available one iff it goes from filled to not filled,
    none otherwise; and the cap, supply and fill status read are written to
    the vault's record in every case. *)
Theorem status_sweep_reports_transitions (cfg : Config) (rpc : Chain) (vault : VaultState)
    (w : World) (latestFTime supply cap : Z) (isNowFilled : bool) :
  truthy (depositTokenSymbol vault) = true ->
  market_getLatestFTime rpc (marketAddress vault) = Some latestFTime ->
  latestFTime < maturity vault ->
  amm_totalSupply rpc (address vault) = Some supply ->
  amm_totalSupplyCap rpc (address vault) = Some cap ->
  isVaultFilled cfg supply cap = Ok isNowFilled ->
  exists w',
    checkVaultStatus cfg rpc vault w = (Ok tt, w')
    /\ notifications w'
       = notifications w
         ++ (if cap =? totalSupplyCap vault then []
             else [CapRaised
                     (spread vault (mkVaultPatch (Some cap) (Some supply) None None None))
                     (totalSupplyCap vault) cap supply])
         ++ match isFilled vault, isNowFilled with
            | false, true =>
                [VaultFilled
                   (spread vault
                      (mkVaultPatch (Some cap) (Some supply) (Some true) None None))]
            | true, false =>
                [VaultAvailable
                   (spread vault
                      (mkVaultPatch (Some cap) (Some supply) (Some false) None None))
                   supply]
            | _, _ => []
            end
    /\ stateFile w'
       = StateManager.updateVault cfg (Date_now rpc) (disk_write rpc) (address vault)
           (mkVaultPatch (Some cap) (Some supply) (Some isNowFilled) None None)
           (stateFile w).
Proof.
  intros Hsym Ht Hlive Hs Hc Hf.
  unfold checkVaultStatus, try_catch.
  unfold bind at 1, call at 1. rewrite Ht.
  unfold expired. destruct (Z.leb_spec (maturity vault) latestFTime) as [|_]; [lia|].
  unfold bind at 1, backfillTokenSymbol. rewrite Hsym. cbn [negb]. unfold ret at 1.
  unfold bind at 1, call at 1. rewrite Hs.
  unfold bind at 1, call at 1. rewrite Hc.
  unfold bind at 1, lift at 1. rewrite Hf.
  destruct (Z.eqb_spec cap (totalSupplyCap vault)) as [Hcap|Hcap];
    destruct (isFilled vault), isNowFilled; cbn;
    (eexists; split; [reflexivity|]; cbn; split;
     [rewrite <- ?app_assoc, ?app_nil_r; reflexivity|reflexivity]).
Qed.

Lemma status_sweep_reports_transitions_witness :
  exists w',
    checkVaultStatus cfg98 rpcCapRaised vaultFull (worldOf (fileOf [vaultFull])) = (Ok tt, w')
    /\ notifications w'
       = [ CapRaised
             (spread vaultFull (mkVaultPatch (Some 2000) (Some 990) None None None))
             1000 2000 990;
           VaultAvailable
             (spread vaultFull (mkVaultPatch (Some 2000) (Some 990) (Some false) None None))
             990 ].
Proof.
  destruct (status_sweep_reports_transitions cfg98 rpcCapRaised vaultFull
              (worldOf (fileOf [vaultFull])) 1000 990 2000 false)
    as (w' & Hrun & Hnote & _); try reflexivity.
  exists w'. split; [exact Hrun|exact Hnote].
Defined.

Lemma leaves_lastStatusCheckBlock_monitorNewVaults (cfg : Config) (rpc : Chain)
    (fromBlock toBlock : Z) :
  stable (leaves lastStatusCheckBlock) (monitorNewVaults cfg rpc fromBlock toBlock).
Proof. unfold monitorNewVaults, queryFilter, onAMMCreated. leaves_auto. Qed.

Lemma leaves_lastStatusCheckBlock_monitorCapUpdates (cfg : Config) (rpc : Chain)
    (fromBlock toBlock : Z) :
  stable (leaves lastStatusCheckBlock) (monitorCapUpdates cfg rpc fromBlock toBlock).
Proof.
  unfold monitorCapUpdates. apply stable_bind; [exact _|apply stable_gets; exact _|].
  intros l. apply stable_capUpdatesLoop_of; [exact _|]. intros vault.
  unfold capUpdatesOf, queryFilter, onCapUpdated. leaves_auto.
Qed.

(** X17. The periodic status sweep runs by block distance: in a pass that
    processes new blocks up to [cur], the block of the last sweep becomes
    [cur] when [cur] is at least [STATUS_CHECK_INTERVAL_BLOCKS] (120) past
    it, and stays what it was otherwise; new-vault and cap-update detection
    never move it. *)
Theorem status_sweep_runs_every_interval (cfg : Config) (rpc : Chain) (w : World)
    (cur : Z) :
  getBlockNumber rpc = Some cur ->
  persistedBlock cfg (Date_now rpc) w + 1 <= cur ->
  lastStatusCheckBlock (snd (monitorPass cfg rpc w))
  = if 120 <=? cur - lastStatusCheckBlock w then cur else lastStatusCheckBlock w.
Proof.
  intros Hcur Hle. rewrite monitorPass_steps. rewrite CacheProperties.snd_try_catch.
  unfold bind at 1, call. rewrite Hcur.
  unfold bind at 1, stateManager_loadState at 1, gets at 1. cbv zeta.
  fold (persistedBlock cfg (Date_now rpc) w).
  destruct (Z.leb_spec (persistedBlock cfg (Date_now rpc) w + 1) cur) as [_|Hgt]; [|lia].
  set (from := persistedBlock cfg (Date_now rpc) w + 1).
  unfold bind at 1.
  destruct (noThrow_run (steps cfg rpc from cur) w (noThrow_steps cfg rpc from cur))
    as [[] ->].
  cbn [snd stateManager_loadState stateManager_saveState gets modify bind
       lastStatusCheckBlock with_stateFile].
  unfold steps.
  unfold bind at 1.
  destruct (noThrow_run (monitorNewVaults cfg rpc from cur) w (noThrow_try_catch _))
    as [[] Ea].
  pose proof (leaves_lastStatusCheckBlock_monitorNewVaults cfg rpc from cur w) as La.
  rewrite Ea. set (wa := snd (monitorNewVaults cfg rpc from cur w)) in *.
  unfold bind at 1.
  assert (noThrow (monitorCapUpdates cfg rpc from cur)) as Nb.
  { unfold monitorCapUpdates. apply noThrow_bind; [apply noThrow_gets|intros l].
    apply noThrow_capUpdatesLoop. }
  destruct (noThrow_run (monitorCapUpdates cfg rpc from cur) wa Nb) as [[] Eb].
  pose proof (leaves_lastStatusCheckBlock_monitorCapUpdates cfg rpc from cur wa) as Lb.
  rewrite Eb. set (wb := snd (monitorCapUpdates cfg rpc from cur wa)) in *.
  unfold leaves in La, Lb.
  unfold bind at 1, gets at 1. rewrite Lb, La.
  unfold STATUS_CHECK_INTERVAL_BLOCKS.
  destruct (120 <=? cur - lastStatusCheckBlock w).
  - unfold bind.
    destruct (noThrow_run (checkAllVaultStatuses cfg rpc) wb
                (noThrow_checkAllVaultStatuses cfg rpc)) as [[] ->].
    reflexivity.
  - simpl. now rewrite Lb, La.
Qed.

Lemma status_sweep_runs_every_interval_witness :
  lastStatusCheckBlock (snd (monitorPass cfg98 rpcRecovered w100))
  = if 120 <=? 120 - lastStatusCheckBlock w100 then 120 else lastStatusCheckBlock w100.
Proof.
  apply (status_sweep_runs_every_interval cfg98 rpcRecovered w100 120).
  - reflexivity.
  - vm_compute. discriminate.
Defined.

#[local] Instance sameBlock_preorder cfg : PreOrder (sameBlock cfg).
Proof.
  split.
  - intros w now. reflexivity.
  - intros a b c Hab Hbc now. now rewrite Hbc, Hab.
Qed.

Lemma sameBlock_loadExistingVaults (cfg : Config) (rpc : Chain) :
  disk_write rpc <> Torn ->
  stable (sameBlock cfg) (loadExistingVaults cfg rpc).
Proof.
  intros Hdisk. apply writes_loadExistingVaults; try exact _.
  - intros v _. apply stable_modify. intros w now. unfold persistedBlock. simpl.
    now apply addVault_block.
  - intros addr cap supply filled checked _. apply stable_modify. intros w now.
    unfold persistedBlock. simpl. now apply updateVault_block.
  - intros addr sym. apply stable_modify. intros w now.
    unfold persistedBlock. simpl. now apply updateVault_block.
  - intros f Hf. apply stable_modify. intros w now. unfold persistedBlock. now rewrite Hf.
Qed.

Lemma sameBlock_backfillVaults (cfg : Config) (rpc : Chain) :
  disk_write rpc <> Torn ->
  stable (sameBlock cfg) (backfillVaults cfg rpc).
Proof.
  intros Hdisk. apply writes_backfillVaults; try exact _.
  - intros v _. apply stable_modify. intros w now. unfold persistedBlock. simpl.
    now apply addVault_block.
  - intros f Hf. apply stable_modify. intros w now. unfold persistedBlock. now rewrite Hf.
Qed.

Lemma leaves_backfillVaults {X : Type} (part : World -> X) (cfg : Config) (rpc : Chain) :
  (forall f w, part (with_stateFile f w) = part w) ->
  (forall q w, part (with_logQuery q w) = part w) ->
  stable (leaves part) (backfillVaults cfg rpc).
Proof.
  intros Hfile Hquery.
  assert (forall f, stable (leaves part) (modify (fun w => with_stateFile (f w) w))) as Hf.
  { intros f. apply stable_modify. intros w. apply Hfile. }
  assert (forall q, stable (leaves part) (modify (with_logQuery q))) as Hq.
  { intros q. apply stable_modify. intros w. apply Hquery. }
  unfold backfillVaults, queryFilter, onBackfillEvent, stateManager_addVault.
  cbv zeta.
  repeat first [ apply Hf | apply Hq | leaves_step ].
Qed.



(** X20. Polling again without a new block does nothing: after a pass that
    processed the blocks up to [cur] on a writable disk, a pass against any
    chain whose height is [cur] or lower, or cannot be read, leaves the
    world exactly as it is; no log is queried and nothing is sent. *)
Theorem repolling_without_new_block_is_noop (cfg : Config) (rpc rpc' : Chain) (w : World)
    (cur : Z) :
  getBlockNumber rpc = Some cur ->
  disk_write rpc = Written ->
  persistedBlock cfg (Date_now rpc) w + 1 <= cur ->
  match getBlockNumber rpc' with Some cur' => cur' <= cur | None => True end ->
  monitorPass cfg rpc' (snd (monitorPass cfg rpc w))
  = (Ok tt, snd (monitorPass cfg rpc w)).
Proof.
  intros Hcur Hwr Hle Hnext. apply monitorPass_skip.
  destruct (monitorPass_run cfg rpc w cur Hcur Hle) as (w1 & _ & ->).
  cbn [snd]. unfold persistedBlock. cbn [stateFile with_stateFile].
  unfold StateManager.saveState. rewrite Hwr.
  rewrite loadState_serializable_block. cbn [lastProcessedBlock].
  destruct (getBlockNumber rpc'); [lia|exact I].
Qed.

Lemma repolling_without_new_block_is_noop_witness :
  monitorPass cfg98 rpcFailing (snd (monitorPass cfg98 rpcRecovered w100))
  = (Ok tt, snd (monitorPass cfg98 rpcRecovered w100)).
Proof.
  apply (repolling_without_new_block_is_noop cfg98 rpcRecovered rpcFailing w100 120).
  - reflexivity.
  - reflexivity.
  - vm_compute. discriminate.
  - vm_compute. discriminate.
Defined.

#[local] Instance sends_preorder ok : PreOrder (sends ok).
Proof.
  split.
  - intros w. exists []. split; [now rewrite app_nil_r|constructor].
  - intros a b c (l1 & E1 & F1) (l2 & E2 & F2). exists (l1 ++ l2). split.
    + now rewrite E2, E1, app_assoc.
    + apply Forall_app. now split.
Qed.

Lemma sends_notify (ok : Notification -> Prop) (n : Notification) :
  ok n -> stable (sends ok) (notify n).
Proof.
  intros H. apply stable_modify. intros w. exists [n]. split; [reflexivity|].
  now constructor.
Qed.

Lemma sends_nothing (ok : Notification -> Prop) (f : World -> World) :
  (forall w, notifications (f w) = notifications w) -> stable (sends ok) (modify f).
Proof.
  intros H. apply stable_modify. intros w. exists []. split; [|constructor].
  now rewrite H, app_nil_r.
Qed.

Lemma stable_bind_call (R : World -> World -> Prop) `{!PreOrder R} {A B : Type}
    (r : option A) (k : A -> M B) :
  (forall a, r = Some a -> stable R (k a)) -> stable R (bind (call r) k).
Proof.
  intros Hk w. unfold bind, call. destruct r as [a|]; [|reflexivity].
  now apply Hk.
Qed.

(** The token-symbol backfill of the sweep hands on a record of the same
    market and maturity. *)
Lemma stable_bind_backfillTokenSymbol (R : World -> World -> Prop) `{!PreOrder R}
    {B : Type} (cfg : Config) (rpc : Chain) (vault : VaultState) (k : VaultState -> M B) :
  (forall sym,
     stable R (stateManager_updateVault cfg rpc (address vault)
                 (mkVaultPatch None None None None (Some sym)))) ->
  (forall v',
     marketAddress v' = marketAddress vault -> maturity v' = maturity vault ->
     stable R (k v')) ->
  stable R (bind (backfillTokenSymbol cfg rpc vault) k).
Proof.
  intros Hu Hk. unfold backfillTokenSymbol.
  destruct (negb (truthy (depositTokenSymbol vault))).
  - destruct (fetchDepositTokenSymbol rpc (marketAddress vault)) as [sym|].
    + destruct (truthy (Some sym)).
      * intros w. unfold bind at 1. unfold bind at 1.
        unfold stateManager_updateVault at 1, modify at 1, ret at 1.
        etransitivity; [apply (Hu sym w)|]. now apply Hk.
      * intros w. unfold bind, ret. now apply Hk.
    + intros w. unfold bind, ret. now apply Hk.
  - intros w. unfold bind, ret. now apply Hk.
Qed.

Section Announcements.
Variables (cfg : Config) (rpc : Chain).

Ltac live_side :=
  unfold notExpiredAt; cbn [vaultOfNotification marketAddress maturity spread];
  eexists; split; [eassumption|];
  match goal with
  | E : expired ?t ?m = false |- ?t < ?m => unfold expired in E; apply Z.leb_gt in E; exact E
  | E : negb (expired ?t ?m) = true |- ?t < ?m =>
      apply negb_true_iff in E; unfold expired in E; apply Z.leb_gt in E; exact E
  end.

Ltac live_step :=
  first
    [ apply stable_ret; exact _
    | apply stable_gets; exact _
    | apply sends_nothing; intros ?; reflexivity
    | apply sends_notify; live_side
    | apply stable_call; exact _
    | apply stable_lift; exact _
    | apply stable_try_catch
    | apply stable_forEach; [exact _|intros ?]
    | apply stable_bind_call; [exact _|intros ? ?]
    | apply stable_bind_lift; [exact _|intros ? ?]
    | apply stable_bind; [exact _| |intros ?]
    | match goal with
      | |- stable _ (if ?b then _ else _) => destruct b eqn:?
      | |- stable _ (match ?x with _ => _ end) => destruct x eqn:?
      end ].

Ltac live_auto := cbv zeta; repeat (live_step; cbv zeta).

Lemma live_onAMMCreated event : stable (sends (notExpiredAt rpc)) (onAMMCreated cfg rpc event).
Proof. unfold onAMMCreated. live_auto. Qed.

Lemma live_monitorNewVaults fromBlock toBlock :
  stable (sends (notExpiredAt rpc)) (monitorNewVaults cfg rpc fromBlock toBlock).
Proof.
  unfold monitorNewVaults, queryFilter. live_auto. apply live_onAMMCreated.
Qed.

Lemma live_capUpdatesOf fromBlock toBlock vault :
  stable (sends (notExpiredAt rpc)) (capUpdatesOf cfg rpc fromBlock toBlock vault).
Proof. unfold capUpdatesOf, queryFilter, onCapUpdated. live_auto. Qed.

Lemma live_monitorCapUpdates fromBlock toBlock :
  stable (sends (notExpiredAt rpc)) (monitorCapUpdates cfg rpc fromBlock toBlock).
Proof.
  unfold monitorCapUpdates. apply stable_bind; [exact _|apply stable_gets; exact _|].
  intros l. apply stable_capUpdatesLoop_of; [exact _|]. apply live_capUpdatesOf.
Qed.

Lemma live_checkVaultStatus vault :
  stable (sends (notExpiredAt rpc)) (checkVaultStatus cfg rpc vault).
Proof.
  unfold checkVaultStatus. apply stable_try_catch.
  apply stable_bind_call; [exact _|intros t Ht].
  destruct (expired t (maturity vault)) eqn:E; [apply stable_ret; exact _|].
  apply stable_bind_backfillTokenSymbol; [exact _| |].
  - intros sym. now apply sends_nothing.
  - intros v' Hmarket Hmaturity. rewrite <- Hmarket in Ht. rewrite <- Hmaturity in E.
    live_auto.
Qed.

Lemma live_checkAllVaultStatuses :
  stable (sends (notExpiredAt rpc)) (checkAllVaultStatuses cfg rpc).
Proof.
  unfold checkAllVaultStatuses.
  apply stable_bind; [exact _|apply stable_gets; exact _|intros l].
  apply stable_forEach; [exact _|intros batch].
  apply stable_forEach; [exact _|intros vault]. apply live_checkVaultStatus.
Qed.

Lemma live_steps fromBlock toBlock :
  stable (sends (notExpiredAt rpc)) (steps cfg rpc fromBlock toBlock).
Proof.
  unfold steps.
  apply stable_bind; [exact _|apply live_monitorNewVaults|intros _].
  apply stable_bind; [exact _|apply live_monitorCapUpdates|intros _].
  apply stable_bind; [exact _|apply stable_gets; exact _|intros lastCheck].
  destruct (_ <=? _).
  - apply stable_bind; [exact _|apply live_checkAllVaultStatuses|intros _].
    now apply sends_nothing.
  - apply stable_ret. exact _.
Qed.

Lemma live_monitorPass : stable (sends (notExpiredAt rpc)) (monitorPass cfg rpc).
Proof.
  intros w. rewrite monitorPass_steps. rewrite CacheProperties.snd_try_catch.
  unfold bind at 1, call. destruct (getBlockNumber rpc) as [cur|]; [|reflexivity].
  unfold bind at 1, stateManager_loadState at 1, gets at 1. cbv zeta.
  destruct (_ <=? cur); [|reflexivity].
  set (from := lastProcessedBlock _ + 1).
  unfold bind at 1.
  destruct (noThrow_run (steps cfg rpc from cur) w (noThrow_steps cfg rpc from cur))
    as [[] ->].
  apply live_steps.
Qed.

Lemma live_loadExistingVaults :
  stable (sends (notExpiredAt rpc)) (loadExistingVaults cfg rpc).
Proof.
  unfold loadExistingVaults.
  apply stable_bind; [exact _|apply stable_gets; exact _|intros l].
  apply stable_bind.
  - exact _.
  - destruct (_ =? _)%nat; [|apply stable_ret; exact _].
    intros w. exists []. split; [|constructor]. rewrite app_nil_r.
    apply (leaves_backfillVaults notifications); reflexivity.
  - intros _. apply stable_bind; [exact _|apply stable_gets; exact _|intros l'].
    apply stable_forEach; [exact _|intros vault]. apply live_checkVaultStatus.
Qed.
End Announcements.

(** X21. Expired vaults are never announced: every notification that
    start-up or a pass of the monitor loop sends, of any of the four kinds,
    is about a vault whose market time, as the chain answers it during that
    very step, is still below the vault's maturity. *)
Theorem notifications_are_about_unexpired_vaults (cfg : Config) (rpc : Chain) (w : World) :
  (exists sent,
     notifications (snd (monitorPass cfg rpc w)) = notifications w ++ sent
     /\ Forall (notExpiredAt rpc) sent)
  /\ (exists sent,
        notifications (snd (loadExistingVaults cfg rpc w)) = notifications w ++ sent
        /\ Forall (notExpiredAt rpc) sent).
Proof.
  split; [apply live_monitorPass|apply live_loadExistingVaults].
Qed.

(** X22. Within one pass, every cap-raised notification for a vault
    reports as old cap the cap the record had when the pass read the store,
    also for a second or later cap-changed event of the same vault in the
    queried range. *)
Theorem cap_raised_reports_cap_at_start_of_pass (cfg : Config) (rpc : Chain)
    (vault : VaultState) (events : list (LogEntry (list Z))) (w : World) :
  exists sent,
    notifications (snd (forEach events (onCapUpdated cfg rpc vault) w))
    = notifications w ++ sent
    /\ Forall (reportsOldCap (totalSupplyCap vault)) sent.
Proof.
  apply (stable_forEach (sends (reportsOldCap (totalSupplyCap vault)))).
  intros event. unfold onCapUpdated.
  cbv zeta.
  repeat first
    [ apply stable_ret; exact _
    | apply sends_nothing; intros ?; reflexivity
    | apply sends_notify; exact I
    | apply sends_notify; reflexivity
    | apply stable_bind; [exact _| |intros ?]
    | apply stable_call; exact _
    | apply stable_lift; exact _
    | match goal with
      | |- stable _ (if ?b then _ else _) => destruct b
      | |- stable _ (match ?x with _ => _ end) => destruct x
      end ].
Qed.

End StepExtras.

(* ================================================================== *)
(** * The pass, step by step *)

Module PassProperties.
Import StateManagerFacts VaultMonitor TrackerFacts StepExtras Examples MoreExamples.

#[local] Instance asks_preorder f t : PreOrder (asks f t).
Proof.
  split.
  - intros w. exists []. split; [now rewrite app_nil_r|constructor].
  - intros a b c (q1 & E1 & F1) (q2 & E2 & F2). exists (q1 ++ q2). split.
    + now rewrite E2, E1, app_assoc.
    + apply Forall_app. now split.
Qed.

Lemma asks_query (f t : Z) (q : LogQuery) :
  queryRange q = (f, t) -> stable (asks f t) (modify (with_logQuery q)).
Proof.
  intros Hq. apply stable_modify. intros w. exists [q]. split; [reflexivity|].
  now constructor.
Qed.

Lemma asks_quiet (f t : Z) (g : World -> World) :
  (forall w, logQueries (g w) = logQueries w) -> stable (asks f t) (modify g).
Proof.
  intros Hg. apply stable_modify. intros w. exists []. split; [|constructor].
  now rewrite Hg, app_nil_r.
Qed.

Ltac asks_step :=
  first
    [ apply stable_ret; exact _
    | apply stable_call; exact _
    | apply stable_lift; exact _
    | apply stable_gets; exact _
    | apply asks_query; reflexivity
    | apply asks_quiet; intros ?; reflexivity
    | apply stable_try_catch
    | apply stable_forEach; [exact _|intros ?]
    | apply stable_bind; [exact _| |intros ?]
    | match goal with
      | |- stable _ (if ?b then _ else _) => destruct b
      | |- stable _ (match ?x with _ => _ end) => destruct x
      end ].

Ltac asks_auto := cbv zeta; repeat (asks_step; cbv zeta).

Lemma asks_onAMMCreated (cfg : Config) (rpc : Chain) (f t : Z) (event : LogEntry string) :
  stable (asks f t) (onAMMCreated cfg rpc event).
Proof. unfold onAMMCreated. asks_auto. Qed.

Lemma asks_monitorCapUpdates (cfg : Config) (rpc : Chain) (f t : Z) :
  stable (asks f t) (monitorCapUpdates cfg rpc f t).
Proof.
  unfold monitorCapUpdates. apply stable_bind; [exact _|apply stable_gets; exact _|].
  intros l. apply stable_capUpdatesLoop_of; [exact _|]. intros vault.
  unfold capUpdatesOf, queryFilter, onCapUpdated. asks_auto.
Qed.

Lemma asks_checkAllVaultStatuses (cfg : Config) (rpc : Chain) (f t : Z) :
  stable (asks f t) (checkAllVaultStatuses cfg rpc).
Proof. unfold checkAllVaultStatuses, checkVaultStatus, backfillTokenSymbol. asks_auto. Qed.

(** Step 2 asks for the creation events of the range first, and for
    nothing else. *)
Lemma monitorNewVaults_asks (cfg : Config) (rpc : Chain) (f t : Z) (w : World) :
  asks f t (with_logQuery (QueryAMMCreated f t) w) (snd (monitorNewVaults cfg rpc f t w)).
Proof.
  unfold monitorNewVaults. rewrite CacheProperties.snd_try_catch.
  unfold queryFilter, bind at 1, bind at 1, modify at 1.
  change (asks f t (with_logQuery (QueryAMMCreated f t) w)
            (snd ((events <- call (AMMCreated_logs rpc f t) ;;
                   forEach events (onAMMCreated cfg rpc))
                    (with_logQuery (QueryAMMCreated f t) w)))).
  revert w. intros w.
  assert (stable (asks f t)
            (events <- call (AMMCreated_logs rpc f t) ;;
             forEach events (onAMMCreated cfg rpc))) as H.
  { apply stable_bind; [exact _|apply stable_call; exact _|intros events].
    apply stable_forEach; [exact _|]. intros event. apply asks_onAMMCreated. }
  apply H.
Qed.

(** The log queries of steps 2 to 4: the creation events of the range
    first, then queries for that range only. *)
Lemma steps_asks (cfg : Config) (rpc : Chain) (f t : Z) (w : World) :
  asks f t (with_logQuery (QueryAMMCreated f t) w) (snd (steps cfg rpc f t w)).
Proof.
  unfold steps. unfold bind at 1.
  destruct (noThrow_run (monitorNewVaults cfg rpc f t) w (noThrow_try_catch _))
    as [[] Ea].
  pose proof (monitorNewVaults_asks cfg rpc f t w) as Ha.
  rewrite Ea. set (wa := snd (monitorNewVaults cfg rpc f t w)) in *.
  etransitivity; [exact Ha|].
  assert (stable (asks f t)
            (monitorCapUpdates cfg rpc f t ;;;
             lastCheck <- gets lastStatusCheckBlock ;;
             (if STATUS_CHECK_INTERVAL_BLOCKS <=? t - lastCheck then
                checkAllVaultStatuses cfg rpc ;;;
                modify (with_lastStatusCheckBlock t)
              else ret tt))) as H.
  { apply stable_bind; [exact _|apply asks_monitorCapUpdates|intros _].
    apply stable_bind; [exact _|apply stable_gets; exact _|intros lastCheck].
    destruct (_ <=? _).
    - apply stable_bind; [exact _|apply asks_checkAllVaultStatuses|intros _].
      now apply asks_quiet.
    - apply stable_ret. exact _. }
  apply H.
Qed.

(** The log queries of a pass that finds new blocks, whatever the chain
    answers and whatever becomes of the writes. *)
Lemma monitorPass_asks (cfg : Config) (rpc : Chain) (w : World) (cur : Z) :
  getBlockNumber rpc = Some cur ->
  persistedBlock cfg (Date_now rpc) w + 1 <= cur ->
  exists qs,
    logQueries (snd (monitorPass cfg rpc w))
    = logQueries w ++ QueryAMMCreated (persistedBlock cfg (Date_now rpc) w + 1) cur :: qs
    /\ Forall (fun q => queryRange q = (persistedBlock cfg (Date_now rpc) w + 1, cur)) qs.
Proof.
  intros Hcur Hle.
  destruct (monitorPass_run cfg rpc w cur Hcur Hle) as (w1 & Hw1 & ->).
  destruct (steps_asks cfg rpc (persistedBlock cfg (Date_now rpc) w + 1) cur w)
    as (qs & E & F).
  rewrite <- Hw1 in E. exists qs. split; [|exact F].
  cbn [snd logQueries with_stateFile]. rewrite E. simpl. now rewrite <- app_assoc.
Qed.




End PassProperties.

(* ------------------------------------------------------------------ *)
(** ** The amounts printed in messages *)

Module FormatExtras.
Import JS Format Digits.
#[local] Open Scope string_scope.

Lemma digitsValue_acc d : forall acc,
  digitsValue d acc = acc * 10 ^ Z.of_nat (nb_digits d) + digitsValue d 0.
Proof.
  induction d; intros acc; cbn [digitsValue nb_digits];
    try (rewrite Nat2Z.inj_succ, Z.pow_succ_r by lia;
         rewrite IHd; rewrite (IHd (10 * 0 + _)) || rewrite (IHd (10 * 0)); lia).
  simpl. lia.
Qed.

Lemma digitsValue_bound d : 0 <= digitsValue d 0 < 10 ^ Z.of_nat (nb_digits d).
Proof.
  induction d; cbn [digitsValue nb_digits];
    try (rewrite Nat2Z.inj_succ, Z.pow_succ_r by lia; rewrite digitsValue_acc; lia).
  simpl. lia.
Qed.

Lemma of_uint_acc_value d : forall acc,
  Z.pos (Pos.of_uint_acc d acc) = digitsValue d (Z.pos acc).
Proof.
  induction d; intros acc; cbn [Pos.of_uint_acc digitsValue]; rewrite ?IHd;
    try (f_equal; lia).
Qed.

Lemma of_uint_value d : Z.of_uint d = digitsValue d 0.
Proof.
  unfold Z.of_uint.
  induction d; cbn [Pos.of_uint digitsValue N.of_uint]; try reflexivity;
    try (rewrite N2Z.inj_pos, of_uint_acc_value; reflexivity).
  exact IHd.
Qed.

Lemma digitsValue_iter_D0 k d : digitsValue (Nat.iter k D0 d) 0 = digitsValue d 0.
Proof. induction k; simpl; auto. Qed.

Lemma string_of_iter_D0 k d :
  NilEmpty.string_of_uint (Nat.iter k D0 d) = repeatChar "0" k ++ NilEmpty.string_of_uint d.
Proof. induction k; simpl; [reflexivity|now rewrite IHk]. Qed.

Lemma length_string_of_uint d : String.length (NilEmpty.string_of_uint d) = nb_digits d.
Proof. induction d; simpl; auto. Qed.

Lemma substring_string_of_uint n : forall d,
  substring 0 n (NilEmpty.string_of_uint d) = NilEmpty.string_of_uint (utake n d).
Proof.
  induction n; intros d.
  - now destruct d.
  - destruct d; cbn [NilEmpty.string_of_uint utake substring]; rewrite ?IHn; reflexivity.
Qed.

Lemma nb_digits_utake n : forall d, nb_digits (utake n d) = Nat.min n (nb_digits d).
Proof.
  induction n; intros d; [reflexivity|].
  destruct d; cbn [utake nb_digits]; rewrite ?IHn; reflexivity.
Qed.

(** The first [n] digits of a numeral are its value without the last
    digits. *)
Lemma digitsValue_utake n : forall d,
  (n <= nb_digits d)%nat ->
  digitsValue (utake n d) 0 = digitsValue d 0 / 10 ^ Z.of_nat (nb_digits d - n).
Proof.
  induction n; intros d H.
  - cbn [utake digitsValue]. rewrite Nat.sub_0_r.
    symmetry. apply Z.div_small. apply digitsValue_bound.
  - destruct d; cbn [nb_digits] in H; [lia|..];
      cbn [utake digitsValue nb_digits Nat.sub];
      rewrite (digitsValue_acc (utake n d)), (digitsValue_acc d), IHn by lia;
      rewrite nb_digits_utake, Nat.min_l by lia;
      (replace (Z.of_nat (nb_digits d)) with (Z.of_nat n + Z.of_nat (nb_digits d - n)) at 1 by lia);
      rewrite Z.pow_add_r, Z.mul_assoc by lia;
      rewrite Z.div_add_l by (apply Z.pow_nonzero; lia); reflexivity.
Qed.

(** A numeral written in full: zeros, then the decimal numeral of its
    value. *)
Lemma string_of_uint_padded d :
  d <> Nil ->
  NilEmpty.string_of_uint d
  = padStart (nb_digits d) "0" (BigInt_toString (digitsValue d 0)).
Proof.
  intros Hd. unfold BigInt_toString. rewrite <- of_uint_value.
  change (Z.of_uint d) with (Z.of_int (Pos d)). rewrite DecimalZ.to_of.
  cbn [norm NilZero.string_of_int].
  assert (E : NilZero.string_of_uint (unorm d) = NilEmpty.string_of_uint (unorm d)).
  { pose proof (DecimalFacts.unorm_nonnil d). now destruct (unorm d). }
  rewrite E. unfold padStart. rewrite length_string_of_uint.
  rewrite <- string_of_iter_D0. now rewrite DecimalFacts.iter_D0_unorm.
Qed.

Lemma toString_digits f :
  0 <= f ->
  exists d, BigInt_toString f = NilEmpty.string_of_uint d
            /\ digitsValue d 0 = f /\ unorm d = d /\ d <> Nil.
Proof.
  intros Hf. exists (N.to_uint (Z.to_N f)). 
  assert (Hn : N.to_uint (Z.to_N f) <> Nil).
  { destruct f; simpl; [discriminate|apply Unsigned.to_uint_nonnil|lia]. }
  repeat split.
  - unfold BigInt_toString. destruct f; try lia; try reflexivity.
    cbn [Z.to_int NilZero.string_of_int Z.to_N N.to_uint].
    pose proof (Unsigned.to_uint_nonnil p). now destruct (Pos.to_uint p).
  - rewrite <- of_uint_value. unfold Z.of_uint.
    change (Pos.of_uint ?d) with (N.of_uint d). rewrite DecimalN.Unsigned.of_to. lia.
  - now rewrite <- DecimalN.Unsigned.to_of, DecimalN.Unsigned.of_to.
  - exact Hn.
Qed.

Lemma nb_digits_le d n :
  unorm d = d -> digitsValue d 0 < 10 ^ Z.of_nat n -> (1 <= n)%nat ->
  (nb_digits d <= n)%nat.
Proof.
  intros Hu Hv Hn.
  destruct (Nat.le_gt_cases (nb_digits d) n) as [|Hgt]; [assumption|exfalso].
  assert (Hlow : 10 ^ Z.of_nat (nb_digits d - 1) <= digitsValue d 0).
  { destruct d; cbn [nb_digits] in *; try lia;
      cbn [digitsValue nb_digits Nat.sub]; rewrite ?Nat.sub_0_r;
      try (rewrite digitsValue_acc; pose proof (digitsValue_bound d); nia).
    rewrite DecimalFacts.unorm_D0 in Hu. unfold unorm in Hu.
    pose proof (DecimalFacts.nzhead_nonzero d d) as Hz.
    destruct (nzhead d) eqn:E; try congruence.
    injection Hu as <-. simpl in Hgt. lia. }
  assert (10 ^ Z.of_nat n <= 10 ^ Z.of_nat (nb_digits d - 1))
    by (apply Z.pow_le_mono_r; lia).
  lia.
Qed.

(** X23. For an amount that is not negative, [formatNumber] prints the
    whole units, a dot, and the fraction cut (not rounded) to six decimals
    and zero-padded to six digits. *)
Theorem formatNumber_truncates (value : Z) (decimals : nat) :
  0 <= value -> (6 <= decimals <= 22)%nat ->
  formatNumber value decimals
  = BigInt_toString (value / 10 ^ Z.of_nat decimals) ++ "."
    ++ padStart 6 "0"
         (BigInt_toString ((value mod 10 ^ Z.of_nat decimals) / 10 ^ Z.of_nat (decimals - 6))).
Proof.
  intros Hv Hd. unfold formatNumber. cbv zeta.
  assert (Hp : 0 < 10 ^ Z.of_nat decimals) by (apply Z.pow_pos_nonneg; lia).
  rewrite Z.quot_div_nonneg, Z.rem_mod_nonneg by lia.
  f_equal. f_equal.
  pose proof (Z.mod_pos_bound value _ Hp) as Hf.
  set (f := value mod _) in *.
  destruct (toString_digits f) as (d & Es & Ev & Eu & Hn); [lia|].
  assert (Hlen : (nb_digits d <= decimals)%nat)
    by (apply nb_digits_le; [assumption|lia|lia]).
  rewrite Es. unfold padStart at 1. rewrite length_string_of_uint.
  rewrite <- string_of_iter_D0.
  set (padded := Nat.iter _ D0 d).
  assert (Hnb : nb_digits padded = decimals).
  { unfold padded. rewrite DecimalFacts.nb_digits_iter_D0. lia. }
  rewrite substring_string_of_uint.
  assert (H6 : nb_digits (utake 6 padded) = 6%nat)
    by (rewrite nb_digits_utake; lia).
  rewrite string_of_uint_padded by (intros E; rewrite E in H6; discriminate).
  rewrite H6. rewrite digitsValue_utake by lia.
  rewrite Hnb. unfold padded. now rewrite digitsValue_iter_D0, Ev.
Qed.

Lemma formatNumber_truncates_witness :
  formatNumber 1234567890123456789012 18 = "1234.567890".
Proof.
  rewrite (formatNumber_truncates 1234567890123456789012 18).
  - vm_compute. reflexivity.
  - lia.
  - lia.
Defined.

End FormatExtras.
